(** * Workflow orchestration engine: a shallow embedding and its properties

    The development follows the Python sources of the platform:
    - [core/workflow_engine.py]   (planner, required-node policy, level
      execution, input routing, output assembly, engine bookkeeping),
    - [core/workflow_components.py] (validator, depth-first cycle check),
    - [core/node_registry.py]     (node factory),
    - [core/execution_context.py] (per-run context),
    - [utils/retry_mechanism.py]  (retry with exponential backoff),
    - [utils/error_handler.py]    (workflow error propagation).

    Python dictionaries are finite maps ([gmap]) where only lookups matter and
    association lists where the iteration order is observable; Python sets are
    [gset]s; exceptions are an explicit [outcome] type. *)

From Stdlib Require Import ZArith QArith Qminmax Qpower String Ascii.
From stdpp Require Import base option list strings pretty gmap sets fin_sets relations.

Set Warnings "-register-all,-clear-no-such-hyp".

Set Default Proof Using "Type".

(** ** Python values, exceptions and outcomes *)

(** JSON-like Python values that flow between nodes. *)
Inductive value :=
  | VNone
  | VBool (b : bool)
  | VInt (z : Z)
  | VStr (s : string)
  | VList (l : list value)
  | VDict (m : gmap string value).

(** The exception classes the modelled code raises or catches.  Every class
    here derives from Python's [Exception]. *)
Inductive exn :=
  | WorkflowError (msg : string)            (* utils.error_handler.WorkflowError *)
  | WorkflowValidationError (msg : string)  (* core.errors *)
  | WorkflowCycleError (msg : string)       (* core.errors *)
  | KeyError (key : string)
  | PyException (cls : string) (msg : string).

(** [str(e)] *)
Definition str_of_exn (e : exn) : string :=
  match e with
  | WorkflowError m | WorkflowValidationError m | WorkflowCycleError m => m
  | KeyError k => "'" +:+ k +:+ "'"
  | PyException _ m => m
  end.

Inductive outcome (A : Type) :=
  | Return (a : A)
  | Raise (e : exn).
Arguments Return {A} a.
Arguments Raise {A} e.

(** Truthiness of a Python string: [if s:] holds iff [s] is not empty. *)
Definition truthy (s : string) : bool := negb (String.eqb s "").

(** [sep.join(l)] *)
Definition join (sep : string) (l : list string) : string := String.concat sep l.

(** ** Workflow definitions (the dictionaries the engine reads) *)

Record node_def := NodeDef {
  nd_type : option string;
  nd_name : option string;
  nd_description : option string;
  nd_config : option value;
  nd_credentials : option value;
  nd_required : option bool   (* [None]: key absent, [.get("required", True)] *)
}.

(** An edge dictionary carrying the keys [source] and [target]. *)
Record edge := Edge {
  source : string;
  target : string;
  source_output : option string;
  target_input : option string
}.

(** A connection of the validator dialect: keys [from] and [to]. *)
Record connection := Connection {
  conn_from : option string;
  conn_to : option string
}.

Record output_def := OutputDef {
  out_node : option string;
  out_path : option string
}.

(** A definition document.  The engine reads [nodes], [edges] and [outputs];
    [WorkflowDefinition.from_dict] reads [nodes] and [connections]. *)
Record workflow_def := WorkflowDef {
  wf_id : option string;
  wf_name : option string;
  nodes : list (string * node_def);
  edges : list edge;
  connections : list connection;
  outputs : list (string * output_def);
  error_handling_max_retries : option Z   (* [error_handling.retry.max_retries] *)
}.

Definition node_ids (wf : workflow_def) : list string := (nodes wf).*1.

(** ** Execution planner: [WorkflowEngine._build_execution_plan] *)

(** [dependencies = {node_id: set() for node_id in nodes_def}] *)
Definition init_dependencies (wf : workflow_def) : gmap string (gset string) :=
  list_to_map ((λ n, (n, ∅ : gset string)) <$> node_ids wf).

(** The loop over the edges: [dependencies[target].add(source)] for every edge
    with truthy endpoints; a target that is no key raises [KeyError]. *)
Fixpoint add_dependencies (es : list edge) (dependencies : gmap string (gset string))
  : outcome (gmap string (gset string)) :=
  match es with
  | [] => Return dependencies
  | e :: es' =>
      if truthy (source e) && truthy (target e) then
        match dependencies !! target e with
        | Some s => add_dependencies es' (<[target e := {[source e]} ∪ s]> dependencies)
        | None => Raise (KeyError (target e))
        end
      else add_dependencies es' dependencies
  end.

(** Nodes of [remaining_nodes] with an empty dependency set, in the iteration
    order of the set. *)
Definition find_level (dependencies : gmap string (gset string))
    (remaining_nodes : gset string) : list string :=
  filter (λ node_id, dependencies !!! node_id = (∅ : gset string)) (elements remaining_nodes).

(** [for executed_node in level: s.discard(executed_node)] *)
Definition discard_all (level : list string) (s : gset string) : gset string :=
  foldl (λ acc executed_node, acc ∖ {[executed_node]}) s level.

(** [for node_id in remaining_nodes: ... dependencies[node_id].discard(...)] *)
Definition remove_executed (level : list string) (remaining_nodes : gset string)
    (dependencies : gmap string (gset string)) : gmap string (gset string) :=
  foldr (λ node_id d, alter (discard_all level) node_id d) dependencies
        (elements remaining_nodes).

Definition cyclic_dependency_message (remaining_nodes : gset string) : string :=
  "Cyclic dependency detected among nodes: " +:+ join ", " (elements remaining_nodes).

(** The [while remaining_nodes:] loop.  Every iteration that does not raise
    removes at least one node, so [size remaining_nodes] iterations suffice;
    [None] means the iteration budget ran out. *)
Fixpoint plan_loop (fuel : nat) (dependencies : gmap string (gset string))
    (remaining_nodes : gset string) (execution_plan : list (list string))
  : option (outcome (list (list string))) :=
  if decide (remaining_nodes = ∅) then Some (Return execution_plan)
  else
    match fuel with
    | O => None
    | S fuel' =>
        let level := find_level dependencies remaining_nodes in
        let remaining_nodes' := remaining_nodes ∖ list_to_set level in
        match level with
        | [] => Some (Raise (WorkflowError (cyclic_dependency_message remaining_nodes')))
        | _ :: _ =>
            plan_loop fuel' (remove_executed level remaining_nodes' dependencies)
                      remaining_nodes' (execution_plan ++ [level])
        end
    end.

Definition _build_execution_plan (wf : workflow_def)
  : option (outcome (list (list string))) :=
  match add_dependencies (edges wf) (init_dependencies wf) with
  | Raise e => Some (Raise e)
  | Return dependencies =>
      let remaining_nodes : gset string := dom dependencies in
      plan_loop (size remaining_nodes) dependencies remaining_nodes []
  end.

(** *** Vocabulary for statements about plans *)

(** The edge relation of a definition: [s -> t] for every edge dictionary. *)
Definition edge_rel (wf : workflow_def) (s t : string) : Prop :=
  ∃ e, e ∈ edges wf ∧ source e = s ∧ target e = t.

Definition acyclic (wf : workflow_def) : Prop := ∀ n, ¬ tc (edge_rel wf) n n.


(** Edge endpoints are keys of the node map. *)
Definition edges_in_nodes (wf : workflow_def) : Prop :=
  ∀ e, e ∈ edges wf → source e ∈ node_ids wf ∧ target e ∈ node_ids wf.


(** Edge endpoints are non-empty strings. *)
Definition edges_nonempty (wf : workflow_def) : Prop :=
  ∀ e, e ∈ edges wf → source e ≠ "" ∧ target e ≠ "".

(** Node [n] sits in level number [i] of the plan. *)
Definition in_level (plan : list (list string)) (n : string) (i : nat) : Prop :=
  ∃ l, plan !! i = Some l ∧ n ∈ l.

(** The plan lists every node exactly once and orders every edge. *)
Definition plan_correct (wf : workflow_def) (plan : list (list string)) : Prop :=
  NoDup (concat plan)
  ∧ (∀ n, n ∈ concat plan ↔ n ∈ node_ids wf)
  ∧ (∀ e, e ∈ edges wf →
       ∃ i j, in_level plan (source e) i ∧ in_level plan (target e) j ∧ i < j).

(** The planner property as the specification words it: every acyclic
    definition whose edge endpoints are keys of the node map is planned
    correctly. *)
Definition planner_property_as_specified (wf : workflow_def) : Prop :=
  edges_in_nodes wf → acyclic wf →
  ∃ plan, _build_execution_plan wf = Some (Return plan) ∧ plan_correct wf plan.

Definition mk_node : node_def := NodeDef (Some "Logger") None None None None None.
Definition mk_edge (s t : string) : edge := Edge s t None None.
Definition mk_wf (ns : list string) (es : list edge) : workflow_def :=
  WorkflowDef None None ((λ n, (n, mk_node)) <$> ns) es [] [] None.

(** The diamond [A -> B], [A -> C], [B -> D], [C -> D]. *)
Definition diamond : workflow_def :=
  mk_wf ["A"; "B"; "C"; "D"]
        [mk_edge "A" "B"; mk_edge "A" "C"; mk_edge "B" "D"; mk_edge "C" "D"].

(** A definition with a node whose id is the empty string. *)
Definition empty_id_wf : workflow_def := mk_wf [""; "b"] [mk_edge "" "b"].



(** *** Invariants of the planning loop *)

(** Predecessors the planner records for node [n]: sources of the edges into
    [n] whose two endpoints are truthy. *)
Definition preds (es : list edge) (n : string) : gset string :=
  list_to_set (source <$>
    filter (λ e, truthy (source e) && truthy (target e) = true ∧ target e = n) es).

(** The loop invariant: [rem] are the nodes not yet planned, [acc] lists the
    planned ones exactly once, and every remaining dependency set is the
    recorded predecessor set minus the planned nodes. *)
Definition plan_inv (wf : workflow_def) (deps : gmap string (gset string)) (rem : gset string)
    (acc : list (list string)) : Prop :=
  rem ⊆ list_to_set (node_ids wf)
  ∧ (∀ n, n ∈ rem → deps !! n = Some (preds (edges wf) n ∖ (list_to_set (node_ids wf) ∖ rem)))
  ∧ NoDup (concat acc)
  ∧ (∀ n, n ∈ concat acc ↔ n ∈ (list_to_set (node_ids wf) : gset string) ∧ n ∉ rem).

(** Recorded predecessors are planned in a strictly earlier level. *)
Definition plan_ordered (wf : workflow_def) (acc : list (list string)) : Prop :=
  ∀ (s t : string), s ∈ preds (edges wf) t → t ∈ concat acc →
    ∃ i j, in_level acc s i ∧ in_level acc t j ∧ i < j.


(** ** Dotted-path extraction (the loop shared by [_prepare_node_input] and
       [_prepare_workflow_output]) *)

(** [s.split(sep)] for a one-character separator: never empty, [""] splits
    into [[""]]. *)
Fixpoint split_on (sep : ascii) (s : string) : list string :=
  match s with
  | EmptyString => [""]
  | String c rest =>
      if Ascii.eqb c sep then "" :: split_on sep rest
      else match split_on sep rest with
           | [] => [String c ""]
           | part :: parts => String c part :: parts
           end
  end.

(** One iteration: [isinstance(value, dict) and part in value] picks
    [value[part]]; anything else ends the loop with [None]. *)
Definition path_step (v : value) (part : string) : option value :=
  match v with
  | VDict m => m !! part
  | _ => None
  end.

Fixpoint extract_parts (parts : list string) (v : value) : value :=
  match parts with
  | [] => v
  | part :: parts' =>
      match path_step v part with
      | Some v' => extract_parts parts' v'
      | None => VNone
      end
  end.

(** [parts = output_path.split('.')] followed by the loop. *)
Definition extract_path (output_path : string) (result : value) : value :=
  extract_parts (split_on "." output_path) result.

(** Every step of the path resolves to a dictionary key, ending in [v']. *)
Inductive resolves : value → list string → value → Prop :=
  | resolves_nil v : resolves v [] v
  | resolves_cons m part parts v1 v' :
      m !! part = Some v1 → resolves v1 parts v' →
      resolves (VDict m) (part :: parts) v'.

(** ** Node instances and the node registry: [core/node_registry.py] *)

(** What [validate_config()] may hand back to the validator. *)
Inductive validate_result :=
  | ValidBool (b : bool)
  | ValidObject (is_valid : bool) (error_message : option string)
  | ValidOther.

(** The node contract as the engine and the validator use it.  A node is
    identified by what its methods do. *)
Inductive node_instance := NodeInstance {
  node_status : string;               (* [NodeStatus.value] *)
  node_start_time : option Z;
  node_end_time : option Z;
  execution_duration : option Z;
  configure : value → value → outcome node_instance;
  execute : value → string → outcome value;
  validate_config : option (outcome validate_result)
}.

(** A node class: its constructor, called with positional and keyword
    arguments. *)
Record node_class := NodeClass {
  construct : list value → gmap string value → outcome node_instance
}.

Record NodeRegistry := MkNodeRegistry {
  node_types : gmap string node_class
}.

(** [NodeRegistry.register_node_type]; re-registration overwrites. *)
Definition register_node_type (reg : NodeRegistry) (type_name : string)
    (cls : node_class) : NodeRegistry :=
  MkNodeRegistry (<[type_name := cls]> (node_types reg)).

(** [NodeRegistry.create_node]: Python's [None] is [Return None]. *)
Definition create_node (reg : NodeRegistry) (type_name : string)
    (args : list value) (kwargs : gmap string value)
  : outcome (option node_instance) :=
  match node_types reg !! type_name with
  | None => Return None
  | Some cls =>
      match construct cls args kwargs with
      | Return inst => Return (Some inst)
      | Raise e => Raise e
      end
  end.

(** Modelled from the spec: [NodeRegistry.has_node_type] and
    [NodeRegistry.get_node_class] are called by the engine and the validator
    but their bodies are not part of [core/node_registry.py] as shipped.  The
    specification gives [has_type(type_name) -> bool]; the class lookup is
    only used after [has_node_type] answered [True]. *)
Definition has_node_type (reg : NodeRegistry) (type_name : string) : bool :=
  bool_decide (is_Some (node_types reg !! type_name)).


(** The create operation as the specification words it: an unknown type
    name fails with [UnknownTypeError]. *)
Definition create_fails_with_unknown_type (reg : NodeRegistry)
    (type_name : string) (args : list value) (kwargs : gmap string value) : Prop :=
  node_types reg !! type_name = None →
  ∃ msg, create_node reg type_name args kwargs
         = Raise (PyException "UnknownTypeError" msg).

(** ** Execution context: [core/execution_context.py] *)

Record ExecutionContext := MkExecutionContext {
  workflow_id : string;
  execution_id : string;
  ctx_workflow_def : workflow_def;
  trigger_data : value;
  status : string;              (* created, running, completed, failed, cancelled *)
  error : option string;
  start_time : option Z;        (* timestamps in seconds *)
  end_time : option Z;
  duration_seconds : Z;
  active_nodes : gmap string node_instance;
  node_results : gmap string value;
  variables : gmap string value
}.

(** [ExecutionContext.__init__] *)
Definition new_context (wid eid : string) (wf : workflow_def) (trigger : value)
  : ExecutionContext :=
  MkExecutionContext wid eid wf trigger "created" None None None 0 ∅ ∅ ∅.

Definition with_variables (c : ExecutionContext) (vars : gmap string value)
  : ExecutionContext :=
  MkExecutionContext (workflow_id c) (execution_id c) (ctx_workflow_def c)
    (trigger_data c) (status c) (error c) (start_time c) (end_time c)
    (duration_seconds c) (active_nodes c) (node_results c) vars.

(** [self.variables[name] = value] *)
Definition set_variable (c : ExecutionContext) (name : string) (v : value)
  : ExecutionContext :=
  with_variables c (<[name := v]> (variables c)).

(** [self.variables.get(name, default)] *)
Definition get_variable (c : ExecutionContext) (name : string) (default_value : value)
  : value :=
  default default_value (variables c !! name).

(** [t.isoformat() if t else None]; the text of a timestamp is a function of
    the timestamp, its exact format plays no role here. *)
Definition isoformat_or_none (t : option Z) : value :=
  match t with
  | Some z => VStr (pretty z)
  | None => VNone
  end.

Definition str_or_none (s : option string) : value :=
  match s with
  | Some x => VStr x
  | None => VNone
  end.

(** [k.startswith("_")] *)
Definition is_private (k : string) : bool := String.prefix "_" k.

(** The dictionary comprehension of [to_dict]: keep [k] unless it starts with
    an underscore. *)
Definition public_variables (vars : gmap string value) : gmap string value :=
  filter (λ kv, is_private kv.1 = false) vars.

(** [ExecutionContext.to_dict] *)
Definition to_dict (c : ExecutionContext) : value :=
  VDict (list_to_map [
    ("workflow_id", VStr (workflow_id c));
    ("execution_id", VStr (execution_id c));
    ("status", VStr (status c));
    ("error", str_or_none (error c));
    ("start_time", isoformat_or_none (start_time c));
    ("end_time", isoformat_or_none (end_time c));
    ("duration_seconds", VInt (duration_seconds c));
    ("active_node_count", VInt (Z.of_nat (size (active_nodes c))));
    ("result_node_count", VInt (Z.of_nat (size (node_results c))));
    ("variables", VDict (public_variables (variables c)))
  ]).

(** Two variable stores that differ only on underscore-prefixed names. *)
Definition same_public_variables (vars1 vars2 : gmap string value) : Prop :=
  ∀ k, is_private k = false → vars1 !! k = vars2 !! k.

(** ** Retry with exponential backoff: [utils/retry_mechanism.py] *)













(** ** The workflow engine: [core/workflow_engine.py] *)

(** *** Required-node policy: [WorkflowEngine._is_node_required] *)

(** [nodes_def.get(node_id, {}).get("required", True)] *)
Definition required_flag (wf : workflow_def) (node_id : string) : bool :=
  match (list_to_map (nodes wf) : gmap string node_def) !! node_id with
  | Some node_def => default true (nd_required node_def)
  | None => true
  end.

(** Some declared output has [output_def.get("node") == node_id]. *)
Definition used_in_outputs (wf : workflow_def) (node_id : string) : bool :=
  existsb (λ o, bool_decide (out_node o.2 = Some node_id)) (outputs wf).

(** The loop [for edge in edges:] at the end of [_is_node_required]; [check]
    is the recursive call, [None] a recursion that hit its depth bound. *)
Fixpoint required_downstream (check : string → option bool) (node_id : string)
    (es : list edge) : option bool :=
  match es with
  | [] => Some false
  | e :: es' =>
      if decide (source e = node_id) then
        match check (target e) with
        | Some true => Some true
        | Some false => required_downstream check node_id es'
        | None => None
        end
      else required_downstream check node_id es'
  end.

(** The recursion follows the edges leaving [node_id]; [fuel] bounds its
    depth. *)
Fixpoint _is_node_required (fuel : nat) (wf : workflow_def) (node_id : string)
  : option bool :=
  match fuel with
  | O => None
  | S fuel' =>
      if required_flag wf node_id then Some true
      else if used_in_outputs wf node_id then Some true
      else required_downstream (_is_node_required fuel' wf) node_id (edges wf)
  end.

(** Depth budget that suffices on acyclic definitions: no path uses more
    edges than the definition has. *)
Definition required_fuel (wf : workflow_def) : nat := S (length (edges wf)).

(** A node that is a base case of the policy: flagged, or a declared output. *)
Definition required_directly (wf : workflow_def) (node_id : string) : Prop :=
  required_flag wf node_id = true ∨ used_in_outputs wf node_id = true.

(** The node counts as required in level execution. *)
Definition is_required (wf : workflow_def) (node_id : string) : Prop :=
  _is_node_required (required_fuel wf) wf node_id = Some true.


(** *** Input routing: [WorkflowEngine._prepare_node_input] *)

Definition route_edge (node_id : string) (results : gmap string value)
    (input_data : gmap string value) (e : edge) : gmap string value :=
  if decide (target e = node_id) then
    match results !! source e with
    | Some source_result =>
        let output_path := default "output" (source_output e) in
        if decide (output_path = "output") then
          <[source e := source_result]> input_data
        else
          <[default (source e) (target_input e)
              := extract_path output_path source_result]> input_data
    | None => input_data
    end
  else input_data.

Definition _prepare_node_input (node_id : string) (c : ExecutionContext) : value :=
  VDict (foldl (route_edge node_id (node_results c))
               {[ "trigger" := trigger_data c ]}
               (edges (ctx_workflow_def c))).

(** *** Output assembly: [WorkflowEngine._prepare_workflow_output] *)

Definition run_metadata (c : ExecutionContext) : value :=
  VDict (list_to_map [
    ("workflow_id", VStr (workflow_id c));
    ("execution_id", VStr (execution_id c));
    ("start_time", isoformat_or_none (start_time c));
    ("end_time", isoformat_or_none (end_time c));
    ("duration_seconds", VInt (duration_seconds c));
    ("status", VStr (status c))
  ]).

Definition assemble_output (results : gmap string value)
    (result : gmap string value) (o : string * output_def) : gmap string value :=
  match out_node o.2 with
  | Some node_id =>
      match results !! node_id with
      | Some node_result =>
          let output_path := default "output" (out_path o.2) in
          if decide (output_path = "output") then <[o.1 := node_result]> result
          else <[o.1 := extract_path output_path node_result]> result
      | None => result
      end
  | None => result
  end.

Definition _prepare_workflow_output (c : ExecutionContext) : value :=
  match outputs (ctx_workflow_def c) with
  | [] =>
      VDict (list_to_map [
        ("results", VDict (node_results c));
        ("metadata", run_metadata c)
      ])
  | outs =>
      VDict (<["__metadata__" := run_metadata c]>
               (foldl (assemble_output (node_results c)) ∅ outs))
  end.

(** *** Running a workflow *)

(** What [log_execution_event] receives. *)
Inductive event :=
  | WorkflowStart (eid : string)
  | WorkflowComplete (eid : string)
  | WorkflowFailed (eid : string) (msg : string)
  | NodeStart (eid : string) (node : string)
  | NodeComplete (eid : string) (node : string)
  | NodeFailed (eid : string) (node : string) (msg : string).

(** The run handlers mutate the context and emit events; they may raise, and
    the bounded recursions inside may exhaust their budget ([None]). *)
Definition run_state : Type := ExecutionContext * list event.

Definition M (A : Type) : Type := run_state → option (run_state * outcome A).

Global Instance M_ret : MRet M := λ A x st, Some (st, Return x).

Global Instance M_bind : MBind M := λ A B f m st,
  match m st with
  | Some (st', Return x) => f x st'
  | Some (st', Raise e) => Some (st', Raise e)
  | None => None
  end.

Definition raise {A} (e : exn) : M A := λ st, Some (st, Raise e).

Definition get_context : M ExecutionContext := λ st, Some (st, Return st.1).

Definition modify_context (f : ExecutionContext → ExecutionContext) : M unit :=
  λ st, Some ((f st.1, st.2), Return ()).

Definition log_execution_event (ev : event) : M unit :=
  λ st, Some ((st.1, st.2 ++ [ev]), Return ()).

(** A bounded computation: budget exhaustion carries over. *)
Definition bounded {A} (o : option A) : M A :=
  λ st, match o with Some x => Some (st, Return x) | None => None end.

Definition of_outcome {A} (o : outcome A) : M A := λ st, Some (st, o).

(** [try: m except Exception as e: handler(e)] *)
Definition try_except {A} (m : M A) (handler : exn → M A) : M A := λ st,
  match m st with
  | Some (st', Raise e) => handler e st'
  | r => r
  end.

Definition set_active_node (node_id : string) (inst : node_instance)
    (c : ExecutionContext) : ExecutionContext :=
  MkExecutionContext (workflow_id c) (execution_id c) (ctx_workflow_def c)
    (trigger_data c) (status c) (error c) (start_time c) (end_time c)
    (duration_seconds c) (<[node_id := inst]> (active_nodes c)) (node_results c)
    (variables c).

Definition set_node_results (results : gmap string value)
    (c : ExecutionContext) : ExecutionContext :=
  MkExecutionContext (workflow_id c) (execution_id c) (ctx_workflow_def c)
    (trigger_data c) (status c) (error c) (start_time c) (end_time c)
    (duration_seconds c) (active_nodes c) results (variables c).

Definition set_node_result (node_id : string) (v : value)
    (c : ExecutionContext) : ExecutionContext :=
  set_node_results (<[node_id := v]> (node_results c)) c.

Definition set_started (t : Z) (c : ExecutionContext) : ExecutionContext :=
  MkExecutionContext (workflow_id c) (execution_id c) (ctx_workflow_def c)
    (trigger_data c) "running" (error c) (Some t) (end_time c)
    (duration_seconds c) (active_nodes c) (node_results c) (variables c).

Definition set_finished (st : string) (err : option string) (t : Z)
    (c : ExecutionContext) : ExecutionContext :=
  MkExecutionContext (workflow_id c) (execution_id c) (ctx_workflow_def c)
    (trigger_data c) st err (start_time c) (Some t)
    (t - default 0 (start_time c))%Z (active_nodes c) (node_results c)
    (variables c).

(** The body of the loop of [_initialize_workflow_nodes] for one node. *)
Definition initialize_node (reg : NodeRegistry) (node : string * node_def) : M unit :=
  let node_id := node.1 in
  let node_def := node.2 in
  match nd_type node_def with
  | Some node_type =>
      if truthy node_type then
        created ← of_outcome (create_node reg node_type []
          (list_to_map [
             ("node_id", VStr node_id);
             ("name", VStr (default node_id (nd_name node_def)));
             ("description", VStr (default "" (nd_description node_def)))]));
        match created with
        | None => raise (WorkflowError ("Failed to create node of type " +:+ node_type))
        | Some inst =>
            try_except
              (configured ← of_outcome
                 (configure inst (default (VDict ∅) (nd_config node_def))
                                 (default (VDict ∅) (nd_credentials node_def)));
               modify_context (set_active_node node_id configured))
              (λ e, raise (WorkflowError
                 ("Failed to configure node " +:+ node_id +:+ ": " +:+ str_of_exn e)))
        end
      else raise (WorkflowError ("Node " +:+ node_id +:+ " is missing type definition"))
  | None => raise (WorkflowError ("Node " +:+ node_id +:+ " is missing type definition"))
  end.

Fixpoint for_each {A} (f : A → M unit) (l : list A) : M unit :=
  match l with
  | [] => mret ()
  | x :: l' => f x ≫= λ _, for_each f l'
  end.

Definition _initialize_workflow_nodes (reg : NodeRegistry) : M unit :=
  c ← get_context;
  for_each (initialize_node reg) (nodes (ctx_workflow_def c)).

(** [_execute_node]: events around [node.execute]; an exception is logged and
    re-raised. *)
Definition _execute_node (node_id : string) (inst : node_instance)
    (input_data : value) : M value :=
  c ← get_context;
  log_execution_event (NodeStart (execution_id c) node_id);;
  try_except
    (result ← of_outcome (execute inst input_data (execution_id c));
     log_execution_event (NodeComplete (execution_id c) node_id);;
     mret result)
    (λ e, log_execution_event (NodeFailed (execution_id c) node_id (str_of_exn e));;
          raise e).

(** The tasks of one level: a node missing from [active_nodes] is skipped;
    inputs are prepared before any node of the level runs. *)
Definition level_tasks (c : ExecutionContext) (node_ids : list string)
  : list (string * node_instance * value) :=
  omap (λ node_id,
          inst ← active_nodes c !! node_id;
          Some (node_id, inst, _prepare_node_input node_id c)) node_ids.

(** [asyncio.gather] with [return_exceptions=True]: every task runs, its
    exception becomes its result. *)
Fixpoint gather (tasks : list (string * node_instance * value)) : M (list (outcome value)) :=
  match tasks with
  | [] => mret []
  | (node_id, inst, input_data) :: tasks' =>
      result ← (λ st, match _execute_node node_id inst input_data st with
                      | Some (st', r) => Some (st', Return r)
                      | None => None
                      end);
      results ← gather tasks';
      mret (result :: results)
  end.

Definition failed_entry (e : exn) : value :=
  VDict (list_to_map [("error", VStr (str_of_exn e)); ("status", VStr "failed")]).

(** The loop over [enumerate(node_results)].  The [i]-th result is filed under
    [node_ids[i]]. *)
Fixpoint process_results (wf : workflow_def) (node_ids : list string)
    (results : list (outcome value)) : M unit :=
  match results with
  | [] => mret ()
  | result :: results' =>
      match node_ids with
      | [] => raise (PyException "IndexError" "list index out of range")
      | node_id :: node_ids' =>
          match result with
          | Raise e =>
              required ← bounded (_is_node_required (required_fuel wf) wf node_id);
              if (required : bool) then
                raise (WorkflowError
                  ("Required node " +:+ node_id +:+ " failed: " +:+ str_of_exn e))
              else
                modify_context (set_node_result node_id (failed_entry e));;
                process_results wf node_ids' results'
          | Return v =>
              modify_context (set_node_result node_id v);;
              process_results wf node_ids' results'
          end
      end
  end.

Definition execute_level (wf : workflow_def) (node_ids : list string) : M unit :=
  c ← get_context;
  match level_tasks c node_ids with
  | [] => mret ()
  | tasks =>
      results ← gather tasks;
      process_results wf node_ids results
  end.

Definition _execute_workflow_nodes : M value :=
  c ← get_context;
  execution_plan ← bounded (_build_execution_plan (ctx_workflow_def c)) ≫= of_outcome;
  modify_context (set_node_results ∅);;
  for_each (execute_level (ctx_workflow_def c)) execution_plan;;
  c' ← get_context;
  mret (_prepare_workflow_output c').

(** *** Engine bookkeeping *)

Inductive WorkflowStatus := REGISTERED | RUNNING | COMPLETED | FAILED | STOPPED.

(** [WorkflowStatus.value] *)
Definition status_value (s : WorkflowStatus) : string :=
  match s with
  | REGISTERED => "registered"
  | RUNNING => "running"
  | COMPLETED => "completed"
  | FAILED => "failed"
  | STOPPED => "stopped"
  end.

Record WorkflowEngine := MkWorkflowEngine {
  node_registry : NodeRegistry;
  workflows : gmap string workflow_def;
  workflow_status : gmap string WorkflowStatus;
  active_executions : gmap string ExecutionContext;
  max_concurrent_workflows : Z;
  semaphore_value : Z;            (* free permits of [execution_semaphore] *)
  scheduled_tasks : list string;  (* tasks created on the loop, by execution id *)
  retry_counts : gmap string Z;   (* the [retry_count] attribute set on contexts *)
  events : list event
}.

(** [WorkflowEngine.__init__] with [config["engine"]["max_concurrent_workflows"]]. *)
Definition new_engine (reg : NodeRegistry) (max_concurrent : option Z) : WorkflowEngine :=
  let n := default 10%Z max_concurrent in
  MkWorkflowEngine reg ∅ ∅ ∅ n n [] ∅ [].

(** [handle_workflow_error]: wraps what is not yet a [WorkflowError], counts a
    retry when the definition allows one, and always re-raises. *)
Definition wrap_workflow_error (e : exn) : exn :=
  match e with
  | WorkflowError _ => e
  | _ => WorkflowError (str_of_exn e)
  end.

Definition count_retry (wf : workflow_def) (eid : string)
    (counts : gmap string Z) : gmap string Z :=
  let current_retry := default 0%Z (counts !! eid) in
  if bool_decide (current_retry < default 0 (error_handling_max_retries wf))%Z
  then <[eid := (current_retry + 1)%Z]> counts
  else counts.

(** [get_workflow_status] *)
Definition get_workflow_status (eng : WorkflowEngine) (wid : string) : option string :=
  status_value <$> workflow_status eng !! wid.

(** The status dictionary of [get_execution_status]. *)
Definition execution_status_dict (c : ExecutionContext) : value :=
  VDict (list_to_map [
    ("execution_id", VStr (execution_id c));
    ("workflow_id", VStr (workflow_id c));
    ("workflow_name", VStr (default "Unnamed" (wf_name (ctx_workflow_def c))));
    ("status", VStr (status c));
    ("start_time", isoformat_or_none (start_time c));
    ("end_time", isoformat_or_none (end_time c));
    ("duration_seconds", VInt (duration_seconds c));
    ("nodes", VDict ((λ inst, VDict (list_to_map [
                          ("status", VStr (node_status inst));
                          ("start_time", isoformat_or_none (node_start_time inst));
                          ("end_time", isoformat_or_none (node_end_time inst));
                          ("duration", match execution_duration inst with
                                       | Some d => VInt d
                                       | None => VNone
                                       end)]))
                       <$> active_nodes c));
    ("error", str_or_none (error c))
  ]).

(** [get_execution_status]: [None] unless the execution is still listed in
    [active_executions]. *)
Definition get_execution_status (eng : WorkflowEngine) (eid : string) : option value :=
  execution_status_dict <$> active_executions eng !! eid.

(** The engine after a run: the status of the workflow is set, and the
    [finally] clause has popped the execution from [active_executions]. *)
Definition with_run_result (eng : WorkflowEngine)
    (new_status : WorkflowStatus) (wid eid : string)
    (counts : gmap string Z) (log : list event) : WorkflowEngine :=
  MkWorkflowEngine (node_registry eng) (workflows eng)
    (<[wid := new_status]> (workflow_status eng))
    (delete eid (active_executions eng))
    (max_concurrent_workflows eng) (semaphore_value eng)
    (scheduled_tasks eng) counts log.

(** [_execute_workflow_internal]: the [try] body, the [except Exception]
    handler and the [finally] clause (cancellation of the task is not part
    of this model).  [t_start] and [t_end] are the two
    readings of the clock; [workflow_id] and [execution_id] are read from the
    context once, at the start.  The result carries the engine afterwards,
    the context object as the run left it, and the outcome of the task. *)
Definition _execute_workflow_internal (eng : WorkflowEngine)
    (c : ExecutionContext) (t_start t_end : Z)
  : option (WorkflowEngine * ExecutionContext * outcome value) :=
  let body : M value :=
    modify_context (set_started t_start);;
    log_execution_event (WorkflowStart (execution_id c));;
    _initialize_workflow_nodes (node_registry eng);;
    _execute_workflow_nodes in
  match body (c, events eng) with
  | None => None
  | Some ((c1, log1), Return result) =>
      let c2 := set_finished "completed" (error c1) t_end c1 in
      Some (with_run_result eng COMPLETED (workflow_id c) (execution_id c)
              (retry_counts eng)
              (log1 ++ [WorkflowComplete (execution_id c)]),
            c2, Return result)
  | Some ((c1, log1), Raise e) =>
      let c2 := set_finished "failed" (Some (str_of_exn e)) t_end c1 in
      Some (with_run_result eng FAILED (workflow_id c) (execution_id c)
              (count_retry (ctx_workflow_def c) (execution_id c) (retry_counts eng))
              (log1 ++ [WorkflowFailed (execution_id c) (str_of_exn e)]),
            c2, Raise (wrap_workflow_error e))
  end.

(** The engine's own validation at registration: [_validate_workflow_def]. *)
Definition validate_node_for_engine (reg : NodeRegistry)
    (node : string * node_def) : outcome unit :=
  match nd_type node.2 with
  | Some node_type =>
      if truthy node_type then
        if has_node_type reg node_type then Return ()
        else Raise (WorkflowError ("Node type " +:+ node_type +:+ " for node "
                                   +:+ node.1 +:+ " is not registered"))
      else Raise (WorkflowError ("Node " +:+ node.1 +:+ " is missing type definition"))
  | None => Raise (WorkflowError ("Node " +:+ node.1 +:+ " is missing type definition"))
  end.

Definition validate_edge_for_engine (wf : workflow_def) (e : edge) : outcome unit :=
  if negb (truthy (source e)) || negb (truthy (target e)) then
    Raise (WorkflowError "Edge definition is missing source or target")
  else if bool_decide (source e ∉ node_ids wf) then
    Raise (WorkflowError ("Edge source node " +:+ source e +:+ " not found in workflow"))
  else if bool_decide (target e ∉ node_ids wf) then
    Raise (WorkflowError ("Edge target node " +:+ target e +:+ " not found in workflow"))
  else Return ().

Fixpoint check_all {A} (f : A → outcome unit) (l : list A) : outcome unit :=
  match l with
  | [] => Return ()
  | x :: l' => match f x with Return _ => check_all f l' | Raise e => Raise e end
  end.

Definition _validate_workflow_def (reg : NodeRegistry) (wf : workflow_def)
  : option (outcome unit) :=
  match nodes wf with
  | [] => Some (Raise (WorkflowError "Workflow must define at least one node"))
  | _ :: _ =>
      match check_all (validate_node_for_engine reg) (nodes wf) with
      | Raise e => Some (Raise e)
      | Return _ =>
          match check_all (validate_edge_for_engine wf) (edges wf) with
          | Raise e => Some (Raise e)
          | Return _ =>
              match _build_execution_plan wf with
              | None => None
              | Some (Return _) => Some (Return ())
              | Some (Raise (WorkflowError msg)) =>
                  (* the message of a stranded plan contains "Cyclic dependency" *)
                  Some (Raise (WorkflowError
                    ("Workflow definition contains a cycle: " +:+ msg)))
              | Some (Raise e) => Some (Raise e)
              end
          end
      end
  end.

Definition with_id (wf : workflow_def) (wid : string) : workflow_def :=
  WorkflowDef (Some wid) (wf_name wf) (nodes wf) (edges wf) (connections wf)
    (outputs wf) (error_handling_max_retries wf).

(** [register_workflow]; [fresh] stands for [str(uuid.uuid4())].  Any failure
    surfaces as a [WorkflowError]. *)
Definition register_workflow (eng : WorkflowEngine) (wf : workflow_def)
    (fresh : string) : option (outcome (WorkflowEngine * string)) :=
  match _validate_workflow_def (node_registry eng) wf with
  | None => None
  | Some (Raise e) =>
      Some (Raise (WorkflowError ("Failed to register workflow: " +:+ str_of_exn e)))
  | Some (Return _) =>
      let wid := default fresh (wf_id wf) in
      Some (Return
        (MkWorkflowEngine (node_registry eng)
           (<[wid := with_id wf wid]> (workflows eng))
           (<[wid := REGISTERED]> (workflow_status eng))
           (active_executions eng) (max_concurrent_workflows eng)
           (semaphore_value eng) (scheduled_tasks eng) (retry_counts eng)
           (events eng), wid))
  end.

(** What a call of [execute_workflow] comes to: it returns the execution id,
    raises, or waits on the semaphore. *)
Inductive launch :=
  | Launched (eng : WorkflowEngine) (eid : string)
  | LaunchRaised (e : exn)
  | WaitingForPermit (eng : WorkflowEngine).

(** The [async with self.execution_semaphore:] block of [execute_workflow]:
    a permit is taken, the task is created on the loop, and the permit is
    handed back when the block is left. *)
Definition launch_under_semaphore (eng : WorkflowEngine) (wid eid : string)
    (c : ExecutionContext) : launch :=
  let eng1 :=
    MkWorkflowEngine (node_registry eng) (workflows eng)
      (<[wid := RUNNING]> (workflow_status eng))
      (<[eid := c]> (active_executions eng))
      (max_concurrent_workflows eng) (semaphore_value eng)
      (scheduled_tasks eng) (retry_counts eng) (events eng) in
  if bool_decide (0 < semaphore_value eng1)%Z then
    let acquired := (semaphore_value eng1 - 1)%Z in
    let tasks := scheduled_tasks eng1 ++ [eid] in
    let released := (acquired + 1)%Z in
    Launched
      (MkWorkflowEngine (node_registry eng1) (workflows eng1)
         (workflow_status eng1) (active_executions eng1)
         (max_concurrent_workflows eng1) released tasks
         (retry_counts eng1) (events eng1)) eid
  else WaitingForPermit eng1.

(** [execute_workflow]; [fresh_wid] and [eid] stand for the two
    [uuid.uuid4()] draws. *)
Definition execute_workflow (eng : WorkflowEngine) (wf : workflow_def)
    (trigger : option value) (fresh_wid eid : string) : option launch :=
  let registered :=
    match wf_id wf with
    | Some wid =>
        if bool_decide (is_Some (workflows eng !! wid)) then Some (Return (eng, wid))
        else register_workflow eng wf fresh_wid
    | None => register_workflow eng wf fresh_wid
    end in
  match registered with
  | None => None
  | Some (Raise e) => Some (LaunchRaised e)
  | Some (Return (eng', wid)) =>
      let wf' := if bool_decide (is_Some (workflows eng !! wid)) then wf
                 else with_id wf wid in
      let c := new_context wid eid wf' (default (VDict ∅) trigger) in
      Some (launch_under_semaphore eng' wid eid c)
  end.

(** Executions whose task was created and which have not finished: they are
    listed in [active_executions] until the run's [finally] clause. *)
Definition running_executions (eng : WorkflowEngine) : nat :=
  size (active_executions eng).

(** *** Vocabulary for statements about runs *)

(** Nodes whose execution was started, in the order of the [node_start]
    events. *)
Definition started_nodes (log : list event) : list string :=
  omap (λ ev, match ev with NodeStart _ n => Some n | _ => None end) log.

(** Every node of the definition has an instance in [active_nodes], as
    [_initialize_workflow_nodes] leaves it. *)
Definition initialized (c : ExecutionContext) : Prop :=
  ∀ n, n ∈ node_ids (ctx_workflow_def c) → is_Some (active_nodes c !! n).

(** What is filed in [node_results] for a finished node. *)
Definition result_entry (r : outcome value) : value :=
  match r with
  | Return v => v
  | Raise e => failed_entry e
  end.

(** The events [_execute_node] emits for one execution with outcome [h.2] of
    node [h.1]: [node_start], then [node_complete] or [node_error]. *)
Definition node_events (eid : string) (h : string * outcome value) : list event :=
  [NodeStart eid h.1;
   match h.2 with
   | Return _ => NodeComplete eid h.1
   | Raise e => NodeFailed eid h.1 (str_of_exn e)
   end].

(** The events of a history of executions, oldest first. *)
Definition run_events (eid : string) (hist : list (string * outcome value))
  : list event :=
  concat (node_events eid <$> hist).

(** Every entry of the history is what the node's instance returned or raised
    on some input. *)
Definition history_of (c : ExecutionContext) (hist : list (string * outcome value))
  : Prop :=
  ∀ n r, (n, r) ∈ hist →
    ∃ inst input, active_nodes c !! n = Some inst
                  ∧ execute inst input (execution_id c) = r.

(** The entry of the history is filed in [results], and if it is a failure
    the node is not required. *)
Definition filed (wf : workflow_def) (results : gmap string value)
    (h : string * outcome value) : Prop :=
  results !! h.1 = Some (result_entry h.2)
  ∧ ∀ e, h.2 = Raise e → ¬ is_required wf h.1.

(** A required node raised, which ends the run with [err]. *)
Definition required_node_raised (wf : workflow_def)
    (hist : list (string * outcome value)) (n : string) (err : exn) : Prop :=
  ∃ e0, (n, Raise e0) ∈ hist ∧ is_required wf n
        ∧ err = WorkflowError ("Required node " +:+ n +:+ " failed: " +:+ str_of_exn e0).

(** The event that closes a run whose node phase ended with [o]. *)
Definition closing_event (eid : string) (o : outcome value) : event :=
  match o with
  | Return _ => WorkflowComplete eid
  | Raise e => WorkflowFailed eid (str_of_exn e)
  end.

(** What [_execute_workflow_internal] hands to its caller when the node phase
    ended with [o]: the result, or the exception as [handle_workflow_error]
    re-raises it. *)
Definition wrapped_outcome (o : outcome value) : outcome value :=
  match o with
  | Return v => Return v
  | Raise e => Raise (wrap_workflow_error e)
  end.

(** The status the run is left with. *)
Definition final_status (o : outcome value) : string :=
  match o with
  | Return _ => "completed"
  | Raise _ => "failed"
  end.

(** The executions of one level, in task order. *)
Definition level_history (c : ExecutionContext) (ids : list string)
    (insts : list node_instance) : list (string * outcome value) :=
  zip_with (λ n inst, (n, execute inst (_prepare_node_input n c) (execution_id c)))
           ids insts.

(** What the node phase did, by its outcome [o], the plan and the history:
    a phase that returns has executed every node, level by level, and filed
    every result; a phase that raises stopped in the level of a required node
    that raised, after the levels before it were filed. *)
Definition run_verdict (wf : workflow_def) (plan : list (list string))
    (hist : list (string * outcome value)) (results : gmap string value)
    (o : outcome value) : Prop :=
  match o with
  | Return _ =>
      hist.*1 = concat plan ∧ ∀ h, h ∈ hist → filed wf results h
  | Raise e =>
      ∃ finished_levels lvl rest n,
        plan = finished_levels ++ lvl :: rest
        ∧ hist.*1 = concat finished_levels ++ lvl
        ∧ (∀ h, h ∈ hist → h.1 ∈ concat finished_levels → filed wf results h)
        ∧ n ∈ lvl ∧ required_node_raised wf hist n e
  end.

(** The fields a run never touches. *)
Definition same_run (c c' : ExecutionContext) : Prop :=
  workflow_id c' = workflow_id c ∧ execution_id c' = execution_id c
  ∧ ctx_workflow_def c' = ctx_workflow_def c ∧ trigger_data c' = trigger_data c.

(** Polling as the specification words it: once the run has failed,
    [get_execution_status] answers with a dictionary whose [status] is
    ["failed"]. *)
Definition failure_observable_by_polling (eng : WorkflowEngine)
    (c : ExecutionContext) (t_start t_end : Z) : Prop :=
  ∀ eng' c' e,
    _execute_workflow_internal eng c t_start t_end = Some (eng', c', Raise e) →
    ∃ d, get_execution_status eng' (execution_id c) = Some (VDict d)
      ∧ d !! "status" = Some (VStr "failed").

(** ** Definition loading and validation: [core/workflow_components.py] *)

Record WorkflowDefinition := MkWorkflowDefinition {
  wd_name : string;
  wd_nodes : list (string * node_def);
  wd_connections : list connection
}.


(** ["." in s] *)
Fixpoint contains_dot (s : string) : bool :=
  match s with
  | EmptyString => false
  | String c rest => if Ascii.eqb c "." then true else contains_dot rest
  end.

(** [s.split(".", 1)[0]] *)
Fixpoint before_dot (s : string) : string :=
  match s with
  | EmptyString => ""
  | String c rest => if Ascii.eqb c "." then "" else String c (before_dot rest)
  end.


(** *** [WorkflowValidator._validate_nodes] *)




(** *** [WorkflowValidator._validate_connections] *)


(** Both specifications are given and truthy. *)
Definition connection_specs (conn : connection) : option (string * string) :=
  match conn_from conn, conn_to conn with
  | Some source_spec, Some target_spec =>
      if truthy source_spec && truthy target_spec
      then Some (source_spec, target_spec) else None
  | _, _ => None
  end.

Definition source_node_of (source_spec : string) : string :=
  if contains_dot source_spec then before_dot source_spec else source_spec.

Definition target_node_of (target_spec : string) : option string :=
  if contains_dot target_spec then Some (before_dot target_spec) else None.






(** *** [WorkflowValidator._check_for_cycles] *)

(** The edge a connection contributes to the graph, if any: the source is
    the text before the first dot of [from] (all of it without a dot), the
    target the text before the first dot of [to], which must contain one. *)
Definition connection_edge (conn : connection) : option (string * string) :=
  match connection_specs conn with
  | Some (source_spec, target_spec) =>
      match target_node_of target_spec with
      | Some target_node_id =>
          if truthy target_node_id
          then Some (source_node_of source_spec, target_node_id) else None
      | None => None
      end
  | None => None
  end.

(** [if source_node_id in graph and target_node_id:
       graph[source_node_id].append(target_node_id)] *)
Definition add_connection (graph : gmap string (list string)) (conn : connection)
  : gmap string (list string) :=
  match connection_edge conn with
  | Some (source_node_id, target_node_id) =>
      match graph !! source_node_id with
      | Some targets => <[source_node_id := targets ++ [target_node_id]]> graph
      | None => graph
      end
  | None => graph
  end.

Definition build_graph (w : WorkflowDefinition) : gmap string (list string) :=
  foldl add_connection
        (list_to_map ((λ node_id, (node_id, [])) <$> (wd_nodes w).*1))
        (wd_connections w).

Record dfs_state := DfsState {
  visited : gset string;
  recursion_stack : gset string;
  current_path : list string
}.

Definition render_cycle (cycle : list string) : string :=
  "Workflow contains a cycle: " +:+ join " -> " cycle.

(** The [try] block that renders the cycle; [current_path.index(v)] is the
    first position of [v]. *)
Definition cycle_error (path : list string) (v : string) : exn :=
  match list_find (λ x, x = v) path with
  | Some (cycle_start_index, _) =>
      WorkflowCycleError (render_cycle (drop cycle_start_index path ++ [v]))
  | None =>
      WorkflowCycleError ("Workflow contains a cycle involving " +:+ v
                          +:+ " (path reconstruction error)")
  end.

Definition enter (u : string) (st : dfs_state) : dfs_state :=
  DfsState ({[u]} ∪ visited st) ({[u]} ∪ recursion_stack st) (current_path st ++ [u]).

Definition leave (u : string) (st : dfs_state) : dfs_state :=
  DfsState (visited st) (recursion_stack st ∖ {[u]}) (removelast (current_path st)).

(** The loop [for v in graph.get(u, []):] inside [_dfs_cycle_check_recursive],
    followed by the two [pop]s; [visit] is the recursive call. *)
Fixpoint visit_neighbours
    (visit : string → dfs_state → option (outcome (bool * dfs_state)))
    (u : string) (vs : list string) (st : dfs_state)
  : option (outcome (bool * dfs_state)) :=
  match vs with
  | [] => Some (Return (false, leave u st))
  | v :: vs' =>
      if decide (v ∉ visited st) then
        match visit v st with
        | Some (Return (true, st')) => Some (Return (true, st'))
        | Some (Return (false, st')) => visit_neighbours visit u vs' st'
        | Some (Raise e) => Some (Raise e)
        | None => None
        end
      else if decide (v ∈ recursion_stack st) then
        Some (Raise (cycle_error (current_path st) v))
      else visit_neighbours visit u vs' st
  end.

(** [_dfs_cycle_check_recursive]; the three containers are shared by all
    recursive calls.  [fuel] bounds the recursion depth. *)
Fixpoint _dfs_cycle_check_recursive (fuel : nat) (graph : gmap string (list string))
    (u : string) (st : dfs_state) : option (outcome (bool * dfs_state)) :=
  match fuel with
  | O => None
  | S fuel' =>
      visit_neighbours (_dfs_cycle_check_recursive fuel' graph) u
        (default [] (graph !! u)) (enter u st)
  end.

(** All node ids the search can meet. *)
Definition graph_nodes (graph : gmap string (list string)) : gset string :=
  dom graph ∪ list_to_set (concat (map_to_list graph).*2).

Definition dfs_fuel (graph : gmap string (list string)) : nat :=
  S (size (graph_nodes graph)).

(** The loop [for node_id in nodes:] of [_check_for_cycles]; every start
    passes a fresh [current_path]. *)
Fixpoint check_from (fuel : nat) (graph : gmap string (list string))
    (ids : list string) (seen stack : gset string) : option (outcome unit) :=
  match ids with
  | [] => Some (Return ())
  | node_id :: ids' =>
      if decide (node_id ∉ seen) then
        match _dfs_cycle_check_recursive fuel graph node_id (DfsState seen stack []) with
        | Some (Return (_, st')) =>
            check_from fuel graph ids' (visited st') (recursion_stack st')
        | Some (Raise e) => Some (Raise e)
        | None => None
        end
      else check_from fuel graph ids' seen stack
  end.

Definition _check_for_cycles (w : WorkflowDefinition) : option (outcome unit) :=
  let graph := build_graph w in
  check_from (dfs_fuel graph) graph (wd_nodes w).*1 ∅ ∅.

(** *** [WorkflowValidator.validate_workflow] *)


(** *** Vocabulary for statements about cycles *)

(** The edge relation the validator reads off the connections. *)
Definition conn_rel (w : WorkflowDefinition) (u v : string) : Prop :=
  u ∈ (wd_nodes w).*1 ∧ ∃ conn, conn ∈ wd_connections w ∧ connection_edge conn = Some (u, v).

(** Consecutive entries of the list are related. *)
Definition chain (R : relation string) (l : list string) : Prop :=
  ∀ i a b, l !! i = Some a → l !! S i = Some b → R a b.

(** A closed walk [v -> ... -> v]. *)
Definition is_cycle_path (R : relation string) (cycle : list string) : Prop :=
  (∃ v mid, cycle = v :: mid ++ [v]) ∧ chain R cycle.

(** *** Invariants of the depth-first search *)

(** [v] is a successor of [u] in the graph. *)
Definition graph_edge (graph : gmap string (list string)) (u v : string) : Prop :=
  v ∈ default [] (graph !! u).

(** Nodes whose visit has returned. *)
Definition finished (st : dfs_state) : gset string :=
  visited st ∖ recursion_stack st.

Record dfs_inv (graph : gmap string (list string)) (st : dfs_state) : Prop := {
  inv_stack : recursion_stack st = list_to_set (current_path st);
  inv_nodup : NoDup (current_path st);
  inv_visited : recursion_stack st ⊆ visited st;
  inv_chain : chain (graph_edge graph) (current_path st);
  inv_closed : ∀ b v, b ∈ finished st → graph_edge graph b v → v ∈ finished st;
  inv_acyclic : ∀ b, b ∈ finished st → ¬ tc (graph_edge graph) b b;
  inv_universe : visited st ⊆ graph_nodes graph
}.

(** What a call that starts with state [st] may come to: it returns [False]
    with the path and the stack restored, or raises a rendered cycle. *)
Definition visit_post (graph : gmap string (list string)) (st : dfs_state)
    (r : option (outcome (bool * dfs_state))) : Prop :=
  match r with
  | Some (Return (b, st')) =>
      b = false ∧ dfs_inv graph st'
      ∧ current_path st' = current_path st
      ∧ recursion_stack st' = recursion_stack st
      ∧ visited st ⊆ visited st'
  | Some (Raise e) =>
      ∃ cycle, e = WorkflowCycleError (render_cycle cycle)
        ∧ is_cycle_path (graph_edge graph) cycle
  | None => False
  end.




(** The definition [a -> b -> a] in the engine's dialect. *)
Definition two_cycle : workflow_def :=
  WorkflowDef None (Some "loop") [("a", mk_node); ("b", mk_node)]
    [mk_edge "a" "b"; mk_edge "b" "a"] [] [] None.


(** ** Sample registry, definitions and engines *)

(** A node that has been configured; configuring it twice is an error. *)
Definition configured_instance (run : value → string → outcome value) : node_instance :=
  NodeInstance "ready" None None None
    (λ _ _, Raise (PyException "RuntimeError" "already configured"))
    run (Some (Return (ValidBool true))).

Definition fresh_instance (run : value → string → outcome value) : node_instance :=
  NodeInstance "pending" None None None
    (λ _ _, Return (configured_instance run))
    run (Some (Return (ValidBool true))).

(** A node that echoes its input. *)
Definition logger_run (input : value) (eid : string) : outcome value :=
  Return (VDict {[ "status" := VStr "success"; "data" := input ]}).

(** A node whose [execute] raises. *)
Definition flaky_run (input : value) (eid : string) : outcome value :=
  Raise (PyException "RuntimeError" "boom").

Definition sample_registry : NodeRegistry :=
  register_node_type
    (register_node_type (MkNodeRegistry ∅) "Logger"
       (NodeClass (λ _ _, Return (fresh_instance logger_run))))
    "Flaky" (NodeClass (λ _ _, Return (fresh_instance flaky_run))).

Definition node_of (type_name : string) (required : option bool) : node_def :=
  NodeDef (Some type_name) None None None None required.

(** [A -> B] where the required node [B] raises. *)
Definition failing_wf : workflow_def :=
  WorkflowDef (Some "wf-fail") (Some "failing")
    [("A", node_of "Logger" None); ("B", node_of "Flaky" None)]
    [mk_edge "A" "B"] [] [] None.

(** [B -> A -> C] where [A] raises but neither [A] nor [C] is required. *)
Definition tolerant_wf : workflow_def :=
  WorkflowDef (Some "wf-tolerant") (Some "tolerant")
    [("B", node_of "Logger" None); ("A", node_of "Flaky" (Some false));
     ("C", node_of "Logger" (Some false))]
    [mk_edge "B" "A"; mk_edge "A" "C"] [] [] None.

Definition sample_engine (max_concurrent : Z) : WorkflowEngine :=
  new_engine sample_registry (Some max_concurrent).

Definition failing_context : ExecutionContext :=
  new_context "wf-fail" "exec-1" failing_wf (VDict ∅).

Definition tolerant_context : ExecutionContext :=
  new_context "wf-tolerant" "exec-2" tolerant_wf (VDict ∅).

(** The engine with the failing run listed as active, as [execute_workflow]
    leaves it. *)
Definition engine_with_failing_run : WorkflowEngine :=
  match execute_workflow (sample_engine 10) failing_wf None "w" "exec-1" with
  | Some (Launched eng _) => eng
  | _ => sample_engine 10
  end.

(** The context after [_initialize_workflow_nodes], or the context itself if
    initialization does not return. *)
Definition initialized_context (eng : WorkflowEngine) (c : ExecutionContext)
    (t_start : Z) : ExecutionContext :=
  match _initialize_workflow_nodes (node_registry eng)
          (set_started t_start c, events eng ++ [WorkflowStart (execution_id c)]) with
  | Some ((c1, _), _) => c1
  | None => c
  end.

(** A registry without any type. *)
Definition empty_registry : NodeRegistry := MkNodeRegistry ∅.

(** A single-node workflow used to launch two runs back to back. *)
Definition single_node_wf : workflow_def :=
  WorkflowDef (Some "wf-one") (Some "single") [("A", node_of "Logger" None)]
    [] [] [] None.




(** The rank given by a table, [0] elsewhere. *)
Definition rank_table (table : list (string * nat)) (n : string) : nat :=
  default 0 ((list_to_map table : gmap string nat) !! n).



(** ** Further vocabulary for the planner *)

(** A dependency the planner records: an edge both of whose endpoints are
    truthy. *)
Definition recorded_edge (wf : workflow_def) (s t : string) : Prop :=
  ∃ e, e ∈ edges wf ∧ source e = s ∧ target e = t ∧ s ≠ "" ∧ t ≠ "".

(** Every node sits in the earliest level its recorded dependencies allow:
    no level is empty, the first level holds the nodes nothing is recorded
    for, and a node of a later level waits for a node of the level just
    before. *)
Definition plan_earliest (wf : workflow_def) (plan : list (list string)) : Prop :=
  (∀ l, l ∈ plan → l ≠ [])
  ∧ (∀ n, in_level plan n 0 ↔ n ∈ node_ids wf ∧ ∀ s, ¬ recorded_edge wf s n)
  ∧ (∀ n i, in_level plan n (S i) →
       ∃ p, recorded_edge wf p n ∧ in_level plan p i).

(** The levels picked so far are the earliest ones, in terms of the recorded
    predecessor sets. *)
Definition levels_earliest (wf : workflow_def) (acc : list (list string)) : Prop :=
  (∀ l, l ∈ acc → l ≠ [])
  ∧ (∀ n, in_level acc n 0 → n ∈ node_ids wf ∧ preds (edges wf) n = ∅)
  ∧ (acc ≠ [] →
     ∀ n, n ∈ node_ids wf → preds (edges wf) n = ∅ → in_level acc n 0)
  ∧ (∀ n i, in_level acc n (S i) →
       ∃ p, p ∈ preds (edges wf) n ∧ in_level acc p i).

(** The loop invariant behind [plan_earliest]: a node that is still waiting
    was not ready when the last level was picked. *)
Definition plan_waiting (wf : workflow_def) (rem : gset string)
    (acc : list (list string)) : Prop :=
  (acc = [] → rem = list_to_set (node_ids wf))
  ∧ (∀ acc' l, acc = acc' ++ [l] →
       ∀ n, n ∈ rem → ∃ p, p ∈ preds (edges wf) n ∧ p ∉ concat acc').

(** What [_build_execution_plan] comes to, for any definition.  A plan lists
    every node once and orders every recorded dependency, which therefore
    has no cycle.  [KeyError] names the undeclared target of a recorded
    edge.  The cyclic-dependency error lists the nodes left over, each of
    which waits for a node left over or for an undeclared source. *)
Definition planner_verdict (wf : workflow_def)
    (o : outcome (list (list string))) : Prop :=
  match o with
  | Return plan =>
      NoDup (concat plan)
      ∧ (∀ n, n ∈ concat plan ↔ n ∈ node_ids wf)
      ∧ (∀ s t, recorded_edge wf s t →
           ∃ i j, in_level plan s i ∧ in_level plan t j ∧ i < j)
      ∧ (∀ n, ¬ tc (recorded_edge wf) n n)
  | Raise (KeyError t) =>
      t ∉ node_ids wf ∧ ∃ s, recorded_edge wf s t
  | Raise (WorkflowError msg) =>
      ∃ stranded : gset string,
        msg = cyclic_dependency_message stranded
        ∧ stranded ≠ ∅
        ∧ (∀ n, n ∈ stranded →
             n ∈ node_ids wf
             ∧ ∃ p, recorded_edge wf p n ∧ (p ∈ stranded ∨ p ∉ node_ids wf))
  | Raise _ => False
  end.

(** ** What the engine accepts at registration *)

(** The node names a non-empty type the registry knows. *)
Definition node_type_registered (reg : NodeRegistry) (node : string * node_def)
  : Prop :=
  ∃ node_type, nd_type node.2 = Some node_type ∧ node_type ≠ ""
               ∧ has_node_type reg node_type = true.

(** At least one node, every node of a registered type, every edge between
    two declared nodes with non-empty ids, and no cycle of edges. *)
Definition engine_valid (reg : NodeRegistry) (wf : workflow_def) : Prop :=
  nodes wf ≠ []
  ∧ (∀ node, node ∈ nodes wf → node_type_registered reg node)
  ∧ edges_nonempty wf ∧ edges_in_nodes wf ∧ acyclic wf.

(** ** Vocabulary for the data flow of a run *)



(** ** Vocabulary for input routing *)

(** The key an edge writes in the input of its target, and the value it
    writes there when the result of its source is [r].  With the default
    [source_output] the key is the source id, whatever [target_input]
    says. *)
Definition edge_key (e : edge) : string :=
  if decide (default "output" (source_output e) = "output") then source e
  else default (source e) (target_input e).

Definition edge_value (e : edge) (r : value) : value :=
  if decide (default "output" (source_output e) = "output") then r
  else extract_path (default "output" (source_output e)) r.

(** The edge enters [n], its source has a result, and it writes key [k]. *)
Definition routes_to (n : string) (results : gmap string value) (k : string)
    (e : edge) : Prop :=
  target e = n ∧ is_Some (results !! source e) ∧ edge_key e = k.

(** ** Vocabulary for output assembly *)

(** What a declared output evaluates to: nothing when it names no node or a
    node without a result, the whole result for the path ["output"] (the
    default), and otherwise the value extracted along the path. *)
Definition output_value (results : gmap string value) (od : output_def)
  : option value :=
  node_id ← out_node od;
  node_result ← results !! node_id;
  Some (if decide (default "output" (out_path od) = "output") then node_result
        else extract_path (default "output" (out_path od)) node_result).

(** The context as [_prepare_workflow_output] sees it at the end of the node
    phase of a run started at [t_start] from [c], when the results are those
    of [c']: the status is still ["running"] and the end of the run is not
    recorded yet. *)
Definition context_at_output (t_start : Z) (c c' : ExecutionContext)
  : ExecutionContext :=
  set_node_results (node_results c') (set_started t_start c).

(** The metadata entry of a workflow output. *)
Definition output_metadata (out : value) : option value :=
  match out with
  | VDict m =>
      match m !! "__metadata__" with
      | Some meta => Some meta
      | None => m !! "metadata"
      end
  | _ => None
  end.

(** A definition with two declared outputs, one of them on a node that is
    not part of it. *)
Definition wf_with_outputs : workflow_def :=
  WorkflowDef (Some "wf-out") (Some "outputs")
    [("A", node_of "Logger" None)] [] []
    [("whole", OutputDef (Some "A") None);
     ("status", OutputDef (Some "A") (Some "status"));
     ("ghost", OutputDef (Some "Z") None)] None.

(** A context of [wf_with_outputs] in which node [A] has filed a result. *)
Definition context_with_result : ExecutionContext :=
  set_node_results
    {[ "A" := VDict {[ "status" := VStr "success"; "data" := VInt 7 ]} ]}
    (new_context "wf-out" "exec-3" wf_with_outputs (VDict ∅)).

(** ** Vocabulary for node initialization *)

(** The keyword arguments [_initialize_workflow_nodes] passes to
    [create_node] for a node of the definition. *)
Definition node_kwargs (node : string * node_def) : gmap string value :=
  list_to_map [
    ("node_id", VStr node.1);
    ("name", VStr (default node.1 (nd_name node.2)));
    ("description", VStr (default "" (nd_description node.2)))].

(** How the initialization of a node whose type is registered can fail: the
    constructor raises [e], or [configure] raises and [e] is the
    [WorkflowError] that wraps its exception. *)
Definition initialization_failure (reg : NodeRegistry)
    (node : string * node_def) (e : exn) : Prop :=
  ∃ node_type cls,
    nd_type node.2 = Some node_type
    ∧ node_types reg !! node_type = Some cls
    ∧ (construct cls [] (node_kwargs node) = Raise e
       ∨ ∃ inst e0,
           construct cls [] (node_kwargs node) = Return inst
           ∧ configure inst (default (VDict ∅) (nd_config node.2))
                            (default (VDict ∅) (nd_credentials node.2))
             = Raise e0
           ∧ e = WorkflowError ("Failed to configure node " +:+ node.1 +:+ ": "
                                +:+ str_of_exn e0)).

(** A loop [a -> b -> a] between two nodes that are not required. *)
Definition optional_loop : workflow_def :=
  WorkflowDef (Some "wf-loop") (Some "optional loop")
    [("a", node_of "Logger" (Some false)); ("b", node_of "Logger" (Some false))]
    [mk_edge "a" "b"; mk_edge "b" "a"] [] [] None.

(** ** What the validator accepts *)





(** ** Vocabulary for the retry wrapper *)





(** ** Reading dictionaries *)

(** [d.get(k)] on a value that is a dictionary. *)
Definition dict_get (v : value) (k : string) : option value :=
  match v with
  | VDict m => m !! k
  | _ => None
  end.

(** ** The loader: [WorkflowLoader] in [core/workflow_components.py] *)




(** The diamond with its edges in another order, one of them twice, and an
    edge without a source. *)
Definition diamond_shuffled : workflow_def :=
  mk_wf ["A"; "B"; "C"; "D"]
        [mk_edge "C" "D"; mk_edge "A" "C"; mk_edge "" "A"; mk_edge "B" "D";
         mk_edge "A" "B"; mk_edge "A" "C"].
(** ** Proofs about the planner *)

Section planner_proofs.

Implicit Types (n : string) (S V rem : gset string) (wf : workflow_def).

Lemma elem_of_preds es n (s : string) :
  s ∈ preds es n ↔
  ∃ e, e ∈ es ∧ truthy (source e) && truthy (target e) = true
       ∧ source e = s ∧ target e = n.
Proof.
  unfold preds. rewrite elem_of_list_to_set, list_elem_of_fmap. split.
  - intros (e & -> & [[? ?] ?]%list_elem_of_filter). eauto 6.
  - intros (e & ? & ? & <- & ?). exists e. split; [done|].
    apply list_elem_of_filter. auto.
Qed.

Lemma truthy_true (s : string) : truthy s = true ↔ s ≠ "".
Proof.
  unfold truthy. rewrite negb_true_iff. split.
  - intros H ->. by rewrite String.eqb_refl in H.
  - intros H. by apply String.eqb_neq.
Qed.

Lemma preds_cons e es n :
  preds (e :: es) n =
  (if decide (truthy (source e) && truthy (target e) = true ∧ target e = n)
   then {[source e]} else ∅) ∪ preds es n.
Proof.
  unfold preds. rewrite filter_cons. case_decide; [|set_solver].
  by rewrite fmap_cons, list_to_set_cons.
Qed.

Lemma add_dependencies_spec es (deps : gmap string (gset string)) :
  (∀ e, e ∈ es → truthy (source e) && truthy (target e) = true →
        target e ∈ dom deps) →
  ∃ deps', add_dependencies es deps = Return deps'
    ∧ ∀ n, deps' !! n = (λ s0, preds es n ∪ s0) <$> deps !! n.
Proof.
  revert deps. induction es as [|e es IH]; intros deps Hdom; simpl.
  - exists deps. split; [done|]. intros n.
    destruct (deps !! n) as [s0|]; simpl; [|done]. f_equal. set_solver.
  - destruct (truthy (source e) && truthy (target e)) eqn:Htr.
    + assert (Hin : target e ∈ dom deps) by (apply Hdom; [left|done]).
      apply elem_of_dom in Hin as [s0 Hs0]. rewrite Hs0.
      destruct (IH (<[target e:={[source e]} ∪ s0]> deps)) as (deps' & -> & Hl).
      { intros e' ? ?. rewrite dom_insert. apply elem_of_union_r, Hdom; [by right|done]. }
      exists deps'. split; [done|]. intros n. rewrite Hl, preds_cons.
      destruct (decide (target e = n)) as [<-|Hne].
      * rewrite lookup_insert_eq, Hs0. simpl. f_equal.
        rewrite decide_True by done. set_solver.
      * rewrite lookup_insert_ne by done.
        rewrite decide_False by (intros [_ ?]; done).
        destruct (deps !! n); simpl; [|done]. f_equal. set_solver.
    + destruct (IH deps) as (deps' & -> & Hl).
      { intros e' ? ?. apply Hdom; [by right|done]. }
      exists deps'. split; [done|]. intros n. rewrite Hl, preds_cons.
      rewrite decide_False by (intros [? _]; congruence).
      destruct (deps !! n); simpl; [|done]. f_equal. set_solver.
Qed.

Lemma lookup_init_dependencies wf n :
  init_dependencies wf !! n = if decide (n ∈ node_ids wf) then Some ∅ else None.
Proof.
  unfold init_dependencies. induction (node_ids wf) as [|m l IH]; csimpl.
  - by rewrite lookup_empty.
  - destruct (decide (m = n)) as [->|Hne].
    + rewrite lookup_insert_eq. by rewrite decide_True by set_solver.
    + rewrite lookup_insert_ne by done. rewrite IH.
      repeat case_decide; set_solver.
Qed.

Lemma dom_init_dependencies wf :
  dom (init_dependencies wf) = list_to_set (node_ids wf).
Proof.
  apply set_eq. intros n. rewrite elem_of_dom, lookup_init_dependencies.
  rewrite elem_of_list_to_set. case_decide; split; try done.
Qed.

Lemma elem_of_discard_all level s x :
  x ∈ discard_all level s ↔ x ∈ s ∧ x ∉ level.
Proof.
  unfold discard_all. revert s. induction level as [|y l IH]; intros s; simpl.
  - set_solver.
  - rewrite IH. set_solver.
Qed.

Lemma discard_all_difference level s :
  discard_all level s = s ∖ list_to_set level.
Proof. apply set_eq. intros x. rewrite elem_of_discard_all. set_solver. Qed.

Lemma lookup_foldr_alter {A} (f : A → A) (l : list string) (m : gmap string A) k :
  NoDup l →
  foldr (λ i d, alter f i d) m l !! k =
  if decide (k ∈ l) then f <$> m !! k else m !! k.
Proof.
  induction 1 as [|i l Hi Hnd IH]; csimpl.
  - destruct (decide (k ∈ [])); [set_solver|done].
  - destruct (decide (i = k)) as [->|Hne].
    + rewrite lookup_alter_eq, IH.
      rewrite decide_False by done. by rewrite decide_True by set_solver.
    + rewrite lookup_alter_ne by done. rewrite IH.
      repeat case_decide; set_solver.
Qed.

Lemma lookup_remove_executed level rem (deps : gmap string (gset string)) n :
  remove_executed level rem deps !! n =
  if decide (n ∈ rem) then (λ s0, s0 ∖ list_to_set level) <$> deps !! n
  else deps !! n.
Proof.
  unfold remove_executed. rewrite lookup_foldr_alter by apply NoDup_elements.
  repeat case_decide; try set_solver.
  destruct (deps !! n); simpl; [|done]. by rewrite discard_all_difference.
Qed.

Lemma elem_of_find_level (deps : gmap string (gset string)) rem n :
  n ∈ find_level deps rem ↔ n ∈ rem ∧ deps !!! n = (∅ : gset string).
Proof. unfold find_level. rewrite list_elem_of_filter, elem_of_elements. tauto. Qed.

Lemma NoDup_find_level (deps : gmap string (gset string)) rem :
  NoDup (find_level deps rem).
Proof. apply NoDup_filter, NoDup_elements. Qed.

(** In a finite set that carries no cycle some element has no predecessor
    inside the set.  The proof walks backwards from any element; the walk
    cannot revisit a node, so it stops within [size S] steps. *)
Lemma backward_walk (P : string → gset string) S :
  (∀ n, ¬ tc (λ s t, s ∈ P t) n n) →
  ∀ k V x, V ⊆ S → x ∈ S → x ∉ V →
    (∀ v, v ∈ V → tc (λ s t, s ∈ P t) x v) →
    size S ≤ size V + k →
    ∃ m, m ∈ S ∧ P m ∩ S = ∅.
Proof.
  intros Hacyc k. induction k as [|k IH]; intros V x HV Hx HxV Hreach Hsize.
  - exfalso.
    assert (size ({[x]} ∪ V) ≤ size S) by (apply subseteq_size; set_solver).
    rewrite size_union, size_singleton in H by set_solver. lia.
  - destruct (decide (P x ∩ S = ∅)) as [He|Hne]; [by eauto|].
    apply set_choose_L in Hne as [y Hy].
    apply elem_of_intersection in Hy as [HyP HyS].
    assert (y ≠ x) by (intros ->; eapply Hacyc; by apply tc_once).
    assert (y ∉ V).
    { intros HyV. apply (Hacyc x). eapply tc_r; [by apply Hreach|done]. }
    apply (IH ({[x]} ∪ V) y); [set_solver|done|set_solver| |].
    + intros v [->%elem_of_singleton|Hv]%elem_of_union.
      * by apply tc_once.
      * eapply tc_l; [done|]. by apply Hreach.
    + rewrite size_union, size_singleton by set_solver. lia.
Qed.

Lemma exists_minimal (P : string → gset string) S :
  (∀ n, ¬ tc (λ s t, s ∈ P t) n n) → S ≠ ∅ →
  ∃ m, m ∈ S ∧ P m ∩ S = ∅.
Proof.
  intros Hacyc [x Hx]%set_choose_L.
  apply (backward_walk P S Hacyc (size S) ∅ x); [set_solver|done|set_solver|set_solver|].
  rewrite size_empty. lia.
Qed.

Lemma size_nonempty (X : gset string) : X ≠ ∅ → size X ≠ 0.
Proof. intros HX Hs. apply HX, leibniz_equiv. by apply size_empty_iff. Qed.

Lemma plan_loop_unfold fuel (deps : gmap string (gset string)) rem acc :
  plan_loop fuel deps rem acc =
  if decide (rem = ∅) then Some (Return acc)
  else match fuel with
       | O => None
       | S fuel' =>
           match find_level deps rem with
           | [] => Some (Raise (WorkflowError
                     (cyclic_dependency_message (rem ∖ list_to_set (find_level deps rem)))))
           | _ :: _ =>
               plan_loop fuel'
                 (remove_executed (find_level deps rem)
                    (rem ∖ list_to_set (find_level deps rem)) deps)
                 (rem ∖ list_to_set (find_level deps rem))
                 (acc ++ [find_level deps rem])
           end
       end.
Proof. by destruct fuel. Qed.

Lemma elem_of_concat_in_level (plan : list (list string)) n :
  n ∈ concat plan ↔ ∃ i, in_level plan n i.
Proof.
  unfold in_level. induction plan as [|l plan IH]; simpl.
  - split; [by intros ?%elem_of_nil|by intros (? & ? & ? & ?)].
  - rewrite elem_of_app, IH. split.
    + intros [?|(i & l' & ? & ?)]; [by exists 0, l|by exists (S i), l'].
    + intros ([|i] & l' & Hl & ?); simplify_eq/=; eauto.
Qed.

Lemma in_level_app_l plan l n i : in_level plan n i → in_level (plan ++ [l]) n i.
Proof.
  intros (l' & Hl & ?). exists l'. split; [|done].
  by apply lookup_app_l_Some.
Qed.

Lemma in_level_lt plan n i : in_level plan n i → i < length plan.
Proof. intros (l' & Hl & ?). by eapply lookup_lt_Some. Qed.

Lemma in_level_app_r plan l n : n ∈ l → in_level (plan ++ [l]) n (length plan).
Proof.
  intros ?. exists l. split; [|done].
  rewrite lookup_app_r by lia. by rewrite Nat.sub_diag.
Qed.

Section plan_loop_proofs.

Context (wf : workflow_def).
Local Abbreviation N := (list_to_set (node_ids wf) : gset string).
Local Abbreviation P := (preds (edges wf)).
Local Abbreviation plan_inv := (plan_inv wf).
Local Abbreviation plan_ordered := (plan_ordered wf).

Lemma plan_inv_step deps rem acc :
  plan_inv deps rem acc →
  plan_inv (remove_executed (find_level deps rem)
              (rem ∖ list_to_set (find_level deps rem)) deps)
           (rem ∖ list_to_set (find_level deps rem))
           (acc ++ [find_level deps rem]).
Proof.
  intros (Hsub & Hdeps & Hnd & Hmem).
  set (L := find_level deps rem).
  assert (HL : ∀ x, x ∈ L → x ∈ rem) by (intros x [? _]%elem_of_find_level; done).
  split_and!.
  - set_solver.
  - intros n Hn. rewrite lookup_remove_executed, decide_True by done.
    rewrite Hdeps by set_solver. simpl. f_equal.
    apply set_eq. intros x. rewrite !elem_of_difference, !elem_of_list_to_set.
    destruct (decide (x ∈ L)) as [HxL|HxL].
    + specialize (HL x HxL). specialize (Hsub x HL).
      apply elem_of_list_to_set in Hsub. tauto.
    + tauto.
  - rewrite concat_app. apply NoDup_app. split_and!; [done| |].
    + intros x Hx. simpl. rewrite app_nil_r. intros Hx'%HL.
      apply Hmem in Hx. tauto.
    + simpl. rewrite app_nil_r. apply NoDup_find_level.
  - intros n. rewrite concat_app, elem_of_app, Hmem. simpl. rewrite app_nil_r.
    rewrite elem_of_difference, !elem_of_list_to_set.
    destruct (decide (n ∈ L)) as [HnL|HnL].
    + specialize (HL n HnL). specialize (Hsub n HL).
      apply elem_of_list_to_set in Hsub. tauto.
    + tauto.
Qed.

Lemma plan_ordered_step deps rem acc :
  (∀ n, P n ⊆ N) →
  plan_inv deps rem acc → plan_ordered acc →
  plan_ordered (acc ++ [find_level deps rem]).
Proof.
  intros HPN (Hsub & Hdeps & Hnd & Hmem) Hord s t Hst.
  rewrite concat_app, elem_of_app. simpl. rewrite app_nil_r. intros [Ht|Ht].
  - destruct (Hord s t Hst Ht) as (i & j & ? & ? & ?).
    exists i, j. split_and!; [by apply in_level_app_l..|done].
  - apply elem_of_find_level in Ht as [Ht Hempty].
    rewrite (lookup_total_correct _ _ _ (Hdeps t Ht)) in Hempty.
    assert (Hs : s ∈ concat acc).
    { apply Hmem. split; [by eapply HPN|]. intros Hs. set_solver. }
    apply elem_of_concat_in_level in Hs as [i Hi].
    exists i, (length acc). split_and!.
    + by apply in_level_app_l.
    + apply in_level_app_r. apply elem_of_find_level. split; [done|].
      by rewrite (lookup_total_correct _ _ _ (Hdeps t Ht)).
    + by eapply in_level_lt.
Qed.

(** Without a cycle among the recorded predecessors the loop finishes with a
    plan, never raising and never exhausting its budget. *)
Lemma plan_loop_acyclic fuel deps rem acc :
  (∀ n, ¬ tc (λ s t, s ∈ P t) n n) → (∀ n, P n ⊆ N) →
  size rem ≤ fuel → plan_inv deps rem acc → plan_ordered acc →
  ∃ plan, plan_loop fuel deps rem acc = Some (Return plan)
    ∧ NoDup (concat plan) ∧ (∀ n, n ∈ concat plan ↔ n ∈ N)
    ∧ plan_ordered plan.
Proof.
  intros Hacyc HPN. revert deps rem acc.
  induction fuel as [|fuel IH]; intros deps rem acc Hsize Hinv Hord;
    rewrite plan_loop_unfold; destruct (decide (rem = ∅)) as [->|Hne].
  - destruct Hinv as (_ & _ & ? & Hmem). exists acc. split_and!; try done.
    intros n. rewrite Hmem. set_solver.
  - apply size_nonempty in Hne. lia.
  - destruct Hinv as (_ & _ & ? & Hmem). exists acc. split_and!; try done.
    intros n. rewrite Hmem. set_solver.
  - destruct (exists_minimal P rem Hacyc Hne) as (m & Hm & Hmin).
    assert (HmL : m ∈ find_level deps rem).
    { apply elem_of_find_level. split; [done|].
      destruct Hinv as (_ & Hdeps & _).
      rewrite (lookup_total_correct _ _ _ (Hdeps m Hm)).
      specialize (HPN m). set_solver. }
    destruct (find_level deps rem) as [|x l] eqn:HL; [by apply elem_of_nil in HmL|].
    rewrite <- HL in *. apply IH.
    + assert (size (rem ∖ list_to_set (find_level deps rem)) < size rem); [|lia].
      apply subset_size. apply strict_spec. split; [set_solver|].
      intros Hsub. specialize (Hsub m Hm). set_solver.
    + by apply plan_inv_step.
    + by apply plan_ordered_step.
Qed.


End plan_loop_proofs.

Lemma preds_edge_rel wf (s t : string) :
  edges_nonempty wf → (s ∈ preds (edges wf) t ↔ edge_rel wf s t).
Proof.
  intros Hne. rewrite elem_of_preds. unfold edge_rel. split.
  - intros (e & ? & _ & ? & ?). eauto.
  - intros (e & He & ? & ?). exists e. split_and!; try done.
    destruct (Hne e He). apply andb_true_iff. by rewrite !truthy_true.
Qed.

Lemma tc_preds_edge_rel wf (x y : string) :
  edges_nonempty wf →
  (tc (λ s t, s ∈ preds (edges wf) t) x y ↔ tc (edge_rel wf) x y).
Proof.
  intros Hne. split; apply tc_congruence with (f := id); intros ??;
    by apply preds_edge_rel.
Qed.

Lemma plan_inv_init wf deps :
  (∀ n, deps !! n = (λ s0, preds (edges wf) n ∪ s0) <$> init_dependencies wf !! n) →
  dom deps = list_to_set (node_ids wf) ∧ plan_inv wf deps (dom deps) [].
Proof.
  intros Hl.
  assert (Hdom : dom deps = list_to_set (node_ids wf)).
  { rewrite <- dom_init_dependencies. apply set_eq. intros n.
    rewrite !elem_of_dom, Hl. by rewrite fmap_is_Some. }
  split; [done|]. rewrite Hdom. split_and!.
  - done.
  - intros n Hn. rewrite Hl, lookup_init_dependencies.
    rewrite decide_True by set_solver. simpl. f_equal. set_solver.
  - constructor.
  - intros n. simpl. set_solver.
Qed.

(** On definitions with non-empty edge endpoints that are node ids, an
    acyclic edge relation yields a correct plan. *)
Lemma build_execution_plan_acyclic wf :
  edges_nonempty wf → edges_in_nodes wf → acyclic wf →
  ∃ plan, _build_execution_plan wf = Some (Return plan) ∧ plan_correct wf plan.
Proof.
  intros Hne Hin Hacyc. unfold _build_execution_plan.
  destruct (add_dependencies_spec (edges wf) (init_dependencies wf))
    as (deps & -> & Hl).
  { intros e He _. rewrite dom_init_dependencies, elem_of_list_to_set.
    by apply Hin. }
  destruct (plan_inv_init wf deps Hl) as [Hdom Hinv].
  destruct (plan_loop_acyclic wf (size (dom deps)) deps (dom deps) [])
    as (plan & Hplan & Hnd & Hmem & Hord); try done.
  - intros n Hn. by apply (Hacyc n), tc_preds_edge_rel.
  - intros n s Hs. apply preds_edge_rel in Hs as (e & He & <- & _); [|done].
    apply elem_of_list_to_set. by apply Hin.
  - intros s t _ []%elem_of_nil.
  - exists plan. split; [done|]. split_and!; [done| |].
    + intros n. rewrite Hmem. apply elem_of_list_to_set.
    + intros e He. apply Hord.
      * apply preds_edge_rel; [done|]. by exists e.
      * apply Hmem, elem_of_list_to_set. by apply Hin.
Qed.


Lemma string_app_cons (a : ascii) (s1 s2 : string) :
  String a s1 +:+ s2 = String a (s1 +:+ s2).
Proof. reflexivity. Qed.







End planner_proofs.

(** ** Proofs about dotted-path extraction *)

Lemma extract_parts_resolves v parts v' :
  resolves v parts v' → extract_parts parts v = v'.
Proof.
  induction 1 as [|m part parts v1 v' Hm _ IH]; simpl; [done|].
  by rewrite Hm.
Qed.

Lemma extract_parts_unresolved parts v :
  (¬ ∃ v', resolves v parts v') → extract_parts parts v = VNone.
Proof.
  revert v. induction parts as [|part parts IH]; intros v Hno; simpl.
  - destruct Hno. exists v. constructor.
  - destruct (path_step v part) as [v1|] eqn:Hstep; [|done].
    apply IH. intros [v' Hv']. apply Hno. exists v'.
    destruct v; simplify_eq/=. by econstructor.
Qed.

(** ** Proofs about the execution context *)

Lemma public_variables_ext vars1 vars2 :
  same_public_variables vars1 vars2 →
  public_variables vars1 = public_variables vars2.
Proof.
  intros Hsame. apply map_eq. intros k. unfold public_variables.
  destruct (is_private k) eqn:Hk.
  - rewrite !map_lookup_filter_None_2; [done|right..]; intros ??; simpl; congruence.
  - specialize (Hsame k Hk).
    destruct (vars1 !! k) as [x|] eqn:H1.
    + rewrite (map_lookup_filter_Some_2 _ vars1 k x) by done.
      symmetry. by apply map_lookup_filter_Some_2.
    + rewrite !map_lookup_filter_None_2; [done|left..]; congruence.
Qed.

Lemma same_public_variables_insert vars (k : string) v :
  is_private k = true → same_public_variables (<[k := v]> vars) vars.
Proof.
  intros Hk k' Hk'. apply lookup_insert_ne. intros ->. congruence.
Qed.

(** ** Proofs about the retry wrapper *)



(** ** Proofs about the validator's cycle check *)

Section dfs_proofs.

Context (graph : gmap string (list string)).
Local Abbreviation E := (graph_edge graph).
Local Abbreviation U := (graph_nodes graph).

Lemma elem_of_concat_list {A} (ls : list (list A)) (x : A) :
  x ∈ concat ls ↔ ∃ l, l ∈ ls ∧ x ∈ l.
Proof.
  induction ls as [|l ls IH]; simpl.
  - split; [by intros ?%elem_of_nil|by intros (? & ?%elem_of_nil & _)].
  - rewrite elem_of_app, IH. split.
    + intros [?|(l' & ? & ?)]; [exists l|exists l']; split; try done; by constructor.
    + intros (l' & [->|?]%elem_of_cons & ?); eauto.
Qed.

Lemma graph_edge_lookup u v : E u v → ∃ l, graph !! u = Some l ∧ v ∈ l.
Proof.
  unfold graph_edge. destruct (graph !! u) as [l|]; simpl; [eauto|].
  by intros ?%elem_of_nil.
Qed.

Lemma graph_edge_target u v : E u v → v ∈ U.
Proof.
  intros (l & Hl & Hv)%graph_edge_lookup. unfold graph_nodes.
  apply elem_of_union_r, elem_of_list_to_set, elem_of_concat_list.
  exists l. split; [|done]. apply list_elem_of_fmap. exists (u, l).
  split; [done|]. by apply elem_of_map_to_list.
Qed.

Lemma graph_edge_source u v : E u v → u ∈ dom graph.
Proof. intros (l & Hl & _)%graph_edge_lookup. by apply elem_of_dom. Qed.

Lemma chain_nil (R : relation string) : chain R [].
Proof. by intros i a b ?. Qed.

Lemma chain_app_l (R : relation string) l1 l2 : chain R (l1 ++ l2) → chain R l1.
Proof.
  intros Hc i a b Ha Hb. apply (Hc i); by apply lookup_app_l_Some.
Qed.

Lemma chain_drop (R : relation string) l i : chain R l → chain R (drop i l).
Proof.
  intros Hc j a b. rewrite !lookup_drop.
  replace (i + S j) with (S (i + j)) by lia. apply Hc.
Qed.

Lemma chain_snoc (R : relation string) l y :
  chain R l → (∀ x, last l = Some x → R x y) → chain R (l ++ [y]).
Proof.
  intros Hc Hlast i a b Ha Hb.
  destruct (decide (S i < length l)) as [Hlt|Hge].
  - rewrite lookup_app_l in Ha, Hb by lia. by eapply Hc.
  - assert (i < length l).
    { apply lookup_lt_Some in Hb. rewrite length_app in Hb. simpl in Hb. lia. }
    rewrite lookup_app_l in Ha by lia.
    rewrite lookup_app_r in Hb by lia.
    replace (S i - length l) with 0 in Hb by lia. simplify_eq/=.
    apply Hlast. rewrite last_lookup.
    replace (pred (length l)) with i by lia. done.
Qed.

Lemma last_drop_lt {A} (l : list A) i : i < length l → last (drop i l) = last l.
Proof.
  intros Hi. rewrite !last_lookup, lookup_drop, length_drop. f_equal. lia.
Qed.

Lemma closed_rtc (B : gset string) x y :
  (∀ b v, b ∈ B → E b v → v ∈ B) → x ∈ B → rtc E x y → y ∈ B.
Proof. intros Hcl Hx Hxy. induction Hxy; eauto. Qed.

Lemma cycle_error_spec p u v :
  NoDup (p ++ [u]) → chain E (p ++ [u]) → v ∈ p ++ [u] → E u v →
  ∃ cycle, cycle_error (p ++ [u]) v = WorkflowCycleError (render_cycle cycle)
    ∧ is_cycle_path E cycle.
Proof.
  intros Hnd Hc Hv Huv. unfold cycle_error.
  destruct (list_find (λ x, x = v) (p ++ [u])) as [[i x]|] eqn:Hfind.
  - apply list_find_Some in Hfind as (Hi & -> & _).
    eexists. split; [done|]. split.
    + destruct (drop i (p ++ [u])) as [|y rest] eqn:Hdrop.
      { apply (f_equal length) in Hdrop. rewrite length_drop in Hdrop.
        apply lookup_lt_Some in Hi. simpl in Hdrop. lia. }
      assert (y = v) as ->.
      { assert (drop i (p ++ [u]) !! 0 = Some v) by (by rewrite lookup_drop, Nat.add_0_r).
        rewrite Hdrop in H. by simplify_eq/=. }
      by exists v, rest.
    + apply chain_snoc; [by apply chain_drop|].
      intros y Hy. rewrite last_drop_lt in Hy by (by eapply lookup_lt_Some).
      rewrite last_snoc in Hy. by simplify_eq.
  - exfalso. apply list_find_None in Hfind.
    rewrite Forall_forall in Hfind. by apply (Hfind v).
Qed.

Lemma finished_enter u st :
  u ∉ visited st → recursion_stack st ⊆ visited st →
  finished (enter u st) = finished st.
Proof. unfold finished, enter. simpl. set_solver. Qed.

Lemma dfs_inv_enter u st :
  dfs_inv graph st → u ∉ visited st → u ∈ U →
  (∀ x, last (current_path st) = Some x → E x u) →
  dfs_inv graph (enter u st).
Proof.
  intros [Hst Hnd Hvis Hch Hcl Hac Huni] Hu HuU Hlast.
  split; rewrite ?finished_enter by done; simpl; try done.
  - rewrite list_to_set_app_L, Hst. set_solver.
  - apply NoDup_app. split_and!; [done| |apply NoDup_singleton].
    intros x Hx ->%list_elem_of_singleton. apply Hu, Hvis. rewrite Hst.
    by apply elem_of_list_to_set.
  - set_solver.
  - by apply chain_snoc.
  - set_solver.
Qed.

Lemma dfs_inv_leave p u st :
  dfs_inv graph st → current_path st = p ++ [u] →
  (∀ v, E u v → v ∈ finished st) →
  dfs_inv graph (leave u st).
Proof.
  intros [Hst Hnd Hvis Hch Hcl Hac Huni] Hp Hdone.
  rewrite Hp in Hst, Hnd, Hch.
  apply NoDup_app in Hnd as (Hndp & Hdisj & _).
  assert (Hup : u ∉ p).
  { intros Hup. apply (Hdisj u Hup). by apply list_elem_of_singleton. }
  assert (Hus : u ∈ recursion_stack st).
  { rewrite Hst. apply elem_of_list_to_set, elem_of_app. right. by left. }
  assert (Hfin : ∀ x, x ∈ finished (leave u st) ↔ x ∈ finished st ∨ x = u).
  { intros x. unfold finished, leave. simpl. rewrite !elem_of_difference.
    rewrite elem_of_singleton. destruct (decide (x = u)) as [->|?]; [|tauto].
    split; [auto|]. intros _. split; [by apply Hvis|tauto]. }
  split; simpl.
  - rewrite Hp, removelast_last, Hst, list_to_set_app_L.
    apply set_eq. intros x. rewrite elem_of_difference, elem_of_union,
      !elem_of_list_to_set, list_elem_of_singleton, elem_of_singleton.
    split; [tauto|]. intros Hx. split; [by left|]. by intros ->.
  - by rewrite Hp, removelast_last.
  - set_solver.
  - rewrite Hp, removelast_last. by eapply chain_app_l.
  - intros b v [Hb| ->]%Hfin Hbv; apply Hfin; left; eauto.
  - intros b [Hb| ->]%Hfin; [by apply Hac|].
    intros Hcyc. inversion Hcyc as [? ? Huu|? v ? Huv Hvu]; subst.
    + specialize (Hdone u Huu). unfold finished in Hdone. set_solver.
    + assert (u ∈ finished st).
      { eapply closed_rtc; [exact Hcl|by apply Hdone|by apply tc_rtc]. }
      unfold finished in *. set_solver.
  - done.
Qed.

Lemma size_unvisited_mono (X Y : gset string) :
  X ⊆ Y → size (U ∖ Y) ≤ size (U ∖ X).
Proof. intros ?. apply subseteq_size. set_solver. Qed.

Lemma size_unvisited_enter (X : gset string) u :
  u ∈ U → u ∉ X → size (U ∖ ({[u]} ∪ X)) < size (U ∖ X).
Proof.
  intros ??. apply subset_size, strict_spec. split; [set_solver|].
  intros Hsub. specialize (Hsub u). set_solver.
Qed.

(** The loop over the successors of [u], given that every recursive call
    within the budget behaves. *)
Lemma visit_neighbours_spec visit fuel u p :
  (∀ v st, dfs_inv graph st → v ∉ visited st → v ∈ U →
     (∀ x, last (current_path st) = Some x → E x v) →
     size (U ∖ visited st) < fuel →
     visit_post graph st (visit v st) ∧
     ∀ b st', visit v st = Some (Return (b, st')) → v ∈ visited st') →
  ∀ vs st,
    dfs_inv graph st → current_path st = p ++ [u] →
    (∀ v, v ∈ vs → E u v) →
    (∀ v, E u v → v ∈ vs ∨ v ∈ finished st) →
    size (U ∖ visited st) < fuel →
    match visit_neighbours visit u vs st with
    | Some (Return (b, st')) =>
        b = false ∧ dfs_inv graph st' ∧ current_path st' = p
        ∧ recursion_stack st' = recursion_stack st ∖ {[u]}
        ∧ visited st ⊆ visited st'
    | Some (Raise e) =>
        ∃ cycle, e = WorkflowCycleError (render_cycle cycle)
          ∧ is_cycle_path E cycle
    | None => False
    end.
Proof.
  intros Hvisit. induction vs as [|v vs IH]; intros st Hinv Hp Hvs Hdone Hsize; simpl.
  - split_and!; try done.
    + eapply dfs_inv_leave; [done..|]. intros v Hv.
      destruct (Hdone v Hv) as [?%elem_of_nil|?]; done.
    + by rewrite Hp, removelast_last.
  - assert (Huv : E u v) by (apply Hvs; left).
    destruct (decide (v ∉ visited st)) as [Hv|Hv].
    + destruct (Hvisit v st) as [Hpost Hin]; try done.
      { by eapply graph_edge_target. }
      { intros x. rewrite Hp, last_snoc. by intros [= <-]. }
      destruct (visit v st) as [[[b st']|e]|]; simpl in Hpost; [|done..].
      destruct Hpost as (-> & Hinv' & Hp' & Hst' & Hvis').
      specialize (Hin false st' eq_refl).
      assert (Hvs' : ∀ w, w ∈ vs → E u w) by (intros w Hw; apply Hvs; by right).
      assert (Hdone' : ∀ w, E u w → w ∈ vs ∨ w ∈ finished st').
      { intros w Hw. destruct Hinv as [_ _ Hsub _ _ _ _].
        destruct (Hdone w Hw) as [[->|?]%elem_of_cons|Hfin];
          [right|by left|right]; unfold finished in *; rewrite ?Hst'; set_solver. }
      assert (Hsize' : size (U ∖ visited st') < fuel).
      { pose proof (size_unvisited_mono _ _ Hvis'). lia. }
      specialize (IH st' Hinv' (eq_trans Hp' Hp) Hvs' Hdone' Hsize').
      destruct (visit_neighbours visit u vs st') as [[[b st'']|e]|]; [|done..].
      destruct IH as (-> & ? & ? & Hst'' & Hvis'').
      split_and!; try done; [congruence|set_solver].
    + apply dec_stable in Hv.
      destruct (decide (v ∈ recursion_stack st)) as [Hstack|Hstack].
      * destruct Hinv as [Hst Hnd _ Hch _ _ _]. rewrite Hp in *.
        apply cycle_error_spec; try done.
        rewrite Hst in Hstack. by apply elem_of_list_to_set in Hstack.
      * apply IH; try done.
        -- intros w Hw. apply Hvs. by right.
        -- intros w Hw. destruct (Hdone w Hw) as [[->|?]%elem_of_cons|Hfin];
             [right|by left|by right]. unfold finished. set_solver.
Qed.

(** One call of the search from an unvisited node. *)
Lemma dfs_spec fuel :
  ∀ u st, dfs_inv graph st → u ∉ visited st → u ∈ U →
    (∀ x, last (current_path st) = Some x → E x u) →
    size (U ∖ visited st) < fuel →
    visit_post graph st (_dfs_cycle_check_recursive fuel graph u st) ∧
    ∀ b st', _dfs_cycle_check_recursive fuel graph u st = Some (Return (b, st')) →
             u ∈ visited st'.
Proof.
  induction fuel as [|fuel IH]; intros u st Hinv Hu HuU Hlast Hsize; [lia|].
  simpl.
  pose proof (visit_neighbours_spec (_dfs_cycle_check_recursive fuel graph)
    fuel u (current_path st) IH (default [] (graph !! u)) (enter u st)) as Hloop.
  assert (Hinv' : dfs_inv graph (enter u st)) by (by apply dfs_inv_enter).
  assert (Hsub : recursion_stack st ⊆ visited st) by (by destruct Hinv).
  destruct (visit_neighbours (_dfs_cycle_check_recursive fuel graph) u
              (default [] (graph !! u)) (enter u st)) as [[[b st']|e]|];
    (split; [|intros b0 st0 [= <- <-] || (intros ???; discriminate)]);
    simpl; try (apply Hloop; try done; auto;
                pose proof (size_unvisited_enter (visited st) u HuU Hu);
                simpl; lia).
  - destruct Hloop as (-> & ? & ? & Hst' & Hvis'); try done; auto.
    { pose proof (size_unvisited_enter (visited st) u HuU Hu). simpl. lia. }
    split_and!; try done.
    + rewrite Hst'. simpl. set_solver.
    + simpl in Hvis'. set_solver.
  - destruct Hloop as (_ & _ & _ & _ & Hvis'); try done; auto.
    { pose proof (size_unvisited_enter (visited st) u HuU Hu). simpl. lia. }
    simpl in Hvis'. set_solver.
Qed.

End dfs_proofs.

Lemma dfs_inv_initial graph : dfs_inv graph (DfsState ∅ ∅ []).
Proof.
  split; simpl; try done. constructor.
Qed.

Lemma check_from_cons fuel graph i ids seen stack :
  check_from fuel graph (i :: ids) seen stack =
  if decide (i ∉ seen) then
    match _dfs_cycle_check_recursive fuel graph i (DfsState seen stack []) with
    | Some (Return (_, st')) =>
        check_from fuel graph ids (visited st') (recursion_stack st')
    | Some (Raise e) => Some (Raise e)
    | None => None
    end
  else check_from fuel graph ids seen stack.
Proof. reflexivity. Qed.

(** The loop over the start nodes: it never exhausts the budget; it either
    raises a rendered cycle or leaves every start node finished. *)
Lemma check_from_spec graph ids :
  ∀ seen, dfs_inv graph (DfsState seen ∅ []) →
    (∀ i, i ∈ ids → i ∈ graph_nodes graph) →
    match check_from (dfs_fuel graph) graph ids seen ∅ with
    | Some (Return _) =>
        ∃ seen', (∀ i, i ∈ ids → i ∈ seen') ∧ seen ⊆ seen'
          ∧ dfs_inv graph (DfsState seen' ∅ [])
    | Some (Raise e) =>
        ∃ cycle, e = WorkflowCycleError (render_cycle cycle)
          ∧ is_cycle_path (graph_edge graph) cycle
    | None => False
    end.
Proof.
  induction ids as [|i ids IH]; intros seen Hinv Hids;
    [simpl|rewrite check_from_cons].
  - exists seen. split_and!; [by intros ? ?%elem_of_nil|done..].
  - assert (Hids' : ∀ j, j ∈ ids → j ∈ graph_nodes graph)
      by (intros j Hj; apply Hids; by right).
    destruct (decide (i ∉ seen)) as [Hi|Hi].
    + destruct (dfs_spec graph (dfs_fuel graph) i (DfsState seen ∅ []))
        as [Hpost Hin]; try done.
      { apply Hids. by left. }
      { unfold dfs_fuel. simpl.
        assert (size (graph_nodes graph ∖ seen) ≤ size (graph_nodes graph)); [|lia].
        apply subseteq_size. set_solver. }
      destruct (_dfs_cycle_check_recursive (dfs_fuel graph) graph i (DfsState seen ∅ []))
        as [[[b st']|e]|]; [|exact Hpost..].
      destruct Hpost as (_ & Hinv' & Hp' & Hst' & Hvis').
      specialize (Hin b st' eq_refl).
      destruct st' as [seen' stack' path']. simpl in *. subst.
      specialize (IH seen' Hinv' Hids').
      destruct (check_from (dfs_fuel graph) graph ids seen' ∅) as [[[]|e]|]; [|done..].
      destruct IH as (seen'' & Hall & Hsub & Hinv'').
      exists seen''. split_and!; [|set_solver|done].
      intros j [->|Hj]%elem_of_cons; [set_solver|by apply Hall].
    + apply dec_stable in Hi. specialize (IH seen Hinv Hids').
      destruct (check_from (dfs_fuel graph) graph ids seen ∅) as [[[]|e]|]; [|done..].
      destruct IH as (seen'' & Hall & Hsub & Hinv'').
      exists seen''. split_and!; [|done..].
      intros j [->|Hj]%elem_of_cons; [set_solver|by apply Hall].
Qed.

Lemma lookup_list_to_map_const {A} (x : A) (ids : list string) n :
  (list_to_map ((λ i, (i, x)) <$> ids) : gmap string A) !! n
  = if decide (n ∈ ids) then Some x else None.
Proof.
  induction ids as [|m l IH]; csimpl.
  - by rewrite lookup_empty.
  - destruct (decide (m = n)) as [->|Hne].
    + rewrite lookup_insert_eq. by rewrite decide_True by set_solver.
    + rewrite lookup_insert_ne by done. rewrite IH.
      repeat case_decide; set_solver.
Qed.

Lemma add_connection_spec g conn :
  dom (add_connection g conn) = dom g ∧
  ∀ u v, graph_edge (add_connection g conn) u v ↔
         graph_edge g u v ∨ (u ∈ dom g ∧ connection_edge conn = Some (u, v)).
Proof.
  unfold add_connection.
  destruct (connection_edge conn) as [[s t]|]; [|split; [done|naive_solver]].
  destruct (g !! s) as [targets|] eqn:Hs.
  - split.
    + rewrite dom_insert_L. apply elem_of_dom_2 in Hs. set_solver.
    + intros u v. unfold graph_edge. destruct (decide (s = u)) as [->|Hne].
      * rewrite lookup_insert_eq, Hs. simpl. rewrite elem_of_app, list_elem_of_singleton.
        split; [intros [?| ->]; [by left|right]|intros [?|[_ [= ->]]]; auto].
        split; [by eapply elem_of_dom_2|done].
      * rewrite lookup_insert_ne by done. split; [auto|].
        intros [?|[_ [= ? ?]]]; done.
  - split; [done|]. intros u v. split; [auto|].
    intros [?|[Hu [= <- <-]]]; [done|]. apply elem_of_dom in Hu as [? ?]. congruence.
Qed.

Lemma foldl_add_connection conns :
  ∀ g, dom (foldl add_connection g conns) = dom g ∧
    ∀ u v, graph_edge (foldl add_connection g conns) u v ↔
           graph_edge g u v
           ∨ (u ∈ dom g ∧ ∃ conn, conn ∈ conns ∧ connection_edge conn = Some (u, v)).
Proof.
  induction conns as [|conn conns IH]; intros g; simpl.
  - split; [done|]. intros u v. split; [auto|].
    intros [?|(_ & ? & ?%elem_of_nil & _)]; done.
  - destruct (IH (add_connection g conn)) as [Hdom Hedge].
    destruct (add_connection_spec g conn) as [Hdom1 Hedge1].
    split; [congruence|]. intros u v. rewrite Hedge, Hedge1, Hdom1. split.
    + intros [[?|[? ?]]|(? & c & ? & ?)]; [by left|right..].
      * split; [done|]. exists conn. split; [by left|done].
      * split; [done|]. exists c. split; [by right|done].
    + intros [?|(? & c & [->|?]%elem_of_cons & ?)]; [by left; left|by left; right|].
      right. eauto.
Qed.

Lemma build_graph_spec w :
  dom (build_graph w) = list_to_set (wd_nodes w).*1 ∧
  ∀ u v, graph_edge (build_graph w) u v ↔ conn_rel w u v.
Proof.
  unfold build_graph.
  set (g0 := list_to_map ((λ node_id, (node_id, [])) <$> (wd_nodes w).*1)
             : gmap string (list string)).
  assert (Hdom0 : dom g0 = list_to_set (wd_nodes w).*1).
  { apply set_eq. intros n. unfold g0.
    rewrite elem_of_dom, lookup_list_to_map_const, elem_of_list_to_set.
    case_decide; split; by try intros [? ?]. }
  assert (Hedge0 : ∀ u v, ¬ graph_edge g0 u v).
  { intros u v. unfold graph_edge, g0. rewrite lookup_list_to_map_const.
    case_decide; simpl; by intros ?%elem_of_nil. }
  destruct (foldl_add_connection (wd_connections w) g0) as [Hdom Hedge].
  split; [congruence|]. intros u v. rewrite Hedge, Hdom0, elem_of_list_to_set.
  unfold conn_rel. split; [|auto]. intros [?%Hedge0|?]; done.
Qed.

Lemma chain_tc (R : relation string) l a b : chain R (a :: l ++ [b]) → tc R a b.
Proof.
  revert a. induction l as [|x l IH]; intros a Hc.
  - apply tc_once. by apply (Hc 0).
  - eapply tc_l; [by apply (Hc 0)|]. apply IH.
    intros i y z Hy Hz. by apply (Hc (S i)).
Qed.

Lemma chain_impl (R R' : relation string) l :
  (∀ x y, R x y → R' x y) → chain R l → chain R' l.
Proof. intros HR Hc i a b ??. apply HR. by eapply Hc. Qed.

Lemma is_cycle_path_tc (R : relation string) cycle :
  is_cycle_path R cycle → ∃ v, tc R v v.
Proof. intros [(v & mid & ->) Hc]. exists v. by eapply chain_tc. Qed.


(** The cycle check never exhausts its budget and raises nothing but a
    rendered cycle; it returns exactly when the connections carry no cycle. *)
Lemma check_for_cycles_spec w :
  match _check_for_cycles w with
  | Some (Return _) => ∀ n, ¬ tc (conn_rel w) n n
  | Some (Raise e) =>
      ∃ cycle, e = WorkflowCycleError (render_cycle cycle)
        ∧ is_cycle_path (conn_rel w) cycle
  | None => False
  end.
Proof.
  unfold _check_for_cycles.
  destruct (build_graph_spec w) as [Hdom Hedge].
  pose proof (check_from_spec (build_graph w) (wd_nodes w).*1 ∅
                (dfs_inv_initial _)) as Hspec.
  destruct (check_from (dfs_fuel (build_graph w)) (build_graph w) (wd_nodes w).*1 ∅ ∅)
    as [[[]|e]|].
  - destruct Hspec as (seen & Hall & _ & Hinv).
    { intros i Hi. unfold graph_nodes. rewrite Hdom. set_solver. }
    intros n Hn.
    assert (Hin : n ∈ (wd_nodes w).*1).
    { inversion Hn as [? ? [? _]|? ? ? [? _]]; done. }
    apply (inv_acyclic _ _ Hinv n).
    + unfold finished. simpl. specialize (Hall n Hin). set_solver.
    + eapply tc_congruence with (f := id); [|exact Hn]. intros ??. apply Hedge.
  - destruct Hspec as (cycle & -> & [Hform Hchain]).
    { intros i Hi. unfold graph_nodes. rewrite Hdom. set_solver. }
    exists cycle. split; [done|]. split; [done|].
    eapply chain_impl; [|done]. intros ??. apply Hedge.
  - apply Hspec. intros i Hi. unfold graph_nodes. rewrite Hdom. set_solver.
Qed.


Lemma check_for_cycles_acyclic w :
  (∀ n, ¬ tc (conn_rel w) n n) → _check_for_cycles w = Some (Return ()).
Proof.
  intros Hacyc. pose proof (check_for_cycles_spec w) as Hspec.
  destruct (_check_for_cycles w) as [[[]|e]|]; [done| |done].
  destruct Hspec as (cycle & _ & [v Hv]%is_cycle_path_tc). by destruct (Hacyc v).
Qed.

(** ** Proofs about the required-node policy *)

Section required_proofs.

Context (wf : workflow_def).
Local Abbreviation E := (edge_rel wf).

(** Reaching a base case along the edges. *)
Local Abbreviation reaches_required :=
  (λ n : string, ∃ m, rtc E n m ∧ required_directly wf m).

Lemma required_downstream_true_inv check (n : string) es :
  required_downstream check n es = Some true →
  ∃ e, e ∈ es ∧ source e = n ∧ check (target e) = Some true.
Proof.
  induction es as [|e es IH]; simpl; [done|].
  destruct (decide (source e = n)) as [He|He].
  - destruct (check (target e)) as [[]|] eqn:Hc; [|..|done].
    + intros _. exists e. split; [by left|done].
    + intros (e0 & ? & ?)%IH. exists e0. split; [by right|done].
  - intros (e0 & ? & ?)%IH. exists e0. split; [by right|done].
Qed.

Lemma required_downstream_false check (n : string) es :
  required_downstream check n es = Some false →
  ∀ e, e ∈ es → source e = n → check (target e) = Some false.
Proof.
  induction es as [|e es IH]; simpl; [by intros _ ? ?%elem_of_nil|].
  destruct (decide (source e = n)) as [He|He].
  - destruct (check (target e)) as [[]|] eqn:Hc; [done| |done].
    intros Hrest e' [->|?]%elem_of_cons ?; [done|by apply IH].
  - intros Hrest e' [->|?]%elem_of_cons ?; [done|by apply IH].
Qed.

Lemma required_downstream_total check (n : string) es :
  (∀ e, e ∈ es → source e = n → is_Some (check (target e))) →
  is_Some (required_downstream check n es).
Proof.
  induction es as [|e es IH]; intros Hall; simpl; [done|].
  assert (is_Some (required_downstream check n es)).
  { apply IH. intros e' ??. apply Hall; [by right|done]. }
  destruct (decide (source e = n)) as [He|He]; [|done].
  destruct (Hall e) as [[] ->]; [by left|done..].
Qed.


(** Whatever the recursion answers is right: [True] exactly when the node
    reaches a flagged node or a declared output. *)
Lemma is_node_required_sound fuel :
  ∀ (n : string) b, _is_node_required fuel wf n = Some b →
    (b = true ↔ reaches_required n).
Proof.
  induction fuel as [|fuel IH]; intros n b; simpl; [done|].
  destruct (required_flag wf n) eqn:Hflag.
  { intros [= <-]. split; [|done]. intros _. exists n. split; [done|by left]. }
  destruct (used_in_outputs wf n) eqn:Hout.
  { intros [= <-]. split; [|done]. intros _. exists n. split; [done|by right]. }
  intros Hloop. destruct b.
  - split; [|done]. intros _.
    apply required_downstream_true_inv in Hloop as (e & He & Hs & Ht).
    apply IH in Ht as [Hreach _]. destruct Hreach as (m & Hm & Hd); [done|].
    exists m. split; [|done]. eapply rtc_l; [|done]. by exists e.
  - split; [done|]. intros (m & Hm & Hd).
    inversion Hm as [|? x ? (e & He & Hs & Ht) Hxm]; subst.
    { destruct Hd; congruence. }
    pose proof (required_downstream_false _ _ _ Hloop e He eq_refl) as Hf.
    apply IH in Hf as [_ Hf]. apply Hf. by exists m.
Qed.

Lemma size_list_to_set_le (l : list string) :
  size (list_to_set l : gset string) ≤ length l.
Proof.
  induction l as [|x l IH]; [by rewrite list_to_set_nil, size_empty|].
  rewrite list_to_set_cons. simpl.
  destruct (decide (x ∈ (list_to_set l : gset string))).
  - replace ({[x]} ∪ list_to_set l : gset string) with (list_to_set l : gset string)
      by set_solver. lia.
  - rewrite size_union, size_singleton by set_solver. lia.
Qed.

(** On an acyclic definition the nodes on the call chain are distinct edge
    sources, so the recursion ends within the budget. *)
Lemma is_node_required_total_aux :
  acyclic wf →
  ∀ fuel (n : string) (A : gset string),
    (∀ a, a ∈ A → tc E a n) →
    A ⊆ list_to_set (source <$> edges wf) →
    size (list_to_set (source <$> edges wf) : gset string) < fuel + size A →
    is_Some (_is_node_required fuel wf n).
Proof.
  intros Hacyc. induction fuel as [|fuel IH]; intros n A Hanc Hsub Hsize.
  - apply subseteq_size in Hsub. simpl in Hsize. lia.
  - simpl. destruct (required_flag wf n); [done|].
    destruct (used_in_outputs wf n); [done|].
    apply required_downstream_total. intros e He Hs.
    apply (IH (target e) ({[n]} ∪ A)).
    + intros a [->%elem_of_singleton|Ha]%elem_of_union.
      * apply tc_once. by exists e.
      * eapply tc_r; [by apply Hanc|]. by exists e.
    + apply union_subseteq. split; [|done].
      apply singleton_subseteq_l, elem_of_list_to_set, list_elem_of_fmap. eauto.
    + assert (n ∉ A) by (intros Hn; by apply (Hacyc n), Hanc).
      rewrite size_union, size_singleton by set_solver. lia.
Qed.

Lemma is_node_required_total (n : string) :
  acyclic wf → is_Some (_is_node_required (required_fuel wf) wf n).
Proof.
  intros Hacyc. apply (is_node_required_total_aux Hacyc _ n ∅).
  - set_solver.
  - set_solver.
  - rewrite size_empty. unfold required_fuel.
    pose proof (size_list_to_set_le (source <$> edges wf)) as Hle.
    rewrite length_fmap in Hle. lia.
Qed.



End required_proofs.

(** ** Proofs about level execution *)

Arguments _is_node_required : simpl never.
Arguments _build_execution_plan : simpl never.

Lemma set_node_results_id c : set_node_results (node_results c) c = c.
Proof. by destruct c. Qed.

Lemma execute_node_spec n inst input c log :
  _execute_node n inst input (c, log) =
  Some ((c, log ++ node_events (execution_id c)
                     (n, execute inst input (execution_id c))),
        execute inst input (execution_id c)).
Proof.
  unfold _execute_node, mbind, M_bind, get_context, log_execution_event,
    try_except, of_outcome, mret, M_ret, raise, node_events. simpl.
  destruct (execute inst input (execution_id c)); simpl;
    by rewrite <- app_assoc.
Qed.

Lemma run_events_app eid h1 h2 :
  run_events eid (h1 ++ h2) = run_events eid h1 ++ run_events eid h2.
Proof. unfold run_events. by rewrite fmap_app, concat_app. Qed.

Lemma started_nodes_app log1 log2 :
  started_nodes (log1 ++ log2) = started_nodes log1 ++ started_nodes log2.
Proof. unfold started_nodes. by rewrite omap_app. Qed.

Lemma started_nodes_run_events eid hist :
  started_nodes (run_events eid hist) = hist.*1.
Proof.
  induction hist as [|[n r] hist IH]; [done|].
  change (run_events eid ((n, r) :: hist))
    with (node_events eid (n, r) ++ run_events eid hist).
  rewrite started_nodes_app, IH. by destruct r.
Qed.

Lemma level_tasks_cons c n ids :
  level_tasks c (n :: ids) =
  match active_nodes c !! n with
  | Some inst => (n, inst, _prepare_node_input n c) :: level_tasks c ids
  | None => level_tasks c ids
  end.
Proof. unfold level_tasks. simpl. by destruct (active_nodes c !! n). Qed.

Lemma level_tasks_initialized c ids :
  (∀ n, n ∈ ids → is_Some (active_nodes c !! n)) →
  ∃ insts, Forall2 (λ n inst, active_nodes c !! n = Some inst) ids insts
    ∧ level_tasks c ids
      = zip_with (λ n inst, (n, inst, _prepare_node_input n c)) ids insts.
Proof.
  induction ids as [|n ids IH]; intros Hall.
  - exists []. split; [constructor|done].
  - destruct IH as (insts & HF & Htasks); [intros ??; apply Hall; by right|].
    destruct (Hall n) as [inst Hinst]; [by left|].
    exists (inst :: insts). split; [by constructor|].
    by rewrite level_tasks_cons, Hinst, Htasks.
Qed.

Lemma level_history_fst c ids insts :
  length ids = length insts → (level_history c ids insts).*1 = ids.
Proof.
  revert insts. induction ids as [|n ids IH]; intros [|inst insts] Hlen;
    simplify_eq/=; [done|]. f_equal. by apply IH.
Qed.

Lemma level_history_of c ids insts :
  Forall2 (λ n inst, active_nodes c !! n = Some inst) ids insts →
  history_of c (level_history c ids insts).
Proof.
  induction 1 as [|n inst ids insts Hinst _ IH]; intros m r.
  - by intros ?%elem_of_nil.
  - intros [[= -> ->]|Hin]%elem_of_cons; [|by apply IH].
    by exists inst, (_prepare_node_input n c).
Qed.

Lemma gather_spec c ids insts :
  length ids = length insts →
  ∀ log,
    gather (zip_with (λ n inst, (n, inst, _prepare_node_input n c)) ids insts) (c, log)
    = Some ((c, log ++ run_events (execution_id c) (level_history c ids insts)),
            Return (level_history c ids insts).*2).
Proof.
  revert insts. induction ids as [|n ids IH]; intros [|inst insts] Hlen log;
    simplify_eq/=.
  - by rewrite app_nil_r.
  - unfold mbind, M_bind. rewrite execute_node_spec.
    rewrite (IH insts Hlen). simpl.
    change (run_events (execution_id c)
              ((n, execute inst (_prepare_node_input n c) (execution_id c))
               :: level_history c ids insts))
      with (node_events (execution_id c)
              (n, execute inst (_prepare_node_input n c) (execution_id c))
            ++ run_events (execution_id c) (level_history c ids insts)).
    by rewrite app_assoc.
Qed.

Lemma process_results_spec c hist :
  acyclic (ctx_workflow_def c) → NoDup hist.*1 →
  ∀ results0 log, ∃ results' o,
    process_results (ctx_workflow_def c) hist.*1 hist.*2
      (set_node_results results0 c, log)
    = Some ((set_node_results results' c, log), o)
    ∧ (∀ n, n ∉ hist.*1 → results' !! n = results0 !! n)
    ∧ match o with
      | Return _ => ∀ h, h ∈ hist → filed (ctx_workflow_def c) results' h
      | Raise e => ∃ n, required_node_raised (ctx_workflow_def c) hist n e
      end.
Proof.
  intros Hacyc. induction hist as [|[n r] hist IH]; intros Hnd results0 log.
  - exists results0, (Return ()). split_and!; [done..|]. by intros ? ?%elem_of_nil.
  - rewrite !fmap_cons in *. simpl in *.
    apply NoDup_cons in Hnd as [Hn Hnd]. specialize (IH Hnd).
    destruct r as [v|e].
    + destruct (IH (<[n:=v]> results0) log) as (results' & o & Hrun & Hother & Ho).
      exists results', o. split_and!.
      * unfold mbind, M_bind, modify_context. simpl. exact Hrun.
      * intros m Hm. rewrite Hother by set_solver. apply lookup_insert_ne. set_solver.
      * destruct o as [[]|e'].
        -- intros h [->|Hh]%elem_of_cons; [|by apply Ho]. split; [|done]. simpl.
           by rewrite Hother, lookup_insert_eq.
        -- destruct Ho as (m & e0 & ? & ? & ?). exists m, e0.
           split_and!; [by right|done..].
    + destruct (is_node_required_total (ctx_workflow_def c) n Hacyc) as [b Hb].
      unfold mbind, M_bind, bounded. rewrite Hb. destruct b.
      * exists results0, (Raise (WorkflowError
          ("Required node " +:+ n +:+ " failed: " +:+ str_of_exn e))).
        split_and!; [done..|]. exists n, e. split_and!; [by left|done..].
      * destruct (IH (<[n:=failed_entry e]> results0) log)
          as (results' & o & Hrun & Hother & Ho).
        exists results', o. split_and!.
        -- unfold modify_context. simpl. exact Hrun.
        -- intros m Hm. rewrite Hother by set_solver. apply lookup_insert_ne. set_solver.
        -- destruct o as [[]|e'].
           ++ intros h [->|Hh]%elem_of_cons; [|by apply Ho]. split; simpl.
              ** by rewrite Hother, lookup_insert_eq.
              ** intros ? _. unfold is_required. congruence.
           ++ destruct Ho as (m & e0 & ? & ? & ?). exists m, e0.
              split_and!; [by right|done..].
Qed.

Lemma execute_level_unfold wf ids c log :
  execute_level wf ids (c, log) =
  match level_tasks c ids with
  | [] => Some ((c, log), Return ())
  | tasks =>
      match gather tasks (c, log) with
      | Some (st', Return results) => process_results wf ids results st'
      | Some (st', Raise e) => Some (st', Raise e)
      | None => None
      end
  end.
Proof.
  unfold execute_level, mbind, M_bind, get_context. simpl.
  by destruct (level_tasks c ids).
Qed.

(** One level: every node of the level is executed on the input prepared
    from the results so far; then either all results are filed, or the first
    required node that raised ends the run. *)
Lemma execute_level_spec c ids :
  acyclic (ctx_workflow_def c) → NoDup ids →
  (∀ n, n ∈ ids → is_Some (active_nodes c !! n)) →
  ∀ results0 log, ∃ hist results' o,
    hist.*1 = ids ∧ history_of c hist
    ∧ execute_level (ctx_workflow_def c) ids (set_node_results results0 c, log)
      = Some ((set_node_results results' c,
               log ++ run_events (execution_id c) hist), o)
    ∧ (∀ n, n ∉ ids → results' !! n = results0 !! n)
    ∧ match o with
      | Return _ => ∀ h, h ∈ hist → filed (ctx_workflow_def c) results' h
      | Raise e => ∃ n, required_node_raised (ctx_workflow_def c) hist n e
      end.
Proof.
  intros Hacyc Hnd Hall results0 log.
  destruct (level_tasks_initialized (set_node_results results0 c) ids Hall)
    as (insts & HF & Htasks).
  pose proof (Forall2_length _ _ _ HF) as Hlen.
  set (hist := level_history (set_node_results results0 c) ids insts).
  assert (Hfst : hist.*1 = ids) by (by apply level_history_fst).
  assert (Hhist : history_of c hist).
  { intros n r Hin. by apply (level_history_of (set_node_results results0 c) ids insts). }
  rewrite execute_level_unfold, Htasks.
  destruct ids as [|n ids]; [|destruct insts as [|inst insts]; [by inversion HF|]].
  { exists [], results0, (Return ()). split_and!; try done.
    - by rewrite app_nil_r.
    - by intros ? ?%elem_of_nil. }
  remember (n :: ids) as ids' eqn:Hids. remember (inst :: insts) as insts' eqn:Hinsts.
  pose proof (gather_spec (set_node_results results0 c) ids' insts' Hlen log) as Hg.
  assert (Hne : zip_with (λ n inst, (n, inst, _prepare_node_input n
                  (set_node_results results0 c))) ids' insts' ≠ []) by (by subst).
  destruct (zip_with _ ids' insts') as [|t ts] eqn:Hz; [done|].
  rewrite Hg. fold hist.
  destruct (process_results_spec c hist Hacyc) with (results0 := results0)
    (log := log ++ run_events (execution_id c) hist)
    as (results' & o & Hrun & Hother & Ho); [by rewrite Hfst|].
  rewrite Hfst in Hrun, Hother.
  exists hist, results', o. split_and!; try done.
Qed.

Lemma for_each_cons {A} (f : A → M unit) x l st :
  for_each f (x :: l) st =
  match f x st with
  | Some (st', Return _) => for_each f l st'
  | Some (st', Raise e) => Some (st', Raise e)
  | None => None
  end.
Proof. reflexivity. Qed.

Lemma filed_ext wf results results' h :
  results' !! h.1 = results !! h.1 → filed wf results h → filed wf results' h.
Proof. intros Heq [? ?]. split; [congruence|done]. Qed.

(** The levels in sequence.  A run that returns has executed every node,
    level by level, and filed every result.  A run that raises stopped in
    the level of a required node that raised, after the levels before it
    were filed. *)
Lemma levels_spec c levels :
  acyclic (ctx_workflow_def c) → NoDup (concat levels) →
  (∀ n, n ∈ concat levels → is_Some (active_nodes c !! n)) →
  ∀ results0 log, ∃ hist results' o,
    history_of c hist
    ∧ for_each (execute_level (ctx_workflow_def c)) levels
        (set_node_results results0 c, log)
      = Some ((set_node_results results' c,
               log ++ run_events (execution_id c) hist), o)
    ∧ (∀ n, n ∉ concat levels → results' !! n = results0 !! n)
    ∧ match o with
      | Return _ =>
          hist.*1 = concat levels
          ∧ ∀ h, h ∈ hist → filed (ctx_workflow_def c) results' h
      | Raise e =>
          ∃ finished_levels lvl rest n,
            levels = finished_levels ++ lvl :: rest
            ∧ hist.*1 = concat finished_levels ++ lvl
            ∧ (∀ h, h ∈ hist → h.1 ∈ concat finished_levels →
                    filed (ctx_workflow_def c) results' h)
            ∧ n ∈ lvl ∧ required_node_raised (ctx_workflow_def c) hist n e
      end.
Proof.
  intros Hacyc. induction levels as [|lvl levels IH]; intros Hnd Hall results0 log.
  - exists [], results0, (Return ()). split_and!; try done.
    + by intros ?? ?%elem_of_nil.
    + by rewrite app_nil_r.
    + by intros ? ?%elem_of_nil.
  - simpl in Hnd, Hall. apply NoDup_app in Hnd as (Hnd1 & Hdisj & Hnd2).
    destruct (execute_level_spec c lvl Hacyc Hnd1) with (results0 := results0) (log := log)
      as (hist1 & results1 & o1 & Hfst1 & Hhist1 & Hrun1 & Hother1 & Ho1).
    { intros n Hn. apply Hall, elem_of_app. by left. }
    rewrite for_each_cons, Hrun1. destruct o1 as [[]|e].
    + destruct (IH Hnd2) with (results0 := results1)
        (log := log ++ run_events (execution_id c) hist1)
        as (hist & results' & o & Hhist & Hrun & Hother & Ho).
      { intros n Hn. apply Hall, elem_of_app. by right. }
      exists (hist1 ++ hist), results', o.
      assert (Hkeep : ∀ h, h ∈ hist1 → filed (ctx_workflow_def c) results' h).
      { intros h Hh. eapply filed_ext; [|by apply Ho1].
        apply Hother, Hdisj. rewrite <- Hfst1. apply list_elem_of_fmap. eauto. }
      split_and!.
      * intros n r [?|?]%elem_of_app; [by apply Hhist1|by apply Hhist].
      * by rewrite run_events_app, app_assoc.
      * intros n Hn. simpl in Hn. rewrite Hother, Hother1; set_solver.
      * destruct o as [[]|e].
        -- destruct Ho as [Hfst Hfiled]. split.
           ++ by rewrite fmap_app, Hfst1, Hfst.
           ++ intros h [?|?]%elem_of_app; auto.
        -- destruct Ho as (fin & lvl' & rest & n & -> & Hfst & Hfiled & Hn & Hraised).
           exists (lvl :: fin), lvl', rest, n. split_and!; [done| | |done|].
           ++ rewrite fmap_app, Hfst1, Hfst. simpl. by rewrite <- !app_assoc.
           ++ intros h [Hh|Hh]%elem_of_app Hfin; [by apply Hkeep|].
              apply Hfiled; [done|]. simpl in Hfin.
              apply elem_of_app in Hfin as [Hl|?]; [|done]. exfalso.
              apply (Hdisj h.1 Hl). rewrite concat_app. apply elem_of_app.
              assert (Hin : h.1 ∈ hist.*1) by (apply list_elem_of_fmap; eauto).
              rewrite Hfst in Hin. apply elem_of_app in Hin as [?|?]; [by left|].
              right. simpl. apply elem_of_app. by left.
           ++ destruct Hraised as (e0 & ? & ? & ?). exists e0.
              split_and!; [|done..]. apply elem_of_app. by right.
    + exists hist1, results1, (Raise e). split_and!; [done..| |].
      * intros n Hn. apply Hother1. simpl in Hn. set_solver.
      * destruct Ho1 as [n Hraised]. exists [], lvl, levels, n.
        split_and!; [done|by rewrite Hfst1| | |done].
        -- by intros ? _ ?%elem_of_nil.
        -- destruct Hraised as (e0 & Hin & _). rewrite <- Hfst1.
           apply list_elem_of_fmap. by exists (n, Raise e0).
Qed.

Lemma execute_workflow_nodes_unfold c log :
  _execute_workflow_nodes (c, log) =
  match _build_execution_plan (ctx_workflow_def c) with
  | Some (Return execution_plan) =>
      match for_each (execute_level (ctx_workflow_def c)) execution_plan
              (set_node_results ∅ c, log) with
      | Some ((c', log'), Return _) =>
          Some ((c', log'), Return (_prepare_workflow_output c'))
      | Some (st', Raise e) => Some (st', Raise e)
      | None => None
      end
  | Some (Raise e) => Some ((c, log), Raise e)
  | None => None
  end.
Proof.
  unfold _execute_workflow_nodes, mbind, M_bind, get_context, bounded, of_outcome,
    modify_context, mret, M_ret. simpl.
  destruct (_build_execution_plan (ctx_workflow_def c)) as [[plan|e]|]; [|done..].
  by destruct (for_each _ plan _) as [[[c' log'] [[]|e]]|].
Qed.

(** [_execute_workflow_nodes] on an initialized context of a well-formed
    definition. *)
Lemma execute_workflow_nodes_spec c log :
  edges_nonempty (ctx_workflow_def c) → edges_in_nodes (ctx_workflow_def c) →
  acyclic (ctx_workflow_def c) → initialized c →
  ∃ plan hist results' o,
    _build_execution_plan (ctx_workflow_def c) = Some (Return plan)
    ∧ plan_correct (ctx_workflow_def c) plan
    ∧ history_of c hist
    ∧ _execute_workflow_nodes (c, log)
      = Some ((set_node_results results' c,
               log ++ run_events (execution_id c) hist), o)
    ∧ run_verdict (ctx_workflow_def c) plan hist results' o.
Proof.
  intros Hne Hin Hacyc Hinit.
  destruct (build_execution_plan_acyclic _ Hne Hin Hacyc) as (plan & Hplan & Hcorrect).
  pose proof Hcorrect as (Hnd & Hmem & _).
  destruct (levels_spec c plan Hacyc Hnd) with (results0 := (∅ : gmap string value))
    (log := log) as (hist & results' & o & Hhist & Hrun & _ & Ho).
  { intros n Hn. apply Hinit. by apply Hmem. }
  exists plan, hist, results'.
  rewrite execute_workflow_nodes_unfold, Hplan, Hrun.
  destruct o as [[]|e].
  - exists (Return (_prepare_workflow_output (set_node_results results' c))).
    by split_and!.
  - exists (Raise e). by split_and!.
Qed.

(** *** Initialization *)

Lemma initialize_node_inv reg node c log c' log' :
  initialize_node reg node (c, log) = Some ((c', log'), Return ()) →
  log' = log ∧ ∃ inst, c' = set_active_node node.1 inst c.
Proof.
  unfold initialize_node, mbind, M_bind, of_outcome, try_except, raise,
    modify_context.
  destruct (nd_type node.2) as [node_type|]; [|done].
  destruct (truthy node_type); [|done].
  destruct (create_node _ _ _ _) as [[inst|]|e]; simpl; [|done..].
  destruct (configure inst _ _) as [inst'|e]; simpl; [|done].
  intros [= <- <-]. eauto.
Qed.

Lemma for_each_initialize_inv reg l :
  ∀ c log c' log',
    for_each (initialize_node reg) l (c, log) = Some ((c', log'), Return ()) →
    log' = log ∧ same_run c c' ∧ status c' = status c
    ∧ (∀ n, n ∈ l.*1 → is_Some (active_nodes c' !! n))
    ∧ (∀ n, is_Some (active_nodes c !! n) → is_Some (active_nodes c' !! n)).
Proof.
  induction l as [|node l IH]; intros c log c' log'.
  - intros [= <- <-]. split_and!; try done. by intros ? ?%elem_of_nil.
  - rewrite for_each_cons.
    destruct (initialize_node reg node (c, log)) as [[[c1 log1] [[]|e]]|] eqn:Hinit;
      [|done..].
    apply initialize_node_inv in Hinit as [-> [inst ->]].
    intros (-> & Hsame & Hstatus & Hl & Hkeep)%IH.
    split_and!; [done|exact Hsame|exact Hstatus| |].
    + intros n [->|Hn]%elem_of_cons; [|by apply Hl].
      apply Hkeep. simpl. by rewrite lookup_insert_eq.
    + intros n Hn. apply Hkeep. simpl.
      destruct (decide (node.1 = n)) as [->|?];
        [by rewrite lookup_insert_eq|by rewrite lookup_insert_ne].
Qed.

Lemma initialize_workflow_nodes_inv reg c log c' log' :
  _initialize_workflow_nodes reg (c, log) = Some ((c', log'), Return ()) →
  log' = log ∧ same_run c c' ∧ status c' = status c ∧ initialized c'.
Proof.
  unfold _initialize_workflow_nodes, mbind, M_bind, get_context. simpl.
  intros (-> & Hsame & Hstatus & Hl & _)%for_each_initialize_inv.
  split_and!; try done. intros n Hn. apply Hl.
  destruct Hsame as (_ & _ & Hwf & _). by rewrite Hwf in Hn.
Qed.

Lemma execute_workflow_internal_unfold eng c t0 t1 c1 log1 :
  _initialize_workflow_nodes (node_registry eng)
    (set_started t0 c, events eng ++ [WorkflowStart (execution_id c)])
  = Some ((c1, log1), Return ()) →
  _execute_workflow_internal eng c t0 t1 =
  match _execute_workflow_nodes (c1, log1) with
  | None => None
  | Some ((c2, log2), Return result) =>
      Some (with_run_result eng COMPLETED (workflow_id c) (execution_id c)
              (retry_counts eng)
              (log2 ++ [WorkflowComplete (execution_id c)]),
            set_finished "completed" (error c2) t1 c2, Return result)
  | Some ((c2, log2), Raise e) =>
      Some (with_run_result eng FAILED (workflow_id c) (execution_id c)
              (count_retry (ctx_workflow_def c) (execution_id c) (retry_counts eng))
              (log2 ++ [WorkflowFailed (execution_id c) (str_of_exn e)]),
            set_finished "failed" (Some (str_of_exn e)) t1 c2,
            Raise (wrap_workflow_error e))
  end.
Proof.
  intros Hinit. unfold _execute_workflow_internal.
  unfold mbind at 1 2 3. unfold M_bind, modify_context, log_execution_event.
  simpl. rewrite Hinit.
  by destruct (_execute_workflow_nodes (c1, log1)) as [[[c2 log2] [result|e]]|].
Qed.



(** A run of an initialized context of a well-formed definition, in full:
    it always ends; its events are those of a history of executions; and it
    either completes with every node executed and filed, or fails in the
    level of a required node that raised. *)
Lemma execute_workflow_internal_spec eng c t0 t1 c1 log1 :
  edges_nonempty (ctx_workflow_def c) → edges_in_nodes (ctx_workflow_def c) →
  acyclic (ctx_workflow_def c) →
  _initialize_workflow_nodes (node_registry eng)
    (set_started t0 c, events eng ++ [WorkflowStart (execution_id c)])
  = Some ((c1, log1), Return ()) →
  ∃ eng' c' o plan hist,
    _execute_workflow_internal eng c t0 t1 = Some (eng', c', wrapped_outcome o)
    ∧ _build_execution_plan (ctx_workflow_def c) = Some (Return plan)
    ∧ plan_correct (ctx_workflow_def c) plan
    ∧ history_of c1 hist
    ∧ events eng'
      = events eng ++ [WorkflowStart (execution_id c)]
        ++ run_events (execution_id c) hist
        ++ [closing_event (execution_id c) o]
    ∧ run_verdict (ctx_workflow_def c) plan hist (node_results c') o
    ∧ status c' = final_status o
    ∧ get_workflow_status eng' (workflow_id c) = Some (final_status o).
Proof.
  intros Hne Hin Hacyc Hinit.
  pose proof (execute_workflow_internal_unfold _ _ _ t1 _ _ Hinit) as Hunfold.
  apply initialize_workflow_nodes_inv in Hinit
    as (-> & (Hwid & Heid & Hwf & _) & _ & Hinitd).
  simpl in Hwid, Heid, Hwf. rewrite <- Hwf in Hne, Hin, Hacyc.
  destruct (execute_workflow_nodes_spec c1
              (events eng ++ [WorkflowStart (execution_id c)]) Hne Hin Hacyc Hinitd)
    as (plan & hist & results' & o & Hplan & Hcorrect & Hhist & Hrun & Hverdict).
  rewrite Hwf in Hplan, Hcorrect, Hverdict. rewrite Heid in Hrun.
  rewrite Hrun in Hunfold. destruct o as [out|e].
  - eexists _, _, (Return out), plan, hist.
    split_and!; [exact Hunfold|done..| |done|done|].
    + simpl. by rewrite <- !app_assoc.
    + unfold get_workflow_status. simpl. by rewrite lookup_insert_eq.
  - eexists _, _, (Raise e), plan, hist.
    split_and!; [exact Hunfold|done..| |done|done|].
    + simpl. by rewrite <- !app_assoc.
    + unfold get_workflow_status. simpl. by rewrite lookup_insert_eq.
Qed.

Lemma wrap_workflow_error_is_workflow_error e :
  ∃ msg, wrap_workflow_error e = WorkflowError msg.
Proof. destruct e; simpl; eauto. Qed.

Lemma started_nodes_of_run evs eid hist o :
  started_nodes (evs ++ [WorkflowStart eid] ++ run_events eid hist
                 ++ [closing_event eid o])
  = started_nodes evs ++ hist.*1.
Proof.
  rewrite !started_nodes_app, started_nodes_run_events.
  destruct o; simpl; by rewrite app_nil_r.
Qed.

Lemma raised_in_history_fst (hist : list (string * outcome value)) n r :
  (n, r) ∈ hist → n ∈ hist.*1.
Proof. intros Hin. apply list_elem_of_fmap. by exists (n, r). Qed.



(** ** Proofs about validation, engine bookkeeping and the registry *)



(** Once [_execute_workflow_internal] is over the execution is no longer
    listed, whatever the outcome; a failure leaves the context and the
    workflow marked failed and surfaces as a [WorkflowError]. *)
Lemma execute_workflow_internal_finally eng c t0 t1 eng' c' o :
  _execute_workflow_internal eng c t0 t1 = Some (eng', c', o) →
  get_execution_status eng' (execution_id c) = None
  ∧ (∀ e, o = Raise e →
       status c' = "failed"
       ∧ get_workflow_status eng' (workflow_id c) = Some "failed"
       ∧ ∃ msg, e = WorkflowError msg).
Proof.
  unfold _execute_workflow_internal. cbv zeta.
  match goal with
  | |- match ?body with _ => _ end = _ → _ =>
      destruct body as [[[c1 log1] [result|e0]]|]; [| |done]
  end.
  - intros [= <- <- <-]. split; [|done].
    unfold get_execution_status. simpl. by rewrite lookup_delete_eq.
  - intros [= <- <- <-]. split.
    + unfold get_execution_status. simpl. by rewrite lookup_delete_eq.
    + intros e [= <-]. split_and!; [done| |].
      * unfold get_workflow_status. simpl. by rewrite lookup_insert_eq.
      * destruct e0; simpl; eauto.
Qed.

(** The permit taken for the launch is back as soon as the task exists. *)
Lemma launch_under_semaphore_releases eng wid eid c eng' eid' :
  launch_under_semaphore eng wid eid c = Launched eng' eid' →
  semaphore_value eng' = semaphore_value eng
  ∧ scheduled_tasks eng' = scheduled_tasks eng ++ [eid]
  ∧ active_executions eng' = <[eid := c]> (active_executions eng).
Proof.
  unfold launch_under_semaphore. simpl. case_bool_decide; [|done].
  intros [= <- <-]. simpl. split_and!; [lia|done..].
Qed.

Lemma create_node_spec reg type_name args kwargs :
  (node_types reg !! type_name = None →
     create_node reg type_name args kwargs = Return None)
  ∧ (∀ cls, node_types reg !! type_name = Some cls →
       create_node reg type_name args kwargs
       = match construct cls args kwargs with
         | Return inst => Return (Some inst)
         | Raise e => Raise e
         end).
Proof. unfold create_node. split; [by intros ->|by intros cls ->]. Qed.

(** *** Tools for concrete definitions *)

Lemma edges_nonempty_Forall wf :
  Forall (λ e, source e ≠ "" ∧ target e ≠ "") (edges wf) → edges_nonempty wf.
Proof. intros HF e He. by eapply Forall_forall in HF. Qed.

Lemma edges_in_nodes_Forall wf :
  Forall (λ e, source e ∈ node_ids wf ∧ target e ∈ node_ids wf) (edges wf) →
  edges_in_nodes wf.
Proof. intros HF e He. by eapply Forall_forall in HF. Qed.


(** A rank that grows along every edge rules out cycles. *)
Lemma acyclic_by_rank wf (rank : string → nat) :
  Forall (λ e, rank (source e) < rank (target e)) (edges wf) → acyclic wf.
Proof.
  intros HF. assert (Hlt : ∀ x y, tc (edge_rel wf) x y → rank x < rank y).
  { induction 1 as [x y (e & He & <- & <-)|x y z (e & He & <- & <-) _ IH].
    - by eapply Forall_forall in HF.
    - eapply Forall_forall in HF; [|done]. simpl in HF. lia. }
  intros n Hn. apply Hlt in Hn. lia.
Qed.

(** * The properties of the specification *)

(** ** C1: leveled topological order *)

(** C1, as the specification words it, fails: a node map may have the empty
    string as a key, and the planner passes over every edge whose source or
    target is falsy.  For the nodes [""] and ["b"] with the edge [""] to
    ["b"] the plan is the single level [["b"; ""]], so the edge is not
    ordered. *)
Lemma planner_property_fails_on_empty_id :
  ¬ planner_property_as_specified empty_id_wf.
Proof.
  intros Hspec. destruct Hspec as (plan & Hplan & _ & _ & Hord).
  - apply edges_in_nodes_Forall. compute_done.
  - apply (acyclic_by_rank _ (rank_table [("b", 1)])). compute_done.
  - assert (Hp : plan = [["b"; ""]]) by (vm_compute in Hplan; congruence).
    subst plan.
    destruct (Hord (mk_edge "" "b")) as (i & j & Hi & Hj & Hij); [by left|].
    apply in_level_lt in Hi, Hj. simpl in Hi, Hj. lia.
Qed.

(** C1 (amended): for every acyclic workflow definition whose edges have
    non-empty sources and targets that are keys of the node map,
    [_build_execution_plan] returns levels whose concatenation contains every
    node id exactly once, and every edge's source sits in a level with a
    strictly smaller index than its target. *)
Theorem planner_levels_respect_edges (wf : workflow_def) :
  edges_nonempty wf → edges_in_nodes wf → acyclic wf →
  ∃ plan, _build_execution_plan wf = Some (Return plan) ∧ plan_correct wf plan.
Proof. apply build_execution_plan_acyclic. Qed.

Lemma planner_levels_respect_edges_diamond :
  ∃ plan, _build_execution_plan diamond = Some (Return plan)
    ∧ plan_correct diamond plan.
Proof.
  apply (planner_levels_respect_edges diamond).
  - apply edges_nonempty_Forall. compute_done.
  - apply edges_in_nodes_Forall. compute_done.
  - apply (acyclic_by_rank _ (rank_table [("B", 1); ("C", 1); ("D", 2)])).
    compute_done.
Defined.

(** ** C2: required-node failure policy *)





(** ** C3: retry policy *)



(** ** C4: dotted-path extraction *)

(** C4: the dotted-path extraction used for node-input routing and for
    workflow-output assembly is a total function: path ["a.b"] on the result
    [{a: {b: 5}}] yields [5]; whenever every step resolves to a dictionary
    key the value reached is returned; and whenever some step fails to
    resolve, the extraction yields [None].  No input makes it raise. *)
Theorem extract_path_total :
  extract_path "a.b" (VDict {[ "a" := VDict {[ "b" := VInt 5 ]} ]}) = VInt 5
  ∧ ∀ result output_path,
      (∀ v, resolves result (split_on "." output_path) v →
            extract_path output_path result = v)
      ∧ ((¬ ∃ v, resolves result (split_on "." output_path) v) →
         extract_path output_path result = VNone).
Proof.
  split; [by vm_compute|]. intros result output_path. split.
  - intros v. apply extract_parts_resolves.
  - apply extract_parts_unresolved.
Qed.

(** ** C5: concurrency bound *)

(** C5 does not hold for the code: the permit of the execution semaphore is
    handed back as soon as the task of a run has been created, so it never
    bounds the runs.  With [max_concurrent_workflows = 1], two calls of
    [execute_workflow] back to back both return at once; afterwards both
    executions are listed as active with their tasks on the loop, while the
    semaphore is free again. *)
Theorem semaphore_released_at_launch :
  (∀ eng wid eid c eng' eid',
     launch_under_semaphore eng wid eid c = Launched eng' eid' →
     semaphore_value eng' = semaphore_value eng)
  ∧ ∃ eng1 eng2,
      execute_workflow (sample_engine 1) single_node_wf None "w1" "exec-1"
        = Some (Launched eng1 "exec-1")
      ∧ execute_workflow eng1 single_node_wf None "w2" "exec-2"
        = Some (Launched eng2 "exec-2")
      ∧ max_concurrent_workflows eng2 = 1%Z
      ∧ semaphore_value eng2 = 1%Z
      ∧ scheduled_tasks eng2 = ["exec-1"; "exec-2"]
      ∧ running_executions eng2 = 2
      ∧ status <$> active_executions eng2 !! "exec-1" = Some "created"
      ∧ status <$> active_executions eng2 !! "exec-2" = Some "created".
Proof.
  split.
  - intros eng wid eid c eng' eid' Hl.
    by apply launch_under_semaphore_releases in Hl as (? & _).
  - eexists _, _. split; [vm_compute; reflexivity|].
    split; [vm_compute; reflexivity|]. by vm_compute.
Qed.

(** ** C6: cycle reporting *)







(** ** C7: observing a failed run *)

(** C7, as the specification words it, fails: the [finally] clause of the run
    removes the execution from [active_executions], and [get_execution_status]
    knows no other store; after the failed run of the sample workflow the poll
    answers [None]. *)
Lemma failed_run_not_observable_by_polling :
  ¬ failure_observable_by_polling engine_with_failing_run failing_context 100 105.
Proof.
  intros Hobs.
  destruct (_execute_workflow_internal engine_with_failing_run failing_context
              100 105) as [[[eng' c'] [out|e]]|] eqn:Hrun.
  - vm_compute in Hrun. discriminate.
  - destruct (Hobs eng' c' e Hrun) as (d & Hd & _).
    apply execute_workflow_internal_finally in Hrun as [Hnone _]. congruence.
  - vm_compute in Hrun. discriminate.
Qed.

(** C7 (amended): after a workflow run has reached terminal failure,
    [get_execution_status(execution_id)] returns [None], because the
    execution has been removed from the active executions; the failure is
    recorded in the context (status ["failed"]) and is observable through
    [get_workflow_status(workflow_id)], which returns ["failed"]; the run's
    task ends with a [WorkflowError]. *)
Theorem failed_run_is_forgotten eng c t_start t_end eng' c' e :
  _execute_workflow_internal eng c t_start t_end = Some (eng', c', Raise e) →
  get_execution_status eng' (execution_id c) = None
  ∧ status c' = "failed"
  ∧ get_workflow_status eng' (workflow_id c) = Some "failed"
  ∧ ∃ msg, e = WorkflowError msg.
Proof.
  intros [Hnone Hfail]%execute_workflow_internal_finally.
  destruct (Hfail e eq_refl) as (? & ? & ?). by split_and!.
Qed.

Lemma failed_run_is_forgotten_sample :
  ∃ eng' c' e,
    _execute_workflow_internal engine_with_failing_run failing_context 100 105
      = Some (eng', c', Raise e)
    ∧ is_Some (get_execution_status engine_with_failing_run "exec-1")
    ∧ get_execution_status eng' "exec-1" = None
    ∧ status c' = "failed"
    ∧ get_workflow_status eng' "wf-fail" = Some "failed"
    ∧ ∃ msg, e = WorkflowError msg.
Proof.
  eexists _, _, _. split; [vm_compute; reflexivity|].
  split; [eexists; vm_compute; reflexivity|].
  apply (failed_run_is_forgotten engine_with_failing_run failing_context 100 105).
  vm_compute. reflexivity.
Defined.

(** ** C8: validation never raises *)


(** ** C9: creating nodes *)

(** C9, as the specification words it, fails: for a type name that is not
    registered [create_node] does not raise; it returns [None]. *)
Lemma create_node_unknown_type_does_not_raise :
  ¬ create_fails_with_unknown_type empty_registry "Bogus" [] ∅.
Proof. intros Hraise. destruct Hraise as [msg Hmsg]; [done|discriminate]. Qed.

(** C9 (amended): for every type name that has not been registered,
    [create_node] returns [None] instead of a node instance, without raising;
    for every registered type name it returns the instance the bound class
    constructs, and re-raises the constructor's exception if instantiation
    fails. *)
Theorem create_node_unknown_type_returns_none reg type_name args kwargs :
  (node_types reg !! type_name = None →
     create_node reg type_name args kwargs = Return None)
  ∧ (∀ cls, node_types reg !! type_name = Some cls →
       create_node reg type_name args kwargs
       = match construct cls args kwargs with
         | Return inst => Return (Some inst)
         | Raise e => Raise e
         end).
Proof. apply create_node_spec. Qed.

Lemma create_node_unknown_type_returns_none_sample :
  create_node sample_registry "Bogus" [] ∅ = Return None
  ∧ create_node sample_registry "Logger" [] ∅ = Return (Some (fresh_instance logger_run)).
Proof.
  split.
  - apply (proj1 (create_node_unknown_type_returns_none sample_registry "Bogus" [] ∅)).
    by vm_compute.
  - apply (proj2 (create_node_unknown_type_returns_none sample_registry "Logger" [] ∅)
             (NodeClass (λ _ _, Return (fresh_instance logger_run)))).
    by vm_compute.
Defined.

(** ** C10: private variables stay out of [to_dict] *)

(** C10: [to_dict] omits every variable whose name starts with an
    underscore: two execution contexts that are identical except in the
    values or the presence of underscore-prefixed variables have equal
    [to_dict()] dictionaries, although [get_variable] still returns the
    stored value of such a variable. *)
Theorem to_dict_hides_private_variables :
  (∀ c vars, same_public_variables (variables c) vars →
             to_dict (with_variables c vars) = to_dict c)
  ∧ (∀ c name v default_value,
       is_private name = true →
       to_dict (set_variable c name v) = to_dict c
       ∧ get_variable (set_variable c name v) name default_value = v).
Proof.
  split.
  - intros c vars Hsame. unfold to_dict. simpl.
    by rewrite (public_variables_ext _ _ Hsame).
  - intros c name v d Hname. split.
    + unfold to_dict, set_variable. simpl.
      rewrite (public_variables_ext _ (variables c)); [done|].
      by apply same_public_variables_insert.
    + unfold get_variable, set_variable. simpl. by rewrite lookup_insert_eq.
Qed.

Lemma to_dict_hides_private_variables_sample :
  to_dict (set_variable failing_context "_token" (VStr "s3cret"))
    = to_dict failing_context
  ∧ get_variable (set_variable failing_context "_token" (VStr "s3cret"))
      "_token" VNone = VStr "s3cret".
Proof.
  apply (proj2 to_dict_hides_private_variables failing_context "_token"
           (VStr "s3cret") VNone).
  reflexivity.
Defined.

(** * Further properties of the code *)

(** ** The planner on arbitrary definitions *)

Lemma recorded_edge_preds wf (s t : string) :
  recorded_edge wf s t ↔ s ∈ preds (edges wf) t.
Proof.
  rewrite elem_of_preds. unfold recorded_edge. split.
  - intros (e & He & <- & <- & Hs & Ht). exists e. split_and!; try done.
    apply andb_true_iff. by rewrite !truthy_true.
  - intros (e & He & [Hs Ht]%andb_true_iff & <- & <-).
    apply truthy_true in Hs, Ht. by exists e.
Qed.

Lemma in_level_unique (plan : list (list string)) (n : string) i j :
  NoDup (concat plan) → in_level plan n i → in_level plan n j → i = j.
Proof.
  revert i j. induction plan as [|l plan IH]; intros i j Hnd Hi Hj.
  - by destruct Hi as (? & ? & _).
  - simpl in Hnd. apply NoDup_app in Hnd as (_ & Hdisj & Hnd).
    destruct Hi as (li & Hli & Hni), Hj as (lj & Hlj & Hnj).
    destruct i as [|i], j as [|j]; simplify_eq/=; [done| | |].
    + exfalso. apply (Hdisj n Hni). apply elem_of_concat_in_level.
      by exists j, lj.
    + exfalso. apply (Hdisj n Hnj). apply elem_of_concat_in_level.
      by exists i, li.
    + f_equal. apply IH; [done|by exists li|by exists lj].
Qed.

(** A relation that a plan orders strictly has no cycle. *)
Lemma ordered_acyclic (R : relation string) (plan : list (list string)) :
  NoDup (concat plan) →
  (∀ s t, R s t → ∃ i j, in_level plan s i ∧ in_level plan t j ∧ i < j) →
  ∀ n, ¬ tc R n n.
Proof.
  intros Hnd Hord.
  assert (Htc : ∀ x y, tc R x y →
            ∃ i j, in_level plan x i ∧ in_level plan y j ∧ i < j).
  { induction 1 as [x y Hxy|x y z Hxy _ (j' & k & Hj' & Hk & Hlt)]; [by apply Hord|].
    destruct (Hord _ _ Hxy) as (i & j & Hi & Hj & Hij).
    rewrite (in_level_unique plan y j j' Hnd Hj Hj') in Hij.
    exists i, k. split_and!; [done..|lia]. }
  intros n (i & j & Hi & Hj & Hij)%Htc.
  rewrite (in_level_unique plan n i j Hnd Hi Hj) in Hij. lia.
Qed.

Lemma add_dependencies_outcome es (deps : gmap string (gset string)) :
  match add_dependencies es deps with
  | Return deps' =>
      (∀ e, e ∈ es → source e ≠ "" → target e ≠ "" → target e ∈ dom deps)
      ∧ ∀ n, deps' !! n = (λ s0, preds es n ∪ s0) <$> (deps !! n)
  | Raise e =>
      ∃ ed, ed ∈ es ∧ source ed ≠ "" ∧ target ed ≠ ""
            ∧ target ed ∉ dom deps ∧ e = KeyError (target ed)
  end.
Proof.
  revert deps. induction es as [|e es IH]; intros deps; simpl.
  - split; [by intros ? ?%elem_of_nil|].
    intros n. destruct (deps !! n) as [s0|]; simpl; [|done].
    f_equal. unfold preds. set_solver.
  - destruct (truthy (source e) && truthy (target e)) eqn:Htr.
    + destruct (deps !! target e) as [s0|] eqn:Hlk.
      * specialize (IH (<[target e := {[source e]} ∪ s0]> deps)).
        assert (Hdom : dom (<[target e := {[source e]} ∪ s0]> deps) = dom deps).
        { rewrite dom_insert_L. apply elem_of_dom_2 in Hlk. set_solver. }
        rewrite Hdom in IH.
        destruct (add_dependencies es _) as [deps'|ex].
        -- destruct IH as [IHdom IH]. split.
           { intros e' [->|He']%elem_of_cons; [|by apply IHdom].
             intros _ _. by apply elem_of_dom_2 in Hlk. }
           intros n. rewrite IH, preds_cons.
           destruct (decide (target e = n)) as [<-|Hne].
           ++ rewrite lookup_insert_eq, Hlk. simpl. f_equal.
              rewrite decide_True by done. set_solver.
           ++ rewrite lookup_insert_ne by done.
              rewrite decide_False by (intros [_ ?]; done).
              destruct (deps !! n); simpl; [f_equal; set_solver|done].
        -- destruct IH as (ed & Hed & Hs & Ht & Hnd & ->).
           exists ed. split_and!; [by right|done..].
      * apply andb_true_iff in Htr as [Hs Ht]. apply truthy_true in Hs, Ht.
        exists e. split_and!; [by left|done..| |done].
        by apply not_elem_of_dom.
    + specialize (IH deps). destruct (add_dependencies es deps) as [deps'|ex].
      * destruct IH as [IHdom IH]. split.
        { intros e' [->|He']%elem_of_cons; [|by apply IHdom].
          intros Hs%truthy_true Ht%truthy_true. rewrite Hs, Ht in Htr. done. }
        intros n. rewrite IH, preds_cons.
        rewrite decide_False by (intros [? _]; congruence).
        destruct (deps !! n); simpl; [f_equal; set_solver|done].
      * destruct IH as (ed & Hed & Hs & Ht & Hdom & ->).
        exists ed. split_and!; [by right|done..].
Qed.

Section plan_loop_outcome.

Context (wf : workflow_def).

Lemma plan_ordered_step_recorded deps rem acc :
  plan_inv wf deps rem acc → plan_ordered wf acc →
  plan_ordered wf (acc ++ [find_level deps rem]).
Proof.
  intros (Hsub & Hdeps & Hnd & Hmem) Hord s t Hst.
  rewrite concat_app, elem_of_app. simpl. rewrite app_nil_r. intros [Ht|Ht].
  - destruct (Hord s t Hst Ht) as (i & j & ? & ? & ?).
    exists i, j. split_and!; [by apply in_level_app_l..|done].
  - apply elem_of_find_level in Ht as [Ht Hempty].
    rewrite (lookup_total_correct _ _ _ (Hdeps t Ht)) in Hempty.
    assert (Hs : s ∈ concat acc).
    { apply Hmem.
      destruct (decide (s ∈ (list_to_set (node_ids wf) : gset string) ∖ rem))
        as [Hin|Hout]; [set_solver|].
      exfalso. assert (s ∈ (∅ : gset string)); [|set_solver].
      rewrite <- Hempty. set_solver. }
    apply elem_of_concat_in_level in Hs as [i Hi].
    exists i, (length acc). split_and!.
    + by apply in_level_app_l.
    + apply in_level_app_r. apply elem_of_find_level. split; [done|].
      by rewrite (lookup_total_correct _ _ _ (Hdeps t Ht)).
    + by eapply in_level_lt.
Qed.

Lemma in_level_snoc (acc : list (list string)) l (n : string) k :
  in_level (acc ++ [l]) n k ↔
  in_level acc n k ∨ (k = length acc ∧ n ∈ l).
Proof.
  unfold in_level. split.
  - intros (l' & Hl & Hn). destruct (decide (k < length acc)) as [Hlt|Hge].
    + left. exists l'. by rewrite lookup_app_l in Hl.
    + right. rewrite lookup_app_r in Hl by lia.
      apply list_lookup_singleton_Some in Hl as [Hk ->]. split; [lia|done].
  - intros [(l' & Hl & Hn)|[-> Hn]].
    + exists l'. split; [|done]. by apply lookup_app_l_Some.
    + exists l. split; [|done]. rewrite lookup_app_r by lia.
      by rewrite Nat.sub_diag.
Qed.

Lemma find_level_ready deps rem acc (n : string) :
  plan_inv wf deps rem acc →
  (n ∈ find_level deps rem ↔
   n ∈ rem ∧ preds (edges wf) n ∖ (list_to_set (node_ids wf) ∖ rem) = ∅).
Proof.
  intros (_ & Hdeps & _). rewrite elem_of_find_level. split.
  - intros [Hn Hempty]. split; [done|].
    by rewrite (lookup_total_correct _ _ _ (Hdeps n Hn)) in Hempty.
  - intros [Hn Hempty]. split; [done|].
    by rewrite (lookup_total_correct _ _ _ (Hdeps n Hn)).
Qed.

Lemma levels_earliest_step deps rem acc :
  plan_inv wf deps rem acc → plan_waiting wf rem acc → levels_earliest wf acc →
  find_level deps rem ≠ [] →
  levels_earliest wf (acc ++ [find_level deps rem])
  ∧ plan_waiting wf (rem ∖ list_to_set (find_level deps rem))
      (acc ++ [find_level deps rem]).
Proof.
  intros Hinv [Hstart Hwait] (Hne & Hfirst & Hfirst' & Hnext) HL.
  pose proof (find_level_ready deps rem acc) as Hready.
  destruct Hinv as (Hsub & Hdeps & Hnd & Hmem).
  assert (Hinv : plan_inv wf deps rem acc) by done.
  set (L := find_level deps rem) in *.
  assert (Hplanned : ∀ p n, n ∈ L → p ∈ preds (edges wf) n → p ∈ concat acc).
  { intros p n [Hn Hempty]%Hready Hp; [|done]. apply Hmem.
    destruct (decide (p ∈ (list_to_set (node_ids wf) : gset string) ∖ rem))
      as [Hin|Hout]; [set_solver|].
    exfalso. assert (p ∈ (∅ : gset string)); [|set_solver].
    rewrite <- Hempty. set_solver. }
  split; [split_and!|split].
  - intros l [Hl|Hl%list_elem_of_singleton]%elem_of_app; [by apply Hne|].
    by subst l.
  - intros n [Hn|[Hlen Hn]]%in_level_snoc; [by apply Hfirst|].
    symmetry in Hlen. apply length_zero_iff_nil in Hlen.
    specialize (Hstart Hlen). apply Hready in Hn as [Hn Hempty]; [|done].
    split; [set_solver|]. rewrite Hstart in Hempty. set_solver.
  - intros _ n Hn Hnone. destruct acc as [|l0 acc0].
    + apply in_level_snoc. right. split; [done|]. apply Hready; [done|].
      rewrite (Hstart eq_refl). split; [set_solver|]. rewrite Hnone. set_solver.
    + apply in_level_app_l. by apply Hfirst'.
  - intros n i [Hn|[Hlen Hn]]%in_level_snoc.
    + destruct (Hnext n i Hn) as (p & Hp & Hpi). exists p. split; [done|].
      by apply in_level_app_l.
    + destruct (decide (acc = [])) as [->|Hacc]; [done|].
      destruct (exists_last Hacc) as (acc' & l' & ->).
      rewrite length_app in Hlen. simpl in Hlen.
      assert (i = length acc') as -> by lia.
      assert (Hnrem : n ∈ rem) by (by apply Hready in Hn as [? _]).
      destruct (Hwait acc' l' eq_refl n Hnrem) as (p & Hp & Hnot).
      exists p. split; [done|]. apply in_level_app_l.
      apply in_level_snoc. right. split; [done|].
      specialize (Hplanned p n Hn Hp). rewrite concat_app in Hplanned.
      simpl in Hplanned. rewrite app_nil_r in Hplanned.
      by apply elem_of_app in Hplanned as [?|?].
  - intros Hnil. by destruct acc.
  - intros acc' l [<- <-]%app_inj_tail n [Hn HnL]%elem_of_difference.
    rewrite elem_of_list_to_set in HnL.
    assert (Hne' : preds (edges wf) n ∖ (list_to_set (node_ids wf) ∖ rem) ≠ ∅).
    { intros Hempty. apply HnL. by apply Hready. }
    apply set_choose_L in Hne' as [p Hp]. exists p. split; [set_solver|].
    intros Hin%Hmem. set_solver.
Qed.

Lemma plan_loop_done deps acc :
  plan_inv wf deps ∅ acc → plan_waiting wf ∅ acc →
  NoDup (concat acc)
  ∧ (∀ n, n ∈ concat acc ↔ n ∈ node_ids wf)
  ∧ (acc = [] → node_ids wf = []).
Proof.
  intros (_ & _ & Hnd & Hmem) [Hstart _]. split_and!; [done| |].
  - intros n. rewrite Hmem, elem_of_list_to_set. set_solver.
  - intros Hnil. specialize (Hstart Hnil).
    destruct (node_ids wf) as [|x l]; [done|].
    assert (x ∈ (∅ : gset string)); [|set_solver].
    rewrite Hstart. set_solver.
Qed.

Lemma plan_loop_outcome fuel deps rem acc :
  size rem ≤ fuel → plan_inv wf deps rem acc → plan_ordered wf acc →
  plan_waiting wf rem acc → levels_earliest wf acc →
  ∃ o, plan_loop fuel deps rem acc = Some o
    ∧ match o with
      | Return plan =>
          NoDup (concat plan)
          ∧ (∀ n, n ∈ concat plan ↔ n ∈ node_ids wf)
          ∧ plan_ordered wf plan
          ∧ levels_earliest wf plan
          ∧ (plan = [] → node_ids wf = [])
      | Raise e =>
          ∃ stranded : gset string,
            e = WorkflowError (cyclic_dependency_message stranded)
            ∧ stranded ≠ ∅
            ∧ ∀ n, n ∈ stranded →
                n ∈ node_ids wf
                ∧ ∃ p, p ∈ preds (edges wf) n
                       ∧ (p ∈ stranded ∨ p ∉ node_ids wf)
      end.
Proof.
  revert deps rem acc.
  induction fuel as [|fuel IH]; intros deps rem acc Hsize Hinv Hord Hwait Hearly;
    rewrite plan_loop_unfold; destruct (decide (rem = ∅)) as [->|Hne].
  1,3: exists (Return acc); split; [done|];
       destruct (plan_loop_done deps acc Hinv Hwait) as (? & ? & ?); by split_and!.
  - apply size_nonempty in Hne. lia.
  - destruct (find_level deps rem) as [|x l] eqn:HL.
    + eexists. split; [done|]. exists (rem ∖ list_to_set []).
      assert (Hrem : rem ∖ list_to_set [] = rem) by set_solver.
      rewrite Hrem. split_and!; [done..|].
      intros n Hn. pose proof Hinv as (Hsub & _ & _).
      split; [specialize (Hsub n Hn); set_solver|].
      assert (Hne' : preds (edges wf) n ∖ (list_to_set (node_ids wf) ∖ rem) ≠ ∅).
      { intros Hempty.
        assert (n ∈ find_level deps rem) by (by eapply find_level_ready).
        rewrite HL in H. by apply elem_of_nil in H. }
      apply set_choose_L in Hne' as [p Hp]. exists p. split; [set_solver|].
      destruct (decide (p ∈ rem)); [by left|right]. set_solver.
    + rewrite <- HL in *.
      destruct (levels_earliest_step deps rem acc Hinv Hwait Hearly) as [? ?].
      { rewrite HL. done. }
      apply IH; [|by apply plan_inv_step|by apply plan_ordered_step_recorded|done..].
      assert (size (rem ∖ list_to_set (find_level deps rem)) < size rem); [|lia].
      apply subset_size. apply strict_spec. split; [set_solver|].
      intros Hsubs. assert (Hx : x ∈ find_level deps rem) by (rewrite HL; left).
      assert (x ∈ rem) by (by apply elem_of_find_level in Hx as [? _]).
      specialize (Hsubs x). set_solver.
Qed.

End plan_loop_outcome.

(** [_build_execution_plan] on any definition: it always comes to an
    outcome, which is as [planner_verdict] says, and a plan is the earliest
    one. *)
Lemma build_execution_plan_outcome wf :
  ∃ o, _build_execution_plan wf = Some o
    ∧ planner_verdict wf o
    ∧ ∀ plan, o = Return plan → plan_earliest wf plan.
Proof.
  unfold _build_execution_plan.
  pose proof (add_dependencies_outcome (edges wf) (init_dependencies wf)) as Hadd.
  destruct (add_dependencies (edges wf) (init_dependencies wf)) as [deps|e].
  - destruct Hadd as [Htargets Hdeps].
    destruct (plan_inv_init wf deps Hdeps) as [Hdom Hinv].
    destruct (plan_loop_outcome wf (size (dom deps)) deps (dom deps) [])
      as (o & Hrun & Ho); [done|done| | | |].
    { intros s t _ Ht. by apply elem_of_nil in Ht. }
    { split; [done|]. intros acc' l Hnil. by destruct acc'. }
    { split_and!; [by intros ? ?%elem_of_nil|by intros ? (? & ? & _)|done|
                   by intros ?? (? & ? & _)]. }
    exists o. split; [done|]. destruct o as [plan|e].
    + destruct Ho as (Hnd & Hmem & Hord & (Hne & Hfirst & Hfirst' & Hnext) & Hnil).
      assert (Hordered : ∀ s t, recorded_edge wf s t →
                ∃ i j, in_level plan s i ∧ in_level plan t j ∧ i < j).
      { intros s t Hst. apply Hord; [by apply recorded_edge_preds|].
        destruct Hst as (e & He & <- & <- & Hs & Ht). apply Hmem.
        specialize (Htargets e He Hs Ht).
        rewrite dom_init_dependencies in Htargets. set_solver. }
      split; [split_and!; [done..|]|].
      * by apply (ordered_acyclic _ plan).
      * intros ? [= <-]. split_and!; [done| |].
        -- intros n. split.
           ++ intros [Hn Hnone]%Hfirst. split; [done|].
              intros s Hs%recorded_edge_preds. set_solver.
           ++ intros [Hn Hnone]. apply Hfirst'; [|done|].
              ** intros ->. rewrite (Hnil eq_refl) in Hn. by apply elem_of_nil in Hn.
              ** apply set_eq. intros s. split; [|set_solver].
                 intros Hs%recorded_edge_preds. by destruct (Hnone s).
        -- intros n i Hn. destruct (Hnext n i Hn) as (p & Hp & Hpi).
           exists p. split; [by apply recorded_edge_preds|done].
    + destruct Ho as (stranded & -> & Hne & Hstr). split; [|done].
      exists stranded. split_and!; [done..|].
      intros n Hn. destruct (Hstr n Hn) as (? & p & Hp & Hor).
      split; [done|]. exists p. split; [by apply recorded_edge_preds|done].
  - destruct Hadd as (ed & Hed & Hs & Ht & Hdom & ->).
    eexists. split; [done|]. split; [|done]. simpl. split.
    + rewrite dom_init_dependencies in Hdom. set_solver.
    + exists (source ed). by exists ed.
Qed.

(** ** Validation and registration by the engine *)

Lemma check_all_Return {A} (f : A → outcome unit) (l : list A) u :
  check_all f l = Return u ↔ ∀ x, x ∈ l → f x = Return ().
Proof.
  destruct u. induction l as [|x l IH]; simpl.
  - split; [by intros _ ? ?%elem_of_nil|done].
  - destruct (f x) as [[]|e] eqn:Hx.
    + rewrite IH. split.
      * intros Hl y [->|Hy]%elem_of_cons; [done|by apply Hl].
      * intros Hl y Hy. apply Hl. by right.
    + split; [done|]. intros Hl. specialize (Hl x). rewrite Hx in Hl.
      discriminate Hl. by left.
Qed.

Lemma check_all_Raise {A} (f : A → outcome unit) (l : list A) e :
  check_all f l = Raise e → ∃ x, x ∈ l ∧ f x = Raise e.
Proof.
  induction l as [|x l IH]; simpl; [done|].
  destruct (f x) as [[]|e'] eqn:Hx.
  - intros (y & Hy & Hfy)%IH. exists y. split; [by right|done].
  - intros [= ->]. exists x. split; [by left|done].
Qed.

Lemma validate_node_for_engine_outcome reg node :
  match validate_node_for_engine reg node with
  | Return _ => node_type_registered reg node
  | Raise e => (∃ msg, e = WorkflowError msg) ∧ ¬ node_type_registered reg node
  end.
Proof.
  unfold validate_node_for_engine, node_type_registered.
  destruct (nd_type node.2) as [node_type|] eqn:Htype.
  - destruct (truthy node_type) eqn:Htr.
    + destruct (has_node_type reg node_type) eqn:Hhas.
      * exists node_type. split_and!; [done| |done]. by apply truthy_true.
      * split; [by eexists|]. intros (t & [= <-] & _ & Hreg). congruence.
    + split; [by eexists|]. intros (t & [= <-] & Hne%truthy_true & _). congruence.
  - split; [by eexists|]. by intros (t & [=] & _).
Qed.

Lemma validate_edge_for_engine_outcome wf e :
  match validate_edge_for_engine wf e with
  | Return _ =>
      source e ≠ "" ∧ target e ≠ ""
      ∧ source e ∈ node_ids wf ∧ target e ∈ node_ids wf
  | Raise ex =>
      (∃ msg, ex = WorkflowError msg)
      ∧ ¬ (source e ≠ "" ∧ target e ≠ ""
           ∧ source e ∈ node_ids wf ∧ target e ∈ node_ids wf)
  end.
Proof.
  unfold validate_edge_for_engine.
  destruct (truthy (source e)) eqn:Hs; simpl.
  - destruct (truthy (target e)) eqn:Ht; simpl.
    + apply truthy_true in Hs, Ht.
      destruct (bool_decide (source e ∉ node_ids wf)) eqn:Hsn.
      * apply bool_decide_eq_true in Hsn. split; [by eexists|tauto].
      * apply bool_decide_eq_false in Hsn.
        destruct (bool_decide (target e ∉ node_ids wf)) eqn:Htn.
        -- apply bool_decide_eq_true in Htn. split; [by eexists|tauto].
        -- apply bool_decide_eq_false in Htn.
           split_and!; [done..| |].
           ++ by destruct (decide (source e ∈ node_ids wf)).
           ++ by destruct (decide (target e ∈ node_ids wf)).
    + split; [by eexists|]. intros (_ & Hne%truthy_true & _). congruence.
  - split; [by eexists|]. intros (Hne%truthy_true & _). congruence.
Qed.

Lemma recorded_edge_edge_rel wf (s t : string) :
  edges_nonempty wf → (recorded_edge wf s t ↔ edge_rel wf s t).
Proof.
  intros Hne. rewrite recorded_edge_preds. by apply preds_edge_rel.
Qed.

(** [_validate_workflow_def] accepts exactly the valid definitions, and
    rejects the others with a [WorkflowError]. *)
Lemma validate_workflow_def_outcome reg wf :
  ∃ o, _validate_workflow_def reg wf = Some o
    ∧ match o with
      | Return _ => engine_valid reg wf
      | Raise e => (∃ msg, e = WorkflowError msg) ∧ ¬ engine_valid reg wf
      end.
Proof.
  unfold _validate_workflow_def. destruct (nodes wf) as [|node0 rest] eqn:Hnodes.
  { eexists. split; [done|]. split; [by eexists|]. by intros (? & _). }
  rewrite <- Hnodes.
  destruct (check_all (validate_node_for_engine reg) (nodes wf)) as [u|e] eqn:Hn.
  2:{ apply check_all_Raise in Hn as (node & Hin & Hraise).
      pose proof (validate_node_for_engine_outcome reg node) as Hnode.
      rewrite Hraise in Hnode. destruct Hnode as [Hmsg Hbad].
      eexists. split; [done|]. split; [done|].
      intros (_ & Hall & _). by apply Hbad, Hall. }
  assert (Hnodes_ok : ∀ node, node ∈ nodes wf → node_type_registered reg node).
  { intros node Hin. pose proof (validate_node_for_engine_outcome reg node) as Hnode.
    by rewrite (proj1 (check_all_Return _ _ _) Hn node Hin) in Hnode. }
  destruct (check_all (validate_edge_for_engine wf) (edges wf)) as [u'|e] eqn:He.
  2:{ apply check_all_Raise in He as (ed & Hin & Hraise).
      pose proof (validate_edge_for_engine_outcome wf ed) as Hedge.
      rewrite Hraise in Hedge. destruct Hedge as [Hmsg Hbad].
      eexists. split; [done|]. split; [done|].
      intros (_ & _ & Hne & Hin' & _). apply Hbad.
      destruct (Hne ed Hin), (Hin' ed Hin). done. }
  assert (Hedges_ok : ∀ ed, ed ∈ edges wf →
            source ed ≠ "" ∧ target ed ≠ ""
            ∧ source ed ∈ node_ids wf ∧ target ed ∈ node_ids wf).
  { intros ed Hin. pose proof (validate_edge_for_engine_outcome wf ed) as Hedge.
    by rewrite (proj1 (check_all_Return _ _ _) He ed Hin) in Hedge. }
  assert (Hne : edges_nonempty wf).
  { intros ed Hin. destruct (Hedges_ok ed Hin) as (? & ? & _). done. }
  assert (Hin : edges_in_nodes wf).
  { intros ed Hin. destruct (Hedges_ok ed Hin) as (_ & _ & ? & ?). done. }
  destruct (build_execution_plan_outcome wf) as (o & Hrun & Hverdict & _).
  rewrite Hrun. destruct o as [plan|e].
  - eexists. split; [done|]. destruct Hverdict as (_ & _ & _ & Hacyc).
    split_and!; [by rewrite Hnodes|done..|].
    intros n Hn'. apply (Hacyc n).
    eapply (tc_congruence id); [|exact Hn'].
    intros x y Hxy. by apply recorded_edge_edge_rel.
  - assert (Hinvalid : ¬ engine_valid reg wf).
    { intros (_ & _ & _ & _ & Hacyc).
      destruct (build_execution_plan_acyclic wf Hne Hin Hacyc) as (plan & Hplan & _).
      congruence. }
    destruct e; simpl in Hverdict; try done.
    + eexists. split; [done|]. split; [by eexists|done].
    + destruct Hverdict as [Hnot (s & ed & Hed & _ & <- & _)].
      destruct (Hin ed Hed). done.
Qed.

Lemma engine_valid_with_id reg wf wid :
  engine_valid reg wf → engine_valid reg (with_id wf wid).
Proof. done. Qed.

Lemma engine_valid_by_validation reg wf :
  _validate_workflow_def reg wf = Some (Return ()) → engine_valid reg wf.
Proof.
  intros Hrun. destruct (validate_workflow_def_outcome reg wf) as (o & Ho & Hvalid).
  rewrite Hrun in Ho. by injection Ho as <-.
Qed.

Lemma engine_invalid_by_validation reg wf e :
  _validate_workflow_def reg wf = Some (Raise e) → ¬ engine_valid reg wf.
Proof.
  intros Hrun. destruct (validate_workflow_def_outcome reg wf) as (o & Ho & Hvalid).
  rewrite Hrun in Ho. injection Ho as <-. by destruct Hvalid.
Qed.

Lemma register_workflow_valid eng wf fresh :
  engine_valid (node_registry eng) wf →
  register_workflow eng wf fresh
  = Some (Return
      (MkWorkflowEngine (node_registry eng)
         (<[default fresh (wf_id wf) := with_id wf (default fresh (wf_id wf))]>
            (workflows eng))
         (<[default fresh (wf_id wf) := REGISTERED]> (workflow_status eng))
         (active_executions eng) (max_concurrent_workflows eng)
         (semaphore_value eng) (scheduled_tasks eng) (retry_counts eng)
         (events eng), default fresh (wf_id wf))).
Proof.
  intros Hvalid. unfold register_workflow.
  destruct (validate_workflow_def_outcome (node_registry eng) wf) as (o & -> & Ho).
  destruct o as [[]|e]; [done|]. by destruct Ho.
Qed.

Lemma register_workflow_invalid eng wf fresh :
  ¬ engine_valid (node_registry eng) wf →
  ∃ msg, register_workflow eng wf fresh
         = Some (Raise (WorkflowError ("Failed to register workflow: " +:+ msg))).
Proof.
  intros Hinvalid. unfold register_workflow.
  destruct (validate_workflow_def_outcome (node_registry eng) wf) as (o & -> & Ho).
  destruct o as [[]|e]; [done|]. by eexists.
Qed.

(** ** Runs always end *)




(** [_execute_workflow_internal], by the outcome of the initialization. *)
Lemma execute_workflow_internal_cases eng c t0 t1 :
  _execute_workflow_internal eng c t0 t1 =
  match _initialize_workflow_nodes (node_registry eng)
          (set_started t0 c, events eng ++ [WorkflowStart (execution_id c)]) with
  | None => None
  | Some ((c1, log1), Raise e) =>
      Some (with_run_result eng FAILED (workflow_id c) (execution_id c)
              (count_retry (ctx_workflow_def c) (execution_id c) (retry_counts eng))
              (log1 ++ [WorkflowFailed (execution_id c) (str_of_exn e)]),
            set_finished "failed" (Some (str_of_exn e)) t1 c1,
            Raise (wrap_workflow_error e))
  | Some ((c1, log1), Return _) =>
      match _execute_workflow_nodes (c1, log1) with
      | None => None
      | Some ((c2, log2), Return result) =>
          Some (with_run_result eng COMPLETED (workflow_id c) (execution_id c)
                  (retry_counts eng)
                  (log2 ++ [WorkflowComplete (execution_id c)]),
                set_finished "completed" (error c2) t1 c2, Return result)
      | Some ((c2, log2), Raise e) =>
          Some (with_run_result eng FAILED (workflow_id c) (execution_id c)
                  (count_retry (ctx_workflow_def c) (execution_id c) (retry_counts eng))
                  (log2 ++ [WorkflowFailed (execution_id c) (str_of_exn e)]),
                set_finished "failed" (Some (str_of_exn e)) t1 c2,
                Raise (wrap_workflow_error e))
      end
  end.
Proof.
  unfold _execute_workflow_internal.
  unfold mbind at 1 2 3. unfold M_bind, modify_context, log_execution_event.
  simpl.
  destruct (_initialize_workflow_nodes _ _) as [[[c1 log1] [[]|e]]|]; [|done..].
  by destruct (_execute_workflow_nodes (c1, log1)) as [[[c2 log2] [result|e]]|].
Qed.


Lemma str_of_wrap_workflow_error e :
  str_of_exn (wrap_workflow_error e) = str_of_exn e.
Proof. by destruct e. Qed.

(** How every run that ends leaves the engine and the context. *)
Lemma execute_workflow_internal_ending eng c t0 t1 eng' c' o :
  _execute_workflow_internal eng c t0 t1 = Some (eng', c', o) →
  status c' = final_status o
  ∧ get_workflow_status eng' (workflow_id c) = Some (final_status o)
  ∧ active_executions eng' = delete (execution_id c) (active_executions eng)
  ∧ end_time c' = Some t1
  ∧ (∀ e, o = Raise e →
       (∃ msg, e = WorkflowError msg)
       ∧ error c' = Some (str_of_exn e)
       ∧ ∃ log, events eng' = log ++ [WorkflowFailed (execution_id c) (str_of_exn e)]).
Proof.
  rewrite execute_workflow_internal_cases.
  destruct (_initialize_workflow_nodes _ _) as [[[c1 log1] [[]|e]]|]; [| |done].
  - destruct (_execute_workflow_nodes (c1, log1)) as [[[c2 log2] [result|e]]|];
      [| |done]; intros [= <- <- <-]; (split_and!; [done| |done|done|]).
    + unfold get_workflow_status. simpl. by rewrite lookup_insert_eq.
    + done.
    + unfold get_workflow_status. simpl. by rewrite lookup_insert_eq.
    + intros ? [= <-]. rewrite str_of_wrap_workflow_error. split_and!.
      * apply wrap_workflow_error_is_workflow_error.
      * done.
      * by eexists.
  - intros [= <- <- <-]. split_and!; [done| |done|done|].
    + unfold get_workflow_status. simpl. by rewrite lookup_insert_eq.
    + intros ? [= <-]. rewrite str_of_wrap_workflow_error. split_and!.
      * apply wrap_workflow_error_is_workflow_error.
      * done.
      * by eexists.
Qed.


(** ** The data flow of a run *)











(** ** Input routing *)

Lemma route_edge_eq n (results input : gmap string value) e :
  route_edge n results input e =
  if decide (target e = n) then
    match results !! source e with
    | Some r => <[edge_key e := edge_value e r]> input
    | None => input
    end
  else input.
Proof.
  unfold route_edge, edge_key, edge_value.
  destruct (decide (target e = n)); [|done].
  destruct (results !! source e); [|done].
  by destruct (decide (default "output" (source_output e) = "output")).
Qed.

Lemma foldl_route_edge_untouched n (results : gmap string value) es input k :
  (∀ e, e ∈ es → ¬ routes_to n results k e) →
  foldl (route_edge n results) input es !! k = input !! k.
Proof.
  revert input. induction es as [|e es IH]; intros input Hnone; [done|].
  simpl. rewrite IH by (intros e' He'; apply Hnone; by right).
  rewrite route_edge_eq. destruct (decide (target e = n)) as [Ht|]; [|done].
  destruct (results !! source e) as [r|] eqn:Hr; [|done].
  apply lookup_insert_ne. intros Hk. apply (Hnone e); [by left|].
  split_and!; [done| |done]. by rewrite Hr.
Qed.

Lemma foldl_route_edge_last n (results : gmap string value) es1 e es2 input r :
  target e = n → results !! source e = Some r →
  (∀ e', e' ∈ es2 → ¬ routes_to n results (edge_key e) e') →
  foldl (route_edge n results) input (es1 ++ e :: es2) !! edge_key e
  = Some (edge_value e r).
Proof.
  intros Ht Hr Hnone. rewrite foldl_app. simpl.
  rewrite foldl_route_edge_untouched by done.
  rewrite route_edge_eq, decide_True, Hr by done. apply lookup_insert_eq.
Qed.

(** ** Output assembly *)

Lemma assemble_output_eq (results result : gmap string value) o :
  assemble_output results result o =
  match output_value results o.2 with
  | Some v => <[o.1 := v]> result
  | None => result
  end.
Proof.
  unfold assemble_output, output_value.
  destruct (out_node o.2) as [node_id|]; simpl; [|done].
  destruct (results !! node_id) as [r|]; simpl; [|done].
  by destruct (decide (default "output" (out_path o.2) = "output")).
Qed.

Lemma foldl_assemble_output_lookup (results : gmap string value) outs :
  NoDup outs.*1 →
  ∀ (result : gmap string value) name,
    foldl (assemble_output results) result outs !! name =
    match (list_to_map outs : gmap string output_def) !! name
          ≫= output_value results with
    | Some v => Some v
    | None => result !! name
    end.
Proof.
  induction outs as [|[name0 od] outs IH]; intros Hnd result name; [done|].
  rewrite fmap_cons in Hnd. apply NoDup_cons in Hnd as [Hfresh Hnd].
  simpl. rewrite IH by done. rewrite assemble_output_eq. simpl.
  destruct (decide (name0 = name)) as [->|Hne].
  - rewrite lookup_insert_eq. simpl.
    rewrite (not_elem_of_list_to_map_1 outs name) by done. simpl.
    destruct (output_value results od) as [v|]; [|done].
    by rewrite lookup_insert_eq.
  - rewrite lookup_insert_ne by done.
    destruct (list_to_map outs !! name ≫= output_value results); [done|].
    destruct (output_value results od); [|done]. by rewrite lookup_insert_ne.
Qed.

Lemma prepare_workflow_output_ext c1 c2 :
  ctx_workflow_def c1 = ctx_workflow_def c2 → node_results c1 = node_results c2 →
  run_metadata c1 = run_metadata c2 →
  _prepare_workflow_output c1 = _prepare_workflow_output c2.
Proof.
  intros Hwf Hres Hmeta. unfold _prepare_workflow_output.
  by rewrite Hwf, Hres, Hmeta.
Qed.

(** ** What a run leaves untouched *)

(** [c'] is [c] with other node results. *)
Lemma set_node_results_twice r1 r2 c :
  set_node_results r2 (set_node_results r1 c) = set_node_results r2 c.
Proof. done. Qed.

Lemma process_results_frame wf ids rs c log st' o :
  process_results wf ids rs (c, log) = Some (st', o) →
  st' = (set_node_results (node_results st'.1) c, log).
Proof.
  revert ids c. induction rs as [|r rs IH]; intros ids c.
  - destruct ids; simpl; unfold mret, M_ret; intros [= <- <-]; by destruct c.
  - destruct ids as [|n ids]; simpl;
      [unfold raise; intros [= <- <-]; by destruct c|].
    destruct r as [v|e].
    + unfold mbind, M_bind, modify_context. simpl.
      intros Hrun%IH. rewrite Hrun at 1. done.
    + unfold mbind, M_bind, bounded.
      destruct (_is_node_required _ _ _) as [[]|]; [| |done].
      * intros [= <- <-]. by destruct c.
      * unfold modify_context. simpl. intros Hrun%IH. rewrite Hrun at 1. done.
Qed.

Lemma gather_frame tasks : ∀ c log st' o,
  gather tasks (c, log) = Some (st', o) → st'.1 = c.
Proof.
  induction tasks as [|[[n inst] input] tasks IH]; intros c log st' o; simpl.
  - by intros [= <- <-].
  - unfold mbind, M_bind. rewrite execute_node_spec.
    destruct (gather tasks _) as [[st1 [rs|e]]|] eqn:Hg; [| |done].
    + intros [= <- <-]. by apply IH in Hg.
    + intros [= <- <-]. by apply IH in Hg.
Qed.

Lemma execute_level_frame wf ids c log st' o :
  execute_level wf ids (c, log) = Some (st', o) →
  st'.1 = set_node_results (node_results st'.1) c.
Proof.
  rewrite execute_level_unfold. destruct (level_tasks c ids) as [|t ts].
  - intros [= <- <-]. by destruct c.
  - destruct (gather (t :: ts) (c, log)) as [[[c1 log1] [rs|e]]|] eqn:Hg; [| |done].
    + apply gather_frame in Hg. simpl in Hg. subst c1.
      intros Hrun%process_results_frame. by rewrite Hrun at 1.
    + apply gather_frame in Hg. simpl in Hg. subst c1.
      intros [= <- <-]. by destruct c.
Qed.

Lemma for_each_execute_level_frame wf levels : ∀ c log st' o,
  for_each (execute_level wf) levels (c, log) = Some (st', o) →
  st'.1 = set_node_results (node_results st'.1) c.
Proof.
  induction levels as [|lvl levels IH]; intros c log st' o.
  - intros [= <- <-]. by destruct c.
  - rewrite for_each_cons.
    destruct (execute_level wf lvl (c, log)) as [[[c1 log1] [[]|e]]|] eqn:Hl;
      [| |done].
    + apply execute_level_frame in Hl. simpl in Hl.
      intros Hrest%IH. rewrite Hrest, Hl at 1. done.
    + apply execute_level_frame in Hl. simpl in Hl. by intros [= <- <-].
Qed.

(** The node phase changes nothing but the node results, and what it returns
    is the output assembled from the context as it leaves it. *)
Lemma execute_workflow_nodes_frame c log st' o :
  _execute_workflow_nodes (c, log) = Some (st', o) →
  st'.1 = set_node_results (node_results st'.1) c
  ∧ ∀ out, o = Return out → out = _prepare_workflow_output st'.1.
Proof.
  rewrite execute_workflow_nodes_unfold.
  destruct (_build_execution_plan (ctx_workflow_def c)) as [[plan|e]|]; [| |done].
  - destruct (for_each _ plan _) as [[[c1 log1] [[]|e]]|] eqn:Hrun; [| |done].
    + apply for_each_execute_level_frame in Hrun. simpl in Hrun.
      intros [= <- <-]. split; [exact Hrun|]. by intros ? [= <-].
    + apply for_each_execute_level_frame in Hrun. simpl in Hrun.
      intros [= <- <-]. split; [exact Hrun|done].
  - intros [= <- <-]. split; [by destruct c|done].
Qed.

Lemma initialize_node_frame reg node c log st' o :
  initialize_node reg node (c, log) = Some (st', o) →
  st'.2 = log
  ∧ workflow_id st'.1 = workflow_id c ∧ execution_id st'.1 = execution_id c
  ∧ ctx_workflow_def st'.1 = ctx_workflow_def c
  ∧ trigger_data st'.1 = trigger_data c
  ∧ status st'.1 = status c ∧ error st'.1 = error c
  ∧ start_time st'.1 = start_time c ∧ end_time st'.1 = end_time c
  ∧ duration_seconds st'.1 = duration_seconds c
  ∧ node_results st'.1 = node_results c ∧ variables st'.1 = variables c.
Proof.
  unfold initialize_node, mbind, M_bind, of_outcome, try_except, raise,
    modify_context.
  destruct (nd_type node.2) as [node_type|]; [|by intros [= <- <-]].
  destruct (truthy node_type); [|by intros [= <- <-]].
  destruct (create_node _ _ _ _) as [[inst|]|e]; simpl; [|by intros [= <- <-]..].
  destruct (configure inst _ _) as [inst'|e]; simpl; by intros [= <- <-].
Qed.

Lemma for_each_initialize_frame reg l : ∀ c log st' o,
  for_each (initialize_node reg) l (c, log) = Some (st', o) →
  st'.2 = log
  ∧ workflow_id st'.1 = workflow_id c ∧ execution_id st'.1 = execution_id c
  ∧ ctx_workflow_def st'.1 = ctx_workflow_def c
  ∧ trigger_data st'.1 = trigger_data c
  ∧ status st'.1 = status c ∧ error st'.1 = error c
  ∧ start_time st'.1 = start_time c ∧ end_time st'.1 = end_time c
  ∧ duration_seconds st'.1 = duration_seconds c
  ∧ node_results st'.1 = node_results c ∧ variables st'.1 = variables c.
Proof.
  induction l as [|node l IH]; intros c log st' o.
  - intros [= <- <-]. by split_and!.
  - rewrite for_each_cons.
    destruct (initialize_node reg node (c, log)) as [[[c1 log1] [[]|e]]|] eqn:Hinit;
      [| |done].
    + apply initialize_node_frame in Hinit. simpl in Hinit.
      intros Hrest%IH. destruct_and!. split_and!; congruence.
    + apply initialize_node_frame in Hinit. by intros [= <- <-].
Qed.

Lemma output_metadata_prepare_workflow_output c :
  output_metadata (_prepare_workflow_output c) = Some (run_metadata c).
Proof.
  unfold _prepare_workflow_output, output_metadata.
  destruct (outputs (ctx_workflow_def c)) as [|o outs].
  - simpl. rewrite lookup_insert_ne by done. rewrite lookup_insert_ne by done.
    rewrite lookup_empty. rewrite lookup_insert_ne by done.
    by rewrite lookup_insert_eq.
  - by rewrite lookup_insert_eq.
Qed.

Lemma run_metadata_ext c1 c2 :
  workflow_id c1 = workflow_id c2 → execution_id c1 = execution_id c2 →
  start_time c1 = start_time c2 → end_time c1 = end_time c2 →
  duration_seconds c1 = duration_seconds c2 → status c1 = status c2 →
  run_metadata c1 = run_metadata c2.
Proof. unfold run_metadata. by intros -> -> -> -> -> ->. Qed.

(** What a run that returns hands back was assembled before the run was
    marked as completed. *)
Lemma execute_workflow_internal_returned eng c t0 t1 eng' c' out :
  _execute_workflow_internal eng c t0 t1 = Some (eng', c', Return out) →
  out = _prepare_workflow_output (context_at_output t0 c c').
Proof.
  rewrite execute_workflow_internal_cases.
  destruct (_initialize_workflow_nodes _ _) as [[[c1 log1] [[]|e]]|] eqn:Hinit;
    [| |done].
  2:{ by intros [= _ _ ?]. }
  unfold _initialize_workflow_nodes, mbind, M_bind, get_context in Hinit.
  simpl in Hinit. apply for_each_initialize_frame in Hinit. simpl in Hinit.
  destruct Hinit as (_ & Hwid & Heid & Hwf & _ & Hst & _ & Hstart & Hend & Hdur & _).
  destruct (_execute_workflow_nodes (c1, log1)) as [[[c2 log2] [result|e]]|] eqn:Hrun;
    [| |done].
  2:{ by intros [= _ _ ?]. }
  apply execute_workflow_nodes_frame in Hrun as [Hc2 Hout]. simpl in Hc2, Hout.
  intros [= <- <- <-]. rewrite (Hout result eq_refl).
  apply prepare_workflow_output_ext.
  - rewrite Hc2. simpl. done.
  - done.
  - rewrite Hc2. apply run_metadata_ext; simpl; done.
Qed.

(** ** Levels are started as a whole *)

Lemma concat_take_snoc (fin : list (list string)) lvl rest :
  concat (take (S (length fin)) (fin ++ lvl :: rest)) = concat fin ++ lvl.
Proof.
  rewrite take_app_ge by lia.
  replace (S (length fin) - length fin) with 1 by lia. simpl.
  rewrite take_0, concat_app. simpl. by rewrite app_nil_r.
Qed.

Lemma run_verdict_started wf plan hist results o :
  run_verdict wf plan hist results o →
  ∃ k, hist.*1 = concat (take k plan)
    ∧ match o with
      | Return _ => k = length plan
      | Raise _ => 0 < k ≤ length plan
      end.
Proof.
  destruct o as [out|e]; simpl.
  - intros [Hfst _]. exists (length plan). by rewrite firstn_all.
  - intros (fin & lvl & rest & n & -> & Hfst & _).
    exists (S (length fin)). rewrite concat_take_snoc. split; [done|].
    rewrite length_app. simpl. lia.
Qed.

Lemma NoDup_concat_take (plan : list (list string)) k :
  NoDup (concat plan) → NoDup (concat (take k plan)).
Proof.
  intros Hnd. rewrite <- (take_drop k plan), concat_app in Hnd.
  by apply NoDup_app in Hnd as (? & _).
Qed.

(** ** The required-node check on a cycle *)

Lemma is_node_required_unfold fuel wf n :
  _is_node_required (S fuel) wf n =
  if required_flag wf n then Some true
  else if used_in_outputs wf n then Some true
  else required_downstream (_is_node_required fuel wf) n (edges wf).
Proof. done. Qed.

Lemma required_downstream_none check (n : string) es :
  (∃ e, e ∈ es ∧ source e = n ∧ check (target e) = None) →
  (∀ e, e ∈ es → source e = n → check (target e) ≠ Some true) →
  required_downstream check n es = None.
Proof.
  induction es as [|e es IH]; intros (e0 & He0 & Hs & Hnone) Hnot; simpl.
  - by apply elem_of_nil in He0.
  - assert (Hrest : (∃ e1, e1 ∈ es ∧ source e1 = n ∧ check (target e1) = None) →
                    required_downstream check n es = None).
    { intros Hex. apply IH; [done|]. intros e1 He1. apply Hnot. by right. }
    apply elem_of_cons in He0 as [->|He0].
    + rewrite decide_True by done. by rewrite Hnone.
    + destruct (decide (source e = n)) as [He|He]; [|apply Hrest; eauto].
      destruct (check (target e)) as [[]|] eqn:Hc; [|apply Hrest; eauto|done].
      exfalso. by apply (Hnot e); [left| |].
Qed.

(** On a cycle none of whose reachable nodes is flagged or a declared
    output, the recursion exhausts every depth bound. *)
Lemma is_node_required_on_optional_cycle wf (n : string) :
  tc (edge_rel wf) n n →
  (∀ m, rtc (edge_rel wf) n m → ¬ required_directly wf m) →
  ∀ fuel m, rtc (edge_rel wf) n m → rtc (edge_rel wf) m n →
            _is_node_required fuel wf m = None.
Proof.
  intros Hcyc Hopt. induction fuel as [|fuel IH]; intros m Hnm Hmn; [done|].
  rewrite is_node_required_unfold.
  destruct (required_flag wf m) eqn:Hflag.
  { exfalso. apply (Hopt m Hnm). by left. }
  destruct (used_in_outputs wf m) eqn:Hout.
  { exfalso. apply (Hopt m Hnm). by right. }
  apply required_downstream_none.
  - assert (Htc : tc (edge_rel wf) m n) by (by eapply tc_rtc_l).
    inversion Htc as [? ? (e & He & Hs & Ht)|? m' ? (e & He & Hs & Ht) Hrest]; subst.
    + exists e. split_and!; [done..|]. apply IH; [|done].
      by apply tc_rtc.
    + exists e. split_and!; [done..|]. apply IH.
      * eapply rtc_r; [exact Hnm|]. by exists e.
      * by apply tc_rtc.
  - intros e He Hs Htrue.
    apply is_node_required_sound in Htrue as [Hreach _].
    destruct Hreach as (m' & Hm' & Hd); [done|].
    apply (Hopt m'); [|done].
    etrans; [exact Hnm|]. eapply rtc_l; [|exact Hm']. by exists e.
Qed.

(** Nodes reachable from [n] stay inside a set closed under the edges. *)
Lemma reachable_in_closed_set wf (S : list string) (n m : string) :
  n ∈ S →
  Forall (λ e, source e ∈ S → target e ∈ S) (edges wf) →
  rtc (edge_rel wf) n m → m ∈ S.
Proof.
  intros Hn Hclosed Hreach. induction Hreach as [|x y z (e & He & <- & <-) _ IH];
    [done|].
  apply IH. rewrite Forall_forall in Hclosed. by apply (Hclosed e).
Qed.

Lemma optional_in_closed_set wf (S : list string) (n : string) :
  n ∈ S →
  Forall (λ e, source e ∈ S → target e ∈ S) (edges wf) →
  Forall (λ m, required_flag wf m = false ∧ used_in_outputs wf m = false) S →
  ∀ m, rtc (edge_rel wf) n m → ¬ required_directly wf m.
Proof.
  intros Hn Hclosed Hopt m Hreach.
  pose proof (reachable_in_closed_set wf S n m Hn Hclosed Hreach) as Hm.
  rewrite Forall_forall in Hopt. destruct (Hopt m Hm) as [Hflag Hout].
  intros [?|?]; congruence.
Qed.

(** ** Initialization of the nodes of a valid definition *)

Lemma has_node_type_lookup reg node_type :
  has_node_type reg node_type = true →
  ∃ cls, node_types reg !! node_type = Some cls.
Proof.
  unfold has_node_type. intros H%bool_decide_eq_true.
  destruct H as [cls Hcls]. by exists cls.
Qed.

Lemma initialize_node_registered reg node c log :
  node_type_registered reg node →
  ∃ o, initialize_node reg node (c, log)
       = Some ((match o with
                | Return inst => set_active_node node.1 inst c
                | Raise _ => c
                end, log),
               match o with Return _ => Return () | Raise e => Raise e end)
    ∧ ∀ e, o = Raise e → initialization_failure reg node e.
Proof.
  intros (node_type & Htype & Hne & [cls Hcls]%has_node_type_lookup).
  unfold initialize_node, mbind, M_bind, of_outcome, try_except, raise,
    modify_context, create_node.
  rewrite Htype, (proj2 (truthy_true node_type) Hne), Hcls.
  fold (node_kwargs node).
  destruct (construct cls [] (node_kwargs node)) as [inst|e] eqn:Hcons; simpl.
  - destruct (configure inst _ _) as [inst'|e0] eqn:Hconf; simpl.
    + exists (Return inst'). split; [done|]. by intros ? [=].
    + eexists (Raise _). split; [done|]. intros ? [= <-].
      exists node_type, cls. split_and!; [done..|]. right. by exists inst, e0.
  - exists (Raise e). split; [done|]. intros ? [= <-].
    exists node_type, cls. split_and!; [done..|]. by left.
Qed.

Lemma for_each_initialize_registered reg l :
  (∀ node, node ∈ l → node_type_registered reg node) →
  ∀ c log, ∃ c' o,
    for_each (initialize_node reg) l (c, log) = Some ((c', log), o)
    ∧ match o with
      | Return _ =>
          dom (active_nodes c') = dom (active_nodes c) ∪ list_to_set l.*1
      | Raise e =>
          ∃ pre node post, l = pre ++ node :: post
            ∧ initialization_failure reg node e
            ∧ dom (active_nodes c') = dom (active_nodes c) ∪ list_to_set pre.*1
      end.
Proof.
  induction l as [|node l IH]; intros Hall c log.
  - exists c, (Return ()). split; [done|]. set_solver.
  - rewrite for_each_cons.
    destruct (initialize_node_registered reg node c log) as (o & -> & Ho);
      [apply Hall; by left|].
    destruct o as [inst|e].
    + assert (Hall' : ∀ n, n ∈ l → node_type_registered reg n).
      { intros n Hn. apply Hall. by right. }
      destruct (IH Hall' (set_active_node node.1 inst c) log)
        as (c' & o & -> & Hres).
      exists c', o. split; [done|]. destruct o as [[]|e].
      * rewrite Hres. simpl. rewrite dom_insert_L. set_solver.
      * destruct Hres as (pre & node' & post & -> & Hfail & Hdom).
        exists (node :: pre), node', post. split_and!; [done..|].
        rewrite Hdom. simpl. rewrite dom_insert_L. set_solver.
    + exists c, (Raise e). split; [done|].
      exists [], node, l. split_and!; [done|by apply Ho|]. set_solver.
Qed.

(** ** What the validator accepts *)

Lemma string_app_nonempty_l (pre s : string) : pre ≠ "" → pre +:+ s ≠ "".
Proof. destruct pre; [done|]. by rewrite string_app_cons. Qed.






(** ** The retry wrapper *)







(** ** Context variables, the registry, paths and the loader *)

Lemma lookup_insert_cong {A} (m1 m2 : gmap string A) (k0 k : string) (v : A) :
  m1 !! k = m2 !! k → <[k0 := v]> m1 !! k = <[k0 := v]> m2 !! k.
Proof.
  intros Heq. destruct (decide (k0 = k)) as [->|Hne].
  - by rewrite !lookup_insert_eq.
  - by rewrite !lookup_insert_ne.
Qed.

Lemma split_on_nonempty sep s : split_on sep s ≠ [].
Proof.
  destruct s as [|c rest]; simpl; [done|].
  destruct (Ascii.eqb c sep); [done|]. by destruct (split_on sep rest).
Qed.

Lemma split_on_app sep (s1 s2 : string) :
  split_on sep (s1 +:+ String sep s2) = split_on sep s1 ++ split_on sep s2.
Proof.
  induction s1 as [|c r IH].
  - change ("" +:+ String sep s2) with (String sep s2). simpl.
    by rewrite Ascii.eqb_refl.
  - rewrite string_app_cons. simpl. rewrite IH.
    destruct (Ascii.eqb c sep); [done|].
    pose proof (split_on_nonempty sep r) as Hne.
    by destruct (split_on sep r).
Qed.

Lemma extract_parts_none parts : extract_parts parts VNone = VNone.
Proof. by destruct parts. Qed.

Lemma extract_parts_app ps qs v :
  extract_parts (ps ++ qs) v = extract_parts qs (extract_parts ps v).
Proof.
  revert v. induction ps as [|p ps IH]; intros v; simpl; [done|].
  destruct (path_step v p) as [v'|]; [apply IH|].
  by rewrite extract_parts_none.
Qed.


(** ** The plan depends on the recorded dependencies only *)

Lemma recorded_edge_Exists wf (s t : string) :
  recorded_edge wf s t ↔
  Exists (λ e, source e = s ∧ target e = t ∧ s ≠ "" ∧ t ≠ "") (edges wf).
Proof.
  rewrite Exists_exists. unfold recorded_edge. split.
  - intros (e & He & ?). exists e. by split.
  - intros (e & He & ?). exists e. by split.
Qed.

Lemma preds_ext wf1 wf2 :
  (∀ s t, recorded_edge wf1 s t ↔ recorded_edge wf2 s t) →
  ∀ n, preds (edges wf1) n = preds (edges wf2) n.
Proof.
  intros Hsame n. apply set_eq. intros s.
  by rewrite <- !recorded_edge_preds.
Qed.

Lemma add_dependencies_declared wf deps :
  add_dependencies (edges wf) (init_dependencies wf) = Return deps →
  ∀ s t, recorded_edge wf s t → t ∈ node_ids wf.
Proof.
  intros Hadd s t (e & He & <- & <- & Hs & Ht).
  pose proof (add_dependencies_outcome (edges wf) (init_dependencies wf)) as Hout.
  rewrite Hadd in Hout. destruct Hout as [Hdom _].
  specialize (Hdom e He Hs Ht). rewrite dom_init_dependencies in Hdom. set_solver.
Qed.

Lemma add_dependencies_undeclared wf e :
  add_dependencies (edges wf) (init_dependencies wf) = Raise e →
  ∃ s t, recorded_edge wf s t ∧ t ∉ node_ids wf ∧ e = KeyError t.
Proof.
  intros Hadd.
  pose proof (add_dependencies_outcome (edges wf) (init_dependencies wf)) as Hout.
  rewrite Hadd in Hout. destruct Hout as (ed & Hed & Hs & Ht & Hdom & ->).
  exists (source ed), (target ed). split_and!; [by exists ed| |done].
  rewrite dom_init_dependencies in Hdom. set_solver.
Qed.

(** Two definitions with the same node ids and the same recorded
    dependencies are planned alike. *)
Lemma build_execution_plan_ext wf1 wf2 :
  node_ids wf1 = node_ids wf2 →
  (∀ s t, recorded_edge wf1 s t ↔ recorded_edge wf2 s t) →
  ∃ o1 o2,
    _build_execution_plan wf1 = Some o1 ∧ _build_execution_plan wf2 = Some o2
    ∧ (o1 = o2 ∨ ∃ t1 t2, o1 = Raise (KeyError t1) ∧ o2 = Raise (KeyError t2)).
Proof.
  intros Hids Hsame.
  destruct (build_execution_plan_outcome wf1) as (o1 & Ho1 & _).
  destruct (build_execution_plan_outcome wf2) as (o2 & Ho2 & _).
  exists o1, o2. split; [done|]. split; [done|].
  unfold _build_execution_plan in Ho1, Ho2.
  assert (Hinit : init_dependencies wf1 = init_dependencies wf2).
  { unfold init_dependencies. by rewrite Hids. }
  pose proof (add_dependencies_outcome (edges wf1) (init_dependencies wf1)) as H1.
  pose proof (add_dependencies_outcome (edges wf2) (init_dependencies wf2)) as H2.
  destruct (add_dependencies (edges wf1) _) as [deps1|e1] eqn:Hadd1,
           (add_dependencies (edges wf2) _) as [deps2|e2] eqn:Hadd2.
  - destruct H1 as [_ H1], H2 as [_ H2]. left.
    assert (deps1 = deps2) as ->.
    { apply map_eq. intros n. by rewrite H1, H2, Hinit, (preds_ext wf1 wf2). }
    congruence.
  - exfalso. apply add_dependencies_undeclared in Hadd2 as (s & t & Hst & Hnot & _).
    apply Hnot. rewrite <- Hids.
    eapply add_dependencies_declared; [exact Hadd1|]. by apply Hsame.
  - exfalso. apply add_dependencies_undeclared in Hadd1 as (s & t & Hst & Hnot & _).
    apply Hnot. rewrite Hids.
    eapply add_dependencies_declared; [exact Hadd2|]. by apply Hsame.
  - right. apply add_dependencies_undeclared in Hadd1 as (_ & t1 & _ & _ & ->).
    apply add_dependencies_undeclared in Hadd2 as (_ & t2 & _ & _ & ->).
    exists t1, t2. split; congruence.
Qed.

(** * Further properties, stated *)

(** ** The planner *)

(** X1: on every workflow definition [_build_execution_plan] comes to an
    outcome.  A returned plan lists every node id exactly once and puts the
    source of every recorded dependency (an edge with non-empty endpoints)
    in a strictly earlier level than its target, so the recorded
    dependencies have no cycle.  A [KeyError] names the target of a recorded
    edge that is no node id.  The only other failure is the
    cyclic-dependency [WorkflowError], whose message lists the nodes left
    over, each waiting for a node left over or for a source that is no node
    id. *)
Theorem planner_outcome_on_any_definition wf :
  ∃ o, _build_execution_plan wf = Some o ∧ planner_verdict wf o.
Proof.
  destruct (build_execution_plan_outcome wf) as (o & Hrun & Hverdict & _).
  by exists o.
Qed.

(** X2: a plan returned by [_build_execution_plan] puts every node in the
    earliest level its dependencies allow: no level is empty, the first
    level holds exactly the nodes without a recorded dependency, and every
    node of a later level has a recorded dependency on a node of the level
    just before. *)
Theorem planner_levels_are_earliest wf plan :
  _build_execution_plan wf = Some (Return plan) → plan_earliest wf plan.
Proof.
  intros Hplan.
  destruct (build_execution_plan_outcome wf) as (o & Hrun & _ & Hearly).
  apply Hearly. congruence.
Qed.

Lemma planner_levels_are_earliest_diamond :
  ∃ plan, _build_execution_plan diamond = Some (Return plan)
    ∧ length plan = 3 ∧ plan_earliest diamond plan.
Proof.
  eexists. split; [vm_compute; reflexivity|]. split; [reflexivity|].
  apply (planner_levels_are_earliest diamond). vm_compute. reflexivity.
Defined.

(** ** Validation, registration and launch by the engine *)

(** X3: [_validate_workflow_def] accepts a definition exactly when it has at
    least one node, every node names a non-empty registered type, every edge
    joins two declared nodes with non-empty ids, and the edges have no
    cycle; every other definition is rejected with a [WorkflowError], never
    with another exception. *)
Theorem engine_validation_accepts_exactly_valid reg wf :
  (_validate_workflow_def reg wf = Some (Return ()) ↔ engine_valid reg wf)
  ∧ ∃ o, _validate_workflow_def reg wf = Some o
      ∧ ∀ e, o = Raise e → (∃ msg, e = WorkflowError msg) ∧ ¬ engine_valid reg wf.
Proof.
  destruct (validate_workflow_def_outcome reg wf) as (o & Ho & Hvalid). split.
  - split; [apply engine_valid_by_validation|].
    intros Hv. rewrite Ho. destruct o as [[]|e]; [done|]. by destruct Hvalid.
  - exists o. split; [done|]. by intros e ->.
Qed.

(** X4: [register_workflow] stores a valid definition under its id (its own
    [id], or the fresh one, which is written into the definition) with
    status [registered] and returns the id, leaving the active executions
    alone; an invalid definition is refused with a [WorkflowError] whose
    message starts with ["Failed to register workflow: "]. *)
Theorem register_workflow_accepts_exactly_valid eng wf fresh :
  (engine_valid (node_registry eng) wf →
     ∃ eng', register_workflow eng wf fresh
             = Some (Return (eng', default fresh (wf_id wf)))
       ∧ workflows eng'
         = <[default fresh (wf_id wf) := with_id wf (default fresh (wf_id wf))]>
             (workflows eng)
       ∧ get_workflow_status eng' (default fresh (wf_id wf)) = Some "registered"
       ∧ (∀ wid, wid ≠ default fresh (wf_id wf) →
            get_workflow_status eng' wid = get_workflow_status eng wid)
       ∧ active_executions eng' = active_executions eng)
  ∧ (¬ engine_valid (node_registry eng) wf →
     ∃ msg, register_workflow eng wf fresh
            = Some (Raise (WorkflowError ("Failed to register workflow: " +:+ msg)))).
Proof.
  split.
  - intros Hvalid. eexists. split; [by apply register_workflow_valid|].
    unfold get_workflow_status. simpl. split_and!; [done| |
      intros wid Hwid; by rewrite lookup_insert_ne|done].
    by rewrite lookup_insert_eq.
  - apply register_workflow_invalid.
Qed.

Lemma register_workflow_accepts_exactly_valid_sample :
  (∃ eng', register_workflow (sample_engine 10) single_node_wf "w"
           = Some (Return (eng', "wf-one"))
     ∧ get_workflow_status eng' "wf-one" = Some "registered")
  ∧ (∃ msg, register_workflow (sample_engine 10) two_cycle "w"
            = Some (Raise (WorkflowError ("Failed to register workflow: " +:+ msg)))).
Proof.
  split.
  - destruct (proj1 (register_workflow_accepts_exactly_valid
                       (sample_engine 10) single_node_wf "w"))
      as (eng' & Hreg & _ & Hstatus & _).
    + apply engine_valid_by_validation. vm_compute. reflexivity.
    + by exists eng'.
  - apply (proj2 (register_workflow_accepts_exactly_valid
                    (sample_engine 10) two_cycle "w")).
    eapply engine_invalid_by_validation. vm_compute. reflexivity.
Defined.



(** ** Data flow *)

(** X6: the input [_prepare_node_input] builds is a dictionary.  A key no
    incoming edge writes is absent, except ["trigger"], which then holds the
    trigger data.  A key some incoming edge writes holds what the last such
    edge of the definition writes: the whole result of its source when its
    [source_output] is absent or ["output"] (the key is then the source id,
    whatever [target_input] says), and otherwise the value extracted along
    [source_output], under [target_input] or, without one, the source id.
    An edge whose source has no result writes nothing. *)
Theorem node_input_is_what_the_last_edges_write n c :
  ∃ input, _prepare_node_input n c = VDict input
    ∧ (∀ k, (∀ e, e ∈ edges (ctx_workflow_def c) →
                  ¬ routes_to n (node_results c) k e) →
            input !! k = if decide (k = "trigger") then Some (trigger_data c)
                         else None)
    ∧ (∀ es1 e es2 r,
         edges (ctx_workflow_def c) = es1 ++ e :: es2 →
         target e = n → node_results c !! source e = Some r →
         (∀ e', e' ∈ es2 → ¬ routes_to n (node_results c) (edge_key e) e') →
         input !! edge_key e = Some (edge_value e r)).
Proof.
  eexists. split; [reflexivity|]. split.
  - intros k Hnone. rewrite foldl_route_edge_untouched by done.
    destruct (decide (k = "trigger")) as [->|Hk].
    + apply lookup_singleton_eq.
    + by apply lookup_singleton_ne.
  - intros es1 e es2 r -> Ht Hr Hnone. by apply foldl_route_edge_last.
Qed.



(** ** Workflow output *)

(** X8: when a definition declares outputs (under distinct names),
    [_prepare_workflow_output] returns a dictionary whose key
    ["__metadata__"] holds the run metadata, even if an output is declared
    under that name, and whose every other key is a declared output whose
    node has filed a result: the whole result for the path ["output"] (the
    default), and otherwise the value extracted along the path.  A declared
    output without a node, or whose node has no result, is left out. *)
Theorem declared_outputs_are_assembled c :
  outputs (ctx_workflow_def c) ≠ [] →
  NoDup (outputs (ctx_workflow_def c)).*1 →
  ∃ m, _prepare_workflow_output c = VDict m
    ∧ m !! "__metadata__" = Some (run_metadata c)
    ∧ ∀ name, name ≠ "__metadata__" →
        m !! name
        = (list_to_map (outputs (ctx_workflow_def c)) : gmap string output_def)
            !! name ≫= output_value (node_results c).
Proof.
  intros Hne Hnd. unfold _prepare_workflow_output.
  destruct (outputs (ctx_workflow_def c)) as [|o outs] eqn:Houts; [done|].
  eexists. split; [done|]. split; [by rewrite lookup_insert_eq|].
  intros name Hname. rewrite lookup_insert_ne by done.
  rewrite foldl_assemble_output_lookup by done. rewrite lookup_empty.
  by destruct (_ ≫= _).
Qed.

Lemma declared_outputs_are_assembled_sample :
  ∃ m, _prepare_workflow_output context_with_result = VDict m
    ∧ m !! "__metadata__" = Some (run_metadata context_with_result)
    ∧ m !! "whole"
      = Some (VDict {[ "status" := VStr "success"; "data" := VInt 7 ]})
    ∧ m !! "status" = Some (VStr "success")
    ∧ m !! "ghost" = None.
Proof.
  destruct (declared_outputs_are_assembled context_with_result)
    as (m & Hm & Hmeta & Hkeys).
  - done.
  - compute_done.
  - exists m. split_and!; [done..| | |].
    + by rewrite Hkeys.
    + by rewrite Hkeys.
    + by rewrite Hkeys.
Defined.

(** X9: what a run returns is the output assembled at the end of the node
    phase, before the run is marked as completed: its metadata entry reports
    the status ["running"], the end time and the duration the context had
    before the run, although the context itself ends with status
    ["completed"] and the end time of the run. *)
Theorem returned_output_reports_a_running_run eng c t0 t1 eng' c' out :
  _execute_workflow_internal eng c t0 t1 = Some (eng', c', Return out) →
  out = _prepare_workflow_output (context_at_output t0 c c')
  ∧ output_metadata out
    = Some (VDict (list_to_map [
        ("workflow_id", VStr (workflow_id c));
        ("execution_id", VStr (execution_id c));
        ("start_time", isoformat_or_none (Some t0));
        ("end_time", isoformat_or_none (end_time c));
        ("duration_seconds", VInt (duration_seconds c));
        ("status", VStr "running")]))
  ∧ status c' = "completed" ∧ end_time c' = Some t1.
Proof.
  intros Hrun. pose proof (execute_workflow_internal_returned _ _ _ _ _ _ _ Hrun) as ->.
  split; [done|]. split; [by rewrite output_metadata_prepare_workflow_output|].
  destruct (execute_workflow_internal_ending _ _ _ _ _ _ _ Hrun) as (? & _ & _ & ? & _).
  done.
Qed.

Lemma returned_output_reports_a_running_run_sample :
  ∃ eng' c' out,
    _execute_workflow_internal (sample_engine 10) tolerant_context 100%Z 105%Z
      = Some (eng', c', Return out)
    ∧ output_metadata out
      = Some (VDict (list_to_map [
          ("workflow_id", VStr "wf-tolerant");
          ("execution_id", VStr "exec-2");
          ("start_time", isoformat_or_none (Some 100%Z));
          ("end_time", VNone);
          ("duration_seconds", VInt 0);
          ("status", VStr "running")]))
    ∧ status c' = "completed" ∧ end_time c' = Some 105%Z.
Proof.
  destruct (_execute_workflow_internal (sample_engine 10) tolerant_context
              100%Z 105%Z) as [[[eng' c'] [out|e]]|] eqn:Hrun;
    [|vm_compute in Hrun; discriminate..].
  exists eng', c', out. split; [done|].
  apply (returned_output_reports_a_running_run
           (sample_engine 10) tolerant_context 100%Z 105%Z eng' c' out Hrun).
Defined.

(** ** Runs *)

(** X10: a run starts the nodes level by level, in the order of the plan,
    each node at most once, and it never stops inside a level: the nodes it
    has started are exactly those of the first [k] levels.  A run that
    returns has started all levels; a run that raises has started at least
    one, the level of the failure included with all its nodes. *)
Theorem runs_start_whole_levels eng c t0 t1 c1 log1 :
  edges_nonempty (ctx_workflow_def c) → edges_in_nodes (ctx_workflow_def c) →
  acyclic (ctx_workflow_def c) →
  _initialize_workflow_nodes (node_registry eng)
    (set_started t0 c, events eng ++ [WorkflowStart (execution_id c)])
  = Some ((c1, log1), Return ()) →
  ∃ eng' c' o plan k,
    _execute_workflow_internal eng c t0 t1 = Some (eng', c', o)
    ∧ _build_execution_plan (ctx_workflow_def c) = Some (Return plan)
    ∧ started_nodes (events eng')
      = started_nodes (events eng) ++ concat (take k plan)
    ∧ NoDup (concat (take k plan))
    ∧ match o with
      | Return _ => k = length plan
      | Raise _ => 0 < k ≤ length plan
      end.
Proof.
  intros Hne Hin Hacyc Hinit.
  destruct (execute_workflow_internal_spec eng c t0 t1 c1 log1 Hne Hin Hacyc Hinit)
    as (eng' & c' & o & plan & hist & Hrun & Hplan & (Hnd & _) & _ & Hev
        & Hverdict & _).
  destruct (run_verdict_started _ _ _ _ _ Hverdict) as (k & Hk & Ho).
  exists eng', c', (wrapped_outcome o), plan, k.
  split_and!; [done..| | |].
  - by rewrite Hev, started_nodes_of_run, Hk.
  - by apply NoDup_concat_take.
  - by destruct o.
Qed.

Lemma runs_start_whole_levels_sample :
  ∃ eng' c' o plan k,
    _execute_workflow_internal engine_with_failing_run failing_context 100%Z 105%Z
      = Some (eng', c', o)
    ∧ _build_execution_plan failing_wf = Some (Return plan)
    ∧ started_nodes (events eng')
      = started_nodes (events engine_with_failing_run) ++ concat (take k plan)
    ∧ NoDup (concat (take k plan))
    ∧ match o with
      | Return _ => k = length plan
      | Raise _ => 0 < k ≤ length plan
      end.
Proof.
  apply (runs_start_whole_levels
           engine_with_failing_run failing_context 100%Z 105%Z
           (initialized_context engine_with_failing_run failing_context 100%Z)
           (events engine_with_failing_run ++ [WorkflowStart "exec-1"])).
  - apply edges_nonempty_Forall. compute_done.
  - apply edges_in_nodes_Forall. compute_done.
  - apply (acyclic_by_rank _ (rank_table [("B", 1)])). compute_done.
  - vm_compute. reflexivity.
Defined.

(** X11: a run that fails tells one story everywhere.  The exception it
    raises is a [WorkflowError] whose message is the text of the original
    exception, without any prefix; the same text is stored in the context's
    [error] and carried by the closing [workflow_error] event; the context
    ends with status ["failed"] and the end time of the run, and the
    workflow status is ["failed"]. *)
Theorem failed_run_reports_one_message eng c t0 t1 eng' c' e :
  _execute_workflow_internal eng c t0 t1 = Some (eng', c', Raise e) →
  ∃ msg, e = WorkflowError msg
    ∧ error c' = Some msg
    ∧ (∃ log, events eng' = log ++ [WorkflowFailed (execution_id c) msg])
    ∧ status c' = "failed" ∧ end_time c' = Some t1
    ∧ get_workflow_status eng' (workflow_id c) = Some "failed".
Proof.
  intros Hrun.
  destruct (execute_workflow_internal_ending _ _ _ _ _ _ _ Hrun)
    as (Hstatus & Hwstatus & _ & Hend & Hraise).
  destruct (Hraise e eq_refl) as ([msg ->] & Herr & Hlog).
  exists msg. by split_and!.
Qed.

Lemma failed_run_reports_one_message_sample :
  ∃ eng' c',
    _execute_workflow_internal engine_with_failing_run failing_context 100%Z 105%Z
      = Some (eng', c', Raise (WorkflowError "Required node B failed: boom"))
    ∧ error c' = Some "Required node B failed: boom"
    ∧ (∃ log, events eng'
              = log ++ [WorkflowFailed "exec-1" "Required node B failed: boom"])
    ∧ status c' = "failed" ∧ end_time c' = Some 105%Z
    ∧ get_workflow_status eng' "wf-fail" = Some "failed".
Proof.
  destruct (_execute_workflow_internal engine_with_failing_run failing_context
              100%Z 105%Z) as [[[eng' c'] [out|e]]|] eqn:Hrun;
    [vm_compute in Hrun; discriminate| |vm_compute in Hrun; discriminate].
  assert (He : e = WorkflowError "Required node B failed: boom").
  { vm_compute in Hrun. by injection Hrun as _ _ <-. }
  subst e. exists eng', c'. split; [done|].
  destruct (failed_run_reports_one_message
              engine_with_failing_run failing_context 100%Z 105%Z eng' c' _ Hrun)
    as (msg & [= <-] & ?). done.
Defined.

(** ** The required-node check and initialization *)

(** X12: on a cycle of edges from which no node with a set (or absent)
    [required] flag and no declared output can be reached,
    [_is_node_required] never returns: whatever bound is put on the depth of
    the recursion, the recursion exceeds it. *)
Theorem required_check_never_returns_on_optional_cycle wf (n : string) :
  tc (edge_rel wf) n n →
  (∀ m, rtc (edge_rel wf) n m → ¬ required_directly wf m) →
  ∀ fuel, _is_node_required fuel wf n = None.
Proof.
  intros Hcyc Hopt fuel.
  by apply (is_node_required_on_optional_cycle wf n Hcyc Hopt).
Qed.

Lemma required_check_never_returns_on_optional_cycle_sample :
  _is_node_required 1000 optional_loop "a" = None.
Proof.
  apply (required_check_never_returns_on_optional_cycle optional_loop "a").
  - eapply tc_l; [|apply tc_once].
    + exists (mk_edge "a" "b"). split; [by left|done].
    + exists (mk_edge "b" "a"). split; [right; by left|done].
  - apply (optional_in_closed_set optional_loop ["a"; "b"]); compute_done.
Defined.

(** X13: for a definition the engine accepts at registration,
    [_initialize_workflow_nodes] emits no event and either gives every node
    an instance, or fails at the first node whose constructor or whose
    [configure] raises, leaving the instances of the nodes before it in the
    context.  A constructor's exception comes out as it is; an exception of
    [configure] comes out as the [WorkflowError]
    ["Failed to configure node <id>: <text>"]. *)
Theorem initialization_of_a_valid_definition reg c log :
  engine_valid reg (ctx_workflow_def c) →
  ∃ c' o, _initialize_workflow_nodes reg (c, log) = Some ((c', log), o)
    ∧ match o with
      | Return _ =>
          dom (active_nodes c')
          = dom (active_nodes c) ∪ list_to_set (node_ids (ctx_workflow_def c))
      | Raise e =>
          ∃ pre node post,
            nodes (ctx_workflow_def c) = pre ++ node :: post
            ∧ initialization_failure reg node e
            ∧ dom (active_nodes c') = dom (active_nodes c) ∪ list_to_set pre.*1
      end.
Proof.
  intros (_ & Hall & _).
  unfold _initialize_workflow_nodes, mbind, M_bind, get_context. simpl.
  by apply for_each_initialize_registered.
Qed.

Lemma initialization_of_a_valid_definition_sample :
  ∃ c' o,
    _initialize_workflow_nodes sample_registry (failing_context, [])
    = Some ((c', []), o)
    ∧ match o with
      | Return _ =>
          dom (active_nodes c')
          = dom (active_nodes failing_context) ∪ list_to_set (node_ids failing_wf)
      | Raise e =>
          ∃ pre node post,
            nodes failing_wf = pre ++ node :: post
            ∧ initialization_failure sample_registry node e
            ∧ dom (active_nodes c')
              = dom (active_nodes failing_context) ∪ list_to_set pre.*1
      end.
Proof.
  apply (initialization_of_a_valid_definition sample_registry failing_context []).
  apply engine_valid_by_validation. vm_compute. reflexivity.
Defined.

(** ** The validator *)



(** ** The retry wrapper *)




(** ** Context variables, the registry, paths and the loader *)

(** X17: [get_variable] returns what [set_variable] stored under the name,
    whatever the default; the other names keep what they had; in a new
    context every name gives the default.  [set_variable] changes nothing
    else of the context, and for a name that does not start with an
    underscore the new value shows in the [variables] of [to_dict], the
    other keys of which stay as they were. *)
Theorem context_variables_round_trip c name v :
  (∀ d, get_variable (set_variable c name v) name d = v)
  ∧ (∀ other d, other ≠ name →
       get_variable (set_variable c name v) other d = get_variable c other d)
  ∧ (∀ wid eid wf trigger other d,
       get_variable (new_context wid eid wf trigger) other d = d)
  ∧ set_variable c name v = with_variables c (<[name := v]> (variables c))
  ∧ (is_private name = false →
     dict_get (to_dict (set_variable c name v)) "variables"
     = Some (VDict (<[name := v]> (public_variables (variables c)))))
  ∧ (∀ k, k ≠ "variables" →
       dict_get (to_dict (set_variable c name v)) k = dict_get (to_dict c) k).
Proof.
  split_and!.
  - intros d. unfold get_variable, set_variable. simpl. by rewrite lookup_insert_eq.
  - intros other d Hne. unfold get_variable, set_variable. simpl.
    by rewrite lookup_insert_ne.
  - done.
  - done.
  - intros Hpub. unfold to_dict, set_variable, dict_get. simpl.
    do 9 (rewrite lookup_insert_ne by done). rewrite lookup_insert_eq.
    do 2 f_equal. unfold public_variables.
    by rewrite map_filter_insert_True.
  - intros k Hk. unfold to_dict, set_variable, dict_get. simpl.
    do 9 (apply lookup_insert_cong). by rewrite !lookup_insert_ne.
Qed.

(** X18: after [register_node_type] has bound a name to a class (one that
    derives from [NodeBase], as every class of this development does),
    [create_node] for that name calls this class and returns its instance,
    or raises its exception; every other name behaves as before;
    registering a name again replaces the earlier class. *)
Theorem registered_types_can_be_created reg type_name cls args kwargs :
  create_node (register_node_type reg type_name cls) type_name args kwargs
  = match construct cls args kwargs with
    | Return inst => Return (Some inst)
    | Raise e => Raise e
    end
  ∧ (∀ other, other ≠ type_name →
       create_node (register_node_type reg type_name cls) other args kwargs
       = create_node reg other args kwargs)
  ∧ (∀ cls0,
       register_node_type (register_node_type reg type_name cls0) type_name cls
       = register_node_type reg type_name cls).
Proof.
  unfold create_node, register_node_type. simpl. split_and!.
  - by rewrite lookup_insert_eq.
  - intros other Hne. by rewrite lookup_insert_ne.
  - intros cls0. by rewrite insert_insert_eq.
Qed.

(** X19: the dotted-path extraction composes: extracting along
    [p + "." + q] is extracting along [q] from what the extraction along [p]
    gives, for every value and all paths [p] and [q]. *)
Theorem extract_path_composes p q v :
  extract_path (p +:+ "." +:+ q) v = extract_path q (extract_path p v).
Proof.
  unfold extract_path.
  change ("." +:+ q) with (String "." q).
  by rewrite split_on_app, extract_parts_app.
Qed.



(** X21: the plan depends on the node ids and on the recorded dependencies
    only: two definitions with the same node ids whose edges with non-empty
    endpoints join the same pairs of ids get the same plan, or the same
    cyclic-dependency error, or a [KeyError] each.  The order of the edges,
    repeated edges, edges with an empty endpoint and the mapping fields of
    the edges make no difference. *)
Theorem plan_depends_on_the_recorded_dependencies_only wf1 wf2 :
  node_ids wf1 = node_ids wf2 →
  (∀ s t, recorded_edge wf1 s t ↔ recorded_edge wf2 s t) →
  ∃ o1 o2,
    _build_execution_plan wf1 = Some o1 ∧ _build_execution_plan wf2 = Some o2
    ∧ (o1 = o2 ∨ ∃ t1 t2, o1 = Raise (KeyError t1) ∧ o2 = Raise (KeyError t2)).
Proof. apply build_execution_plan_ext. Qed.

Lemma plan_depends_on_the_recorded_dependencies_only_sample :
  _build_execution_plan diamond_shuffled = _build_execution_plan diamond
  ∧ ∃ o1 o2,
      _build_execution_plan diamond = Some o1
      ∧ _build_execution_plan diamond_shuffled = Some o2
      ∧ (o1 = o2 ∨ ∃ t1 t2, o1 = Raise (KeyError t1) ∧ o2 = Raise (KeyError t2)).
Proof.
  split; [vm_compute; reflexivity|].
  apply (plan_depends_on_the_recorded_dependencies_only diamond diamond_shuffled).
  - reflexivity.
  - intros s t. split.
    + intros (e & He & <- & <- & Hs & Ht).
      repeat (apply elem_of_cons in He as [->|He]);
        [..|by apply elem_of_nil in He];
        apply recorded_edge_Exists; compute_done.
    + intros (e & He & <- & <- & Hs & Ht).
      repeat (apply elem_of_cons in He as [->|He]);
        [..|by apply elem_of_nil in He]; try done;
        apply recorded_edge_Exists; compute_done.
Defined.
